(** * Windowing subsystem of robot-codeplus: a shallow embedding

    The development follows the TypeScript sources of the custom UI:
    [ModalWindow] (modalWindow.ts), [ModalManager] (modalManager.ts),
    [Dock] (dock.ts), [Launchpad] (launchpad.ts), [DOMUtils] (utils.ts),
    [TitleBarManager] (titleBar.ts) and [CustomUIManager]
    (customUIManager.ts).

    Conventions of the embedding.
    - A JavaScript [number] that holds a pixel length, an opacity or a
      random draw is a rational ([Q], exact arithmetic); a z-index is an
      integer ([Z]).
    - A JavaScript string is a [string] of 8-bit characters;
      [toLowerCase] and [trim] act on the ASCII range.
    - Objects have identity: every [ModalWindow] lives in an object store
      (a list indexed by its reference), and the registry
      [Map<string, ModalWindow>] is an insertion-ordered association list
      from titles to references.
    - What the browser computes ([getBoundingClientRect], [Math.random],
      [window.innerWidth]) is an input of the operation that reads it.
    - The body of a [setTimeout] call is queued in the world; a pending
      body runs when [fireTimer] picks it. *)

From Stdlib Require Import QArith Qminmax Lqa ZArith Lia String Ascii.
From stdpp Require Import gmap strings list.

Set Default Proof Using "Type".

(* ================================================================== *)
(** * JavaScript string primitives used by the sources *)
(* ================================================================== *)

Module JS.

Definition isUpper (c : ascii) : bool :=
  (65 <=? nat_of_ascii c)%nat && (nat_of_ascii c <=? 90)%nat.

Definition toLowerChar (c : ascii) : ascii :=
  if isUpper c then ascii_of_nat (nat_of_ascii c + 32) else c.

(** [String.prototype.toLowerCase] on the ASCII range. *)
Fixpoint toLowerCase (s : string) : string :=
  match s with
  | EmptyString => EmptyString
  | String c r => String (toLowerChar c) (toLowerCase r)
  end.

(** White space and line terminators removed by [trim]: TAB, LF, VT,
    FF, CR and SPACE. *)
Definition isWhiteSpace (c : ascii) : bool :=
  let n := nat_of_ascii c in
  ((9 <=? n)%nat && (n <=? 13)%nat) || (n =? 32)%nat.

Fixpoint trimStart (s : string) : string :=
  match s with
  | EmptyString => EmptyString
  | String c r => if isWhiteSpace c then trimStart r else s
  end.

Fixpoint trimEnd (s : string) : string :=
  match s with
  | EmptyString => EmptyString
  | String c r =>
      match trimEnd r with
      | EmptyString => if isWhiteSpace c then EmptyString else String c EmptyString
      | r' => String c r'
      end
  end.

(** [String.prototype.trim]. *)
Definition trim (s : string) : string := trimEnd (trimStart s).

(** [pat] matches at the start of [s]. *)
Fixpoint matchesAtStart (pat s : string) : bool :=
  match pat with
  | EmptyString => true
  | String a pat' =>
      match s with
      | EmptyString => false
      | String b s' => Ascii.eqb a b && matchesAtStart pat' s'
      end
  end.

(** [s.includes(pat)]: [pat] occurs in [s] as a contiguous substring. *)
Fixpoint includes (s pat : string) : bool :=
  matchesAtStart pat s ||
  match s with
  | EmptyString => false
  | String _ r => includes r pat
  end.

(** The relation [includes] decides. *)
Definition occurs_in (pat s : string) : Prop :=
  exists a b : string, s = (a +:+ pat +:+ b)%string.

End JS.

(* ================================================================== *)
(** * launchpad.ts *)
(* ================================================================== *)

Module Launchpad.

Record ModalDefinition := mkDef {
  title : string;
  width : Q;
  height : Q;
  titleBarColor : string;
  icon : string
}.

Record t := mk {
  isVisible : bool;
  searchInput_value : string;
  modalDefinitions : list ModalDefinition;
  filteredModals : list ModalDefinition
}.

(** [initializeModalDefinitions]: the catalog, in source order. *)
Definition catalog : list ModalDefinition :=
  [ mkDef "HELLO Dialog" 600 400 "#007acc" "ðŸ‘‹";
    mkDef "Small Window" 400 300 "#8e44ad" "ðŸ“±";
    mkDef "Large Window" 800 600 "#e67e22" "ðŸ–¥ï¸";
    mkDef "Settings" 500 400 "#95a5a6" "âš™ï¸";
    mkDef "File Manager" 700 500 "#3498db" "ðŸ“";
    mkDef "Terminal" 600 400 "#2c3e50" "ðŸ’»";
    mkDef "Calculator" 300 400 "#e74c3c" "ðŸ§®";
    mkDef "Text Editor" 650 450 "#27ae60" "ðŸ“" ].

(** State after the constructor: hidden, empty search box, the catalog
    loaded and copied into the filtered view. *)
Definition create : t :=
  {| isVisible := false; searchInput_value := "";
     modalDefinitions := catalog; filteredModals := catalog |}.

(** [filterModals]: reads the search box, lower-cases and trims it. *)
Definition filterModals (lp : t) : t :=
  let searchTerm := JS.trim (JS.toLowerCase (searchInput_value lp)) in
  let filtered :=
    if String.eqb searchTerm "" then modalDefinitions lp
    else List.filter
           (fun modal => JS.includes (JS.toLowerCase (title modal)) searchTerm)
           (modalDefinitions lp) in
  {| isVisible := isVisible lp; searchInput_value := searchInput_value lp;
     modalDefinitions := modalDefinitions lp; filteredModals := filtered |}.

(** The ['input'] listener of the search box: the browser has stored the
    typed text in [searchInput.value], then [filterModals] runs. *)
Definition onSearchInput (text : string) (lp : t) : t :=
  filterModals
    {| isVisible := isVisible lp; searchInput_value := text;
       modalDefinitions := modalDefinitions lp;
       filteredModals := filteredModals lp |}.

Definition show (lp : t) : t :=
  {| isVisible := true; searchInput_value := searchInput_value lp;
     modalDefinitions := modalDefinitions lp;
     filteredModals := filteredModals lp |}.

(** [hide]: the synchronous part; the reset of the search box is the
    body of its 200ms timer, [hide_timeout]. *)
Definition hide (lp : t) : t :=
  {| isVisible := false; searchInput_value := searchInput_value lp;
     modalDefinitions := modalDefinitions lp;
     filteredModals := filteredModals lp |}.

Definition hide_timeout (lp : t) : t :=
  {| isVisible := isVisible lp; searchInput_value := "";
     modalDefinitions := modalDefinitions lp;
     filteredModals := modalDefinitions lp |}.

Definition toggle (lp : t) : t :=
  if isVisible lp then hide lp else show lp.

(** The view the launcher shows after the user typed [q]. *)
Definition view (q : string) (lp : t) : list ModalDefinition :=
  filteredModals (onSearchInput q lp).


Definition contains_cib (text title : string) : bool :=
  JS.includes (JS.toLowerCase title) (JS.toLowerCase text).

End Launchpad.

(* ================================================================== *)
(** * utils.ts: DOMUtils.calculateRandomModalPosition *)
(* ================================================================== *)

Module DOMUtils.

Record Position := mkPosition { left : Q; top : Q }.

(** The browser values the function reads: the viewport size and the two
    successive results of [Math.random()]. *)
Record Host := mkHost {
  innerWidth : Q;
  innerHeight : Q;
  random1 : Q;
  random2 : Q
}.

(** [Math.random()] returns a number in [0, 1). *)
Definition random_ok (h : Host) : Prop :=
  (0 <= random1 h)%Q /\ (random1 h < 1)%Q /\
  (0 <= random2 h)%Q /\ (random2 h < 1)%Q.

Definition maxLeft (h : Host) (width : Q) : Q :=
  Qmax 50 (innerWidth h - width - 50).

Definition maxTop (h : Host) (height : Q) : Q :=
  Qmax 50 (innerHeight h - height - 100).

Definition calculateRandomModalPosition (h : Host) (width height : Q) : Position :=
  {| left := random1 h * maxLeft h width + 50;
     top := random2 h * maxTop h height + 50 |}.

End DOMUtils.

(* ================================================================== *)
(** * modalWindow.ts *)
(* ================================================================== *)

Module ModalWindow.

Local Open Scope Q_scope.

(** The four numbers the code reads from [getBoundingClientRect()] and
    keeps in [state.originalSize] ([Size & Position] of types.ts). *)
Record Rect := mkRect {
  rect_width : Q;
  rect_height : Q;
  rect_left : Q;
  rect_top : Q
}.

(** The two shapes of length the code writes into [element.style]:
    [`${n}px`] and ['calc(100% - 20px)']. *)
Inductive CssLength :=
| Px (n : Q)
| CalcFullMinus (n : Q).

Inductive Display := DisplayFlex | DisplayNone | DisplayBlock.

(** The part of the DOM element the code reads or writes. [data_active]
    is [None] until [setActive] is first called; [parentNode] tells
    whether the element is attached to the content area. *)
Record Element := mkElement {
  style_width : CssLength;
  style_height : CssLength;
  style_left : CssLength;
  style_top : CssLength;
  style_zIndex : Z;
  style_opacity : option Q;
  style_display : Display;
  style_borderRadius : string;
  style_transform : string;
  style_transition : string;
  data_dialog_title : string;
  data_active : option bool;
  parentNode : bool
}.

(** [ModalState] of types.ts. *)
Record ModalState := mkState {
  isMinimized : bool;
  isMaximized : bool;
  isActive : bool;
  zIndex : Z;
  originalSize : option Rect
}.

(** The closures [ModalManager.createModal] installs with [onMinimize]
    and [onRestore]: each relays the title to the manager's own
    callback, if one is registered at the time of the call. *)
Inductive Callback := ManagerOnMinimize | ManagerOnRestore.

Record t := mk {
  element : Element;
  title : string;
  width : Q;
  height : Q;
  left : Q;
  top : Q;
  titleBarColor : string;
  state : ModalState;
  minimizeCallback : option Callback;
  restoreCallback : option Callback
}.

(** A callback invocation a method performs: which closure, with which
    title. The registry runs it ([ModalManager.runCallback]). *)
Definition Call : Type := option (Callback * string).

(** UI_CONSTANTS.Z_INDEX.MODAL_BASE (constants.ts). *)
Definition MODAL_BASE : Z := 100.

(** ** Field updates *)

Definition with_element (f : Element -> Element) (m : t) : t :=
  mk (f (element m)) (title m) (width m) (height m) (left m) (top m)
     (titleBarColor m) (state m) (minimizeCallback m) (restoreCallback m).

Definition with_state (f : ModalState -> ModalState) (m : t) : t :=
  mk (element m) (title m) (width m) (height m) (left m) (top m)
     (titleBarColor m) (f (state m)) (minimizeCallback m) (restoreCallback m).

Definition set_geometry (w h l tp : CssLength) (e : Element) : Element :=
  mkElement w h l tp (style_zIndex e) (style_opacity e) (style_display e)
    (style_borderRadius e) (style_transform e) (style_transition e)
    (data_dialog_title e) (data_active e) (parentNode e).

Definition set_zIndex (z : Z) (e : Element) : Element :=
  mkElement (style_width e) (style_height e) (style_left e) (style_top e)
    z (style_opacity e) (style_display e)
    (style_borderRadius e) (style_transform e) (style_transition e)
    (data_dialog_title e) (data_active e) (parentNode e).

Definition set_opacity (o : option Q) (e : Element) : Element :=
  mkElement (style_width e) (style_height e) (style_left e) (style_top e)
    (style_zIndex e) o (style_display e)
    (style_borderRadius e) (style_transform e) (style_transition e)
    (data_dialog_title e) (data_active e) (parentNode e).

Definition set_display (d : Display) (e : Element) : Element :=
  mkElement (style_width e) (style_height e) (style_left e) (style_top e)
    (style_zIndex e) (style_opacity e) d
    (style_borderRadius e) (style_transform e) (style_transition e)
    (data_dialog_title e) (data_active e) (parentNode e).

Definition set_borderRadius (r : string) (e : Element) : Element :=
  mkElement (style_width e) (style_height e) (style_left e) (style_top e)
    (style_zIndex e) (style_opacity e) (style_display e)
    r (style_transform e) (style_transition e)
    (data_dialog_title e) (data_active e) (parentNode e).

Definition set_transform (s : string) (e : Element) : Element :=
  mkElement (style_width e) (style_height e) (style_left e) (style_top e)
    (style_zIndex e) (style_opacity e) (style_display e)
    (style_borderRadius e) s (style_transition e)
    (data_dialog_title e) (data_active e) (parentNode e).

Definition set_transition (s : string) (e : Element) : Element :=
  mkElement (style_width e) (style_height e) (style_left e) (style_top e)
    (style_zIndex e) (style_opacity e) (style_display e)
    (style_borderRadius e) (style_transform e) s
    (data_dialog_title e) (data_active e) (parentNode e).

Definition set_data_active (b : bool) (e : Element) : Element :=
  mkElement (style_width e) (style_height e) (style_left e) (style_top e)
    (style_zIndex e) (style_opacity e) (style_display e)
    (style_borderRadius e) (style_transform e) (style_transition e)
    (data_dialog_title e) (Some b) (parentNode e).

Definition set_parentNode (b : bool) (e : Element) : Element :=
  mkElement (style_width e) (style_height e) (style_left e) (style_top e)
    (style_zIndex e) (style_opacity e) (style_display e)
    (style_borderRadius e) (style_transform e) (style_transition e)
    (data_dialog_title e) (data_active e) b.

Definition set_isMinimized (b : bool) (s : ModalState) : ModalState :=
  mkState b (isMaximized s) (isActive s) (zIndex s) (originalSize s).

Definition set_maximized (b : bool) (o : option Rect) (s : ModalState) : ModalState :=
  mkState (isMinimized s) b (isActive s) (zIndex s) o.

(** ** Construction *)

(** [createModalElement]: the style text of the new dialog. *)
Definition createModalElement (title : string) (width height left top : Q) : Element :=
  {| style_width := Px width; style_height := Px height;
     style_left := Px left; style_top := Px top;
     style_zIndex := 100; style_opacity := None;
     style_display := DisplayFlex; style_borderRadius := "8px";
     style_transform := ""; style_transition := "";
     data_dialog_title := title; data_active := None;
     parentNode := false |}.

Definition create (title : string) (width height left top : Q)
    (titleBarColor : string) : t :=
  {| element := createModalElement title width height left top;
     title := title; width := width; height := height;
     left := left; top := top; titleBarColor := titleBarColor;
     state := {| isMinimized := false; isMaximized := false;
                 isActive := false; zIndex := MODAL_BASE;
                 originalSize := None |};
     minimizeCallback := None; restoreCallback := None |}.

(** ** Public methods *)

Definition getTitle (m : t) : string := title m.

Definition setZIndex (z : Z) (m : t) : t := with_element (set_zIndex z) m.

Definition setOpacity (o : Q) (m : t) : t :=
  with_element (set_opacity (Some o)) m.

Definition setActive (b : bool) (m : t) : t :=
  with_element (set_data_active b) m.

Definition isModalMinimized (m : t) : bool := isMinimized (state m).

Definition onMinimize (cb : Callback) (m : t) : t :=
  mk (element m) (title m) (width m) (height m) (left m) (top m)
     (titleBarColor m) (state m) (Some cb) (restoreCallback m).

Definition onRestore (cb : Callback) (m : t) : t :=
  mk (element m) (title m) (width m) (height m) (left m) (top m)
     (titleBarColor m) (state m) (minimizeCallback m) (Some cb).

(** [minimize]: hides the element, sets the flag and notifies; there is
    no test of the flag. *)
Definition minimize (m : t) : t * Call :=
  (with_state (set_isMinimized true)
     (with_element (set_display DisplayNone) m),
   option_map (fun cb => (cb, title m)) (minimizeCallback m)).

(** [restore]: only from the minimized state. *)
Definition restore (m : t) : t * Call :=
  if isMinimized (state m) then
    (with_state (set_isMinimized false)
       (with_element (set_display DisplayFlex) m),
     option_map (fun cb => (cb, title m)) (restoreCallback m))
  else (m, None).

(** [maximize]: [rect] is what [getBoundingClientRect()] returns at the
    call. *)
Definition maximize (rect : Rect) (m : t) : t :=
  if negb (isMaximized (state m)) then
    with_state (set_maximized true (Some rect))
      (with_element
         (fun e => set_borderRadius "0"
                     (set_geometry (CalcFullMinus 20) (CalcFullMinus 20)
                        (Px 10) (Px 10) e)) m)
  else m.

Definition restoreSize (m : t) : t :=
  match isMaximized (state m), originalSize (state m) with
  | true, Some o =>
      with_state (set_maximized false None)
        (with_element
           (fun e => set_borderRadius "8px"
                       (set_geometry (Px (rect_width o)) (Px (rect_height o))
                          (Px (rect_left o)) (Px (rect_top o)) e)) m)
  | _, _ => m
  end.

Definition toggleMaximize (rect : Rect) (m : t) : t :=
  if isMaximized (state m) then restoreSize m else maximize rect m.

(** ** Resize gesture ([startResize]) *)

(** The eight handles of [createResizeHandles], with their names. *)
Inductive Direction := NW | N | NE | E | SE | S | SW | W.

Definition name (d : Direction) : string :=
  match d with
  | NW => "nw" | N => "n" | NE => "ne" | E => "e"
  | SE => "se" | S => "s" | SW => "sw" | W => "w"
  end.

(** What the [mousedown] handler captures: pointer position and the
    measured rectangle. *)
Record ResizeStart := mkResizeStart {
  startX : Q;
  startY : Q;
  startWidth : Q;
  startHeight : Q;
  startLeft : Q;
  startTop : Q;
  direction : Direction
}.

Definition startResize (clientX clientY : Q) (rect : Rect) (d : Direction)
    : ResizeStart :=
  {| startX := clientX; startY := clientY;
     startWidth := rect_width rect; startHeight := rect_height rect;
     startLeft := rect_left rect; startTop := rect_top rect;
     direction := d |}.

(** The rectangle [onMouseMove] computes for a pointer at
    [(clientX, clientY)]. *)
Definition resizeRect (g : ResizeStart) (clientX clientY : Q) : Rect :=
  let deltaX := clientX - startX g in
  let deltaY := clientY - startY g in
  let dir := name (direction g) in
  let '(newWidth, newLeft) :=
    if JS.includes dir "e" then
      (Qmax 300 (startWidth g + deltaX), startLeft g)
    else if JS.includes dir "w" then
      let newWidth := Qmax 300 (startWidth g - deltaX) in
      (newWidth, startLeft g + (startWidth g - newWidth))
    else (startWidth g, startLeft g) in
  let '(newHeight, newTop) :=
    if JS.includes dir "s" then
      (Qmax 200 (startHeight g + deltaY), startTop g)
    else if JS.includes dir "n" then
      let newHeight := Qmax 200 (startHeight g - deltaY) in
      (newHeight, startTop g + (startHeight g - newHeight))
    else (startHeight g, startTop g) in
  {| rect_width := newWidth; rect_height := newHeight;
     rect_left := newLeft; rect_top := newTop |}.

(** [onMouseMove]: writes the four lengths into the style. *)
Definition onMouseMove (g : ResizeStart) (clientX clientY : Q) (m : t) : t :=
  let r := resizeRect g clientX clientY in
  with_element
    (set_geometry (Px (rect_width r)) (Px (rect_height r))
       (Px (rect_left r)) (Px (rect_top r))) m.

(** One gesture: the handle, the pointer position and the rectangle
    measured at [mousedown], then the pointer positions of the
    [mousemove] events up to [mouseup]. *)
Record Gesture := mkGesture {
  handle : Direction;
  downX : Q;
  downY : Q;
  measured : Rect;
  moves : list (Q * Q)
}.

Definition runGesture (m : t) (g : Gesture) : t :=
  let s := startResize (downX g) (downY g) (measured g) (handle g) in
  fold_left (fun m p => onMouseMove s (fst p) (snd p) m) (moves g) m.


(** ** Reading a window *)







End ModalWindow.

(* ================================================================== *)
(** * dock.ts *)
(* ================================================================== *)

Module Dock.

Record Entry := mkEntry { title : string; icon : string }.

(** [minimizedModals : Map<string, { title, icon }>]. *)
Record t := mk { minimizedModals : gmap string Entry }.

Definition create : t := {| minimizedModals := ∅ |}.

Definition addMinimizedModal (title icon : string) (d : t) : t :=
  {| minimizedModals := <[title := mkEntry title icon]> (minimizedModals d) |}.

Definition removeModal (title : string) (d : t) : t :=
  {| minimizedModals := delete title (minimizedModals d) |}.

(** The titles shown in the dock. *)
Definition entries (d : t) : gset string := dom (minimizedModals d).

End Dock.

(* ================================================================== *)
(** * modalManager.ts *)
(* ================================================================== *)

Module ModalManager.

(** A reference to a [ModalWindow] object: its index in the store. *)
Definition Ref := nat.

(** ** [Map<string, ModalWindow>], insertion ordered *)

Definition map_get (k : string) (l : list (string * Ref)) : option Ref :=
  snd <$> List.find (fun e => String.eqb (fst e) k) l.

(** [Map.set]: an existing key keeps its place and takes the new value,
    a new key goes to the end. *)
Fixpoint map_set (k : string) (v : Ref) (l : list (string * Ref))
    : list (string * Ref) :=
  match l with
  | [] => [(k, v)]
  | e :: r => if String.eqb (fst e) k then (k, v) :: r else e :: map_set k v r
  end.

Definition map_delete (k : string) (l : list (string * Ref))
    : list (string * Ref) :=
  List.filter (fun e => negb (String.eqb (fst e) k)) l.

(** [Array.from(map.values())]. *)
Definition map_values (l : list (string * Ref)) : list Ref := snd <$> l.

(** [Map.forEach] over the live map [live s]: the entry at the cursor is
    read from the current state at every step. The bound is the size of
    the map when the loop starts, which the loop reaches only if the
    callback adds entries; no callback in the sources does. *)
Fixpoint forEach_from {S : Type} (live : S -> list (string * Ref))
    (fuel : nat) (i : nat) (f : Ref -> S -> S) (s : S) : S :=
  match fuel with
  | O => s
  | Datatypes.S fuel' =>
      match live s !! i with
      | None => s
      | Some e => forEach_from live fuel' (Datatypes.S i) f (f (snd e) s)
      end
  end.

Definition forEach {S : Type} (live : S -> list (string * Ref))
    (f : Ref -> S -> S) (s : S) : S :=
  forEach_from live (length (live s)) 0 f s.

(** Bodies of the [setTimeout] calls of this class. *)
Inductive Timer := CloseTimeout (modal : Ref).

Section Registry.

(** State of the collaborators the registered callbacks act on (dock,
    title bar). A callback receives a title and updates that state:
    the callbacks the application registers ([setupEventHandlers] of
    customUIManager.ts) call the dock and the title bar only, never
    the registry. *)
Context {E : Type}.

Definition Listener : Type := string -> E -> E.

Record t := mk {
  modals : list (string * Ref);
  modalSelectionCallback : option Listener;
  nextZIndex : Z;
  activeModal : option Ref;
  minimizeCallback : option Listener;
  restoreFromDockCallback : option Listener;
  closeCallback : option Listener
}.

(** The field initialisers of the class. *)
Definition create : t :=
  {| modals := []; modalSelectionCallback := None; nextZIndex := 1000;
     activeModal := None; minimizeCallback := None;
     restoreFromDockCallback := None; closeCallback := None |}.

Record World := mkWorld {
  store : list ModalWindow.t;
  manager : t;
  env : E;
  timers : list Timer
}.

Definition init (e : E) : World :=
  {| store := []; manager := create; env := e; timers := [] |}.

(** *** Field updates *)

Definition with_store (f : list ModalWindow.t -> list ModalWindow.t)
    (w : World) : World :=
  mkWorld (f (store w)) (manager w) (env w) (timers w).

Definition with_manager (f : t -> t) (w : World) : World :=
  mkWorld (store w) (f (manager w)) (env w) (timers w).

Definition with_env (f : E -> E) (w : World) : World :=
  mkWorld (store w) (manager w) (f (env w)) (timers w).

Definition with_timers (f : list Timer -> list Timer) (w : World) : World :=
  mkWorld (store w) (manager w) (env w) (f (timers w)).

Definition set_modals (l : list (string * Ref)) (g : t) : t :=
  mk l (modalSelectionCallback g) (nextZIndex g) (activeModal g)
     (minimizeCallback g) (restoreFromDockCallback g) (closeCallback g).

Definition set_nextZIndex (z : Z) (g : t) : t :=
  mk (modals g) (modalSelectionCallback g) z (activeModal g)
     (minimizeCallback g) (restoreFromDockCallback g) (closeCallback g).

Definition set_activeModal (a : option Ref) (g : t) : t :=
  mk (modals g) (modalSelectionCallback g) (nextZIndex g) a
     (minimizeCallback g) (restoreFromDockCallback g) (closeCallback g).

(** *** Access to the window objects *)

(** Apply a method without result to the object behind [modal]. *)
Definition update (modal : Ref) (f : ModalWindow.t -> ModalWindow.t)
    (w : World) : World :=
  with_store (alter f modal) w.

Definition getTitle (modal : Ref) (w : World) : string :=
  match store w !! modal with
  | Some m => ModalWindow.getTitle m
  | None => ""
  end.

Definition liveModals (w : World) : list (string * Ref) :=
  modals (manager w).

(** Call a registered callback, if any. *)
Definition notify (cb : option Listener) (title : string) (w : World)
    : World :=
  match cb with
  | Some f => with_env (f title) w
  | None => w
  end.

(** Run a callback invocation made by a window: the closures of
    [createModal] read the manager's callback when they are called. *)
Definition runCallback (c : ModalWindow.Call) (w : World) : World :=
  match c with
  | Some (ModalWindow.ManagerOnMinimize, title) =>
      notify (minimizeCallback (manager w)) title w
  | Some (ModalWindow.ManagerOnRestore, title) =>
      notify (restoreFromDockCallback (manager w)) title w
  | None => w
  end.

(** Call a method of the object behind [modal] that may notify. *)
Definition call (modal : Ref)
    (method : ModalWindow.t -> ModalWindow.t * ModalWindow.Call)
    (w : World) : World :=
  match store w !! modal with
  | Some m =>
      let '(m', c) := method m in
      runCallback c (with_store (fun st => <[modal := m']> st) w)
  | None => w
  end.

(** [modal.minimize()] and [modal.restore()]. *)
Definition minimize (modal : Ref) (w : World) : World :=
  call modal ModalWindow.minimize w.

Definition restore (modal : Ref) (w : World) : World :=
  call modal ModalWindow.restore w.

(** *** Methods of the class *)

Definition bringModalToFront (modal : Ref) (w : World) : World :=
  let z := Z.max (nextZIndex (manager w) + 1) 100 in
  let w := with_manager (set_nextZIndex z) w in
  let w := update modal (ModalWindow.setZIndex z) w in
  let w :=
    forEach liveModals
      (fun m w =>
         if decide (m = modal) then w
         else update m (fun o => ModalWindow.setActive false
                                   (ModalWindow.setOpacity (9 # 10) o)) w)
      w in
  let w := with_manager (set_activeModal (Some modal)) w in
  let w := update modal (fun o => ModalWindow.setActive true
                                    (ModalWindow.setOpacity 1 o)) w in
  notify (modalSelectionCallback (manager w)) (getTitle modal w) w.

(** [createModal]: returns the world and the reference of the new
    window (whose element the caller attaches). *)
Definition createModal (title : string) (width height left top : Q)
    (titleBarColor : string) (w : World) : World * Ref :=
  let modalWindow := length (store w) in
  let object :=
    ModalWindow.onRestore ModalWindow.ManagerOnRestore
      (ModalWindow.onMinimize ModalWindow.ManagerOnMinimize
         (ModalWindow.create title width height left top titleBarColor)) in
  let w := with_store (fun st => st ++ [object]) w in
  let w := with_manager
             (fun g => set_modals (map_set title modalWindow (modals g)) g) w in
  (bringModalToFront modalWindow w, modalWindow).

(** [closeModal]: starts the exit transition and sets the timer. *)
Definition closeModal (modal : Ref) (w : World) : World :=
  let w :=
    update modal
      (ModalWindow.with_element
         (fun e => ModalWindow.set_transition "all 0.2s ease-out"
                     (ModalWindow.set_opacity (Some 0%Q)
                        (ModalWindow.set_transform "scale(0.8)" e)))) w in
  with_timers (fun ts => ts ++ [CloseTimeout modal]) w.

(** The body of the timer of [closeModal]. *)
Definition closeModal_timeout (modal : Ref) (w : World) : World :=
  let w := update modal
             (ModalWindow.with_element (ModalWindow.set_parentNode false)) w in
  let w := with_manager
             (fun g => set_modals (map_delete (getTitle modal w) (modals g)) g) w in
  let w :=
    if decide (activeModal (manager w) = Some modal) then
      let w := with_manager (set_activeModal None) w in
      let remainingModals := map_values (modals (manager w)) in
      match last remainingModals with
      | Some r => bringModalToFront r w
      | None => w
      end
    else w in
  notify (closeCallback (manager w)) (getTitle modal w) w.

Definition runTimer (t : Timer) (w : World) : World :=
  match t with
  | CloseTimeout modal => closeModal_timeout modal w
  end.

(** The [i]-th pending timer fires. *)
Definition fireTimer (i : nat) (w : World) : World :=
  match timers w !! i with
  | Some t => runTimer t (with_timers (delete i) w)
  | None => w
  end.

(** The oldest pending timer fires. *)
Definition tick (w : World) : World := fireTimer 0 w.

Definition closeActiveModal (w : World) : World :=
  match activeModal (manager w) with
  | Some modal => closeModal modal w
  | None => w
  end.

Definition minimizeAllModals (w : World) : World :=
  forEach liveModals minimize w.

Definition restoreAllModals (w : World) : World :=
  forEach liveModals restore w.

Definition closeAllModals (w : World) : World :=
  let modalsToClose := map_values (modals (manager w)) in
  fold_left (fun w modal => closeModal modal w) modalsToClose w.

Definition resetModalZIndexes (w : World) : World :=
  let '(w, zIndex) :=
    forEach (fun s : World * Z => liveModals (fst s))
      (fun modal s =>
         (update modal (ModalWindow.setZIndex (snd s)) (fst s),
          (snd s + 1)%Z))
      (w, 1000%Z) in
  with_manager (set_nextZIndex zIndex) w.

Definition onModalSelected (cb : Listener) (w : World) : World :=
  with_manager
    (fun g => mk (modals g) (Some cb) (nextZIndex g) (activeModal g)
                 (minimizeCallback g) (restoreFromDockCallback g)
                 (closeCallback g)) w.

Definition onModalMinimized (cb : Listener) (w : World) : World :=
  with_manager
    (fun g => mk (modals g) (modalSelectionCallback g) (nextZIndex g)
                 (activeModal g) (Some cb) (restoreFromDockCallback g)
                 (closeCallback g)) w.

Definition onModalRestoredFromDock (cb : Listener) (w : World) : World :=
  with_manager
    (fun g => mk (modals g) (modalSelectionCallback g) (nextZIndex g)
                 (activeModal g) (minimizeCallback g) (Some cb)
                 (closeCallback g)) w.

Definition onModalClosed (cb : Listener) (w : World) : World :=
  with_manager
    (fun g => mk (modals g) (modalSelectionCallback g) (nextZIndex g)
                 (activeModal g) (minimizeCallback g)
                 (restoreFromDockCallback g) (Some cb)) w.

Definition restoreModalByTitle (title : string) (w : World) : World :=
  match map_get title (modals (manager w)) with
  | Some modal =>
      match store w !! modal with
      | Some m =>
          if ModalWindow.isModalMinimized m then
            let w := restore modal w in
            let w := bringModalToFront modal w in
            notify (restoreFromDockCallback (manager w)) title w
          else w
      | None => w
      end
  | None => w
  end.

Definition getActiveModal (w : World) : option Ref :=
  activeModal (manager w).

Definition getAllModals (w : World) : list Ref :=
  map_values (modals (manager w)).

Definition clearActiveModal (w : World) : World :=
  let w :=
    forEach liveModals
      (fun modal w =>
         update modal (fun o => ModalWindow.setActive false
                                  (ModalWindow.setOpacity (8 # 10) o)) w)
      w in
  let w := with_manager (set_activeModal None) w in
  notify (modalSelectionCallback (manager w)) "" w.


(** *** The events the registry receives *)

(** One constructor per public method of the class, per event wired
    by [createModal] ([mousedown] is [OpBringModalToFront],
    [modalClose] is [OpCloseModal]), per timer, and per button or
    gesture of a window. *)
Inductive Op :=
| OpCreateModal (title : string) (width height left top : Q)
    (titleBarColor : string)
| OpBringModalToFront (modal : Ref)
| OpCloseActiveModal
| OpCloseModal (modal : Ref)
| OpFireTimer (i : nat)
| OpMinimizeAllModals
| OpRestoreAllModals
| OpCloseAllModals
| OpResetModalZIndexes
| OpOnModalSelected (cb : Listener)
| OpOnModalMinimized (cb : Listener)
| OpOnModalRestoredFromDock (cb : Listener)
| OpOnModalClosed (cb : Listener)
| OpRestoreModalByTitle (title : string)
| OpClearActiveModal
| OpMinimize (modal : Ref)
| OpRestore (modal : Ref)
| OpToggleMaximize (modal : Ref) (rect : ModalWindow.Rect)
| OpResize (modal : Ref) (g : ModalWindow.Gesture).

Definition step (o : Op) (w : World) : World :=
  match o with
  | OpCreateModal title width height x y color =>
      fst (createModal title width height x y color w)
  | OpBringModalToFront modal => bringModalToFront modal w
  | OpCloseActiveModal => closeActiveModal w
  | OpCloseModal modal => closeModal modal w
  | OpFireTimer i => fireTimer i w
  | OpMinimizeAllModals => minimizeAllModals w
  | OpRestoreAllModals => restoreAllModals w
  | OpCloseAllModals => closeAllModals w
  | OpResetModalZIndexes => resetModalZIndexes w
  | OpOnModalSelected cb => onModalSelected cb w
  | OpOnModalMinimized cb => onModalMinimized cb w
  | OpOnModalRestoredFromDock cb => onModalRestoredFromDock cb w
  | OpOnModalClosed cb => onModalClosed cb w
  | OpRestoreModalByTitle title => restoreModalByTitle title w
  | OpClearActiveModal => clearActiveModal w
  | OpMinimize modal => minimize modal w
  | OpRestore modal => restore modal w
  | OpToggleMaximize modal rect =>
      update modal (ModalWindow.toggleMaximize rect) w
  | OpResize modal g => update modal (fun m => ModalWindow.runGesture m g) w
  end.

(** The window an event names exists: a reference is only obtained
    from [createModal]. *)
Definition op_ok (o : Op) (w : World) : Prop :=
  match o with
  | OpBringModalToFront modal | OpCloseModal modal | OpMinimize modal
  | OpRestore modal | OpToggleMaximize modal _ | OpResize modal _ =>
      modal < length (store w)
  | _ => True
  end.

Inductive reachable : World -> Prop :=
| reachable_init (e : E) : reachable (init e)
| reachable_step (o : Op) (w : World) :
    reachable w -> op_ok o w -> reachable (step o w).

Definition run (ops : list Op) (w : World) : World :=
  fold_left (fun w o => step o w) ops w.

(** *** Reading the registry *)

(** [modal] is a value of the map. *)
Definition registered (modal : Ref) (w : World) : Prop :=
  modal ∈ map_values (modals (manager w)).

(** The [data-active] attribute of the window's element is ["true"]. *)
Definition active (modal : Ref) (w : World) : Prop :=
  exists m, store w !! modal = Some m /\
            ModalWindow.data_active (ModalWindow.element m) = Some true.

(** The z-index written in the style of the window's element. *)
Definition zIndexOf (modal : Ref) (w : World) : Z :=
  match store w !! modal with
  | Some m => ModalWindow.style_zIndex (ModalWindow.element m)
  | None => 0
  end.





End Registry.

Arguments t : clear implicits.
Arguments World : clear implicits.
Arguments Op : clear implicits.

(** ** The invariant of the registry *)

(** What the registry relies on in a window object: its title, the two
    closures installed at creation, the [data-active] attribute and the
    z-index of its element. *)
Record View := mkView {
  v_title : string;
  v_min : option ModalWindow.Callback;
  v_res : option ModalWindow.Callback;
  v_active : option bool;
  v_z : Z
}.

Definition view_of (o : ModalWindow.t) : View :=
  {| v_title := ModalWindow.title o;
     v_min := ModalWindow.minimizeCallback o;
     v_res := ModalWindow.restoreCallback o;
     v_active := ModalWindow.data_active (ModalWindow.element o);
     v_z := ModalWindow.style_zIndex (ModalWindow.element o) |}.

Definition vset_active (b : bool) (v : View) : View :=
  mkView (v_title v) (v_min v) (v_res v) (Some b) (v_z v).

Definition vset_z (z : Z) (v : View) : View :=
  mkView (v_title v) (v_min v) (v_res v) (v_active v) z.

Section Invariant.

Context {E : Type}.

Definition viewAt (w : World E) (m : Ref) : option View :=
  view_of <$> store w !! m.

Record Inv (w : World E) : Prop := mkInv {
  (** every entry maps its key to an existing window with that title,
      wired by [createModal] *)
  inv_entry : forall k m, (k, m) ∈ modals (manager w) ->
    exists v, viewAt w m = Some v /\ v_title v = k /\
              v_min v = Some ModalWindow.ManagerOnMinimize /\
              v_res v = Some ModalWindow.ManagerOnRestore;
  (** keys are unique *)
  inv_keys : NoDup (fst <$> modals (manager w));
  (** the recorded active window carries the active flag *)
  inv_recorded : forall m, activeModal (manager w) = Some m ->
    exists v, viewAt w m = Some v /\ v_active v = Some true;
  (** a registered window that carries the flag is the recorded one *)
  inv_flagged : forall k m v, (k, m) ∈ modals (manager w) ->
    viewAt w m = Some v -> v_active v = Some true ->
    activeModal (manager w) = Some m;
  (** the counter bounds the z-index of every registered window *)
  inv_z : forall k m v, (k, m) ∈ modals (manager w) ->
    viewAt w m = Some v -> (v_z v <= nextZIndex (manager w))%Z;
  inv_base : (100 <= nextZIndex (manager w))%Z
}.

(** [w'] has the registry and the views of [w]. *)
Definition same_registry (w w' : World E) : Prop :=
  manager w' = manager w /\ length (store w') = length (store w) /\
  forall i, viewAt w' i = viewAt w i.

(** The z-index [bringModalToFront] assigns in state [w]. *)
Definition focusZ (w : World E) : Z :=
  Z.max (nextZIndex (manager w) + 1) 100.

(** The callback of the loop of [resetModalZIndexes], on the pair of
    the world and the local counter [zIndex]. *)
Definition resetStep (modal : Ref) (s : World E * Z) : World E * Z :=
  (update modal (ModalWindow.setZIndex (snd s)) (fst s), (snd s + 1)%Z).

(** Every event of the list names an existing window when it
    occurs. *)
Fixpoint ops_ok (ops : list (Op E)) (w : World E) : Prop :=
  match ops with
  | [] => True
  | o :: ops => op_ok o w /\ ops_ok ops (step o w)
  end.

#[global] Instance registered_dec (m : Ref) (w : World E) :
  Decision (registered m w).
Proof. unfold registered. apply _. Defined.

End Invariant.

End ModalManager.

(* ================================================================== *)
(** * utils.ts: DOMUtils.getModalIcon and the DOM queries *)
(* ================================================================== *)

Module DOMQuery.

(** MODAL_ICONS (constants.ts), in the order of [Object.entries]. *)
Definition MODAL_ICONS : list (string * string) :=
  [ ("hello", "👋"); ("small", "🔹"); ("large", "🔷");
    ("new", "✨"); ("settings", "⚙️"); ("file", "📁");
    ("terminal", "💻"); ("calculator", "🧮"); ("text", "📝");
    ("editor", "📝"); ("default", "□") ].

Definition MODAL_ICONS_default : string := "□".

Definition getModalIcon (title : string) : string :=
  let lowerTitle := JS.toLowerCase title in
  match List.find (fun e => JS.includes lowerTitle (fst e)) MODAL_ICONS with
  | Some e => snd e
  | None => MODAL_ICONS_default
  end.

(** [getAllModals]: the elements with a [data-dialog-title] inside the
    content area, in document order; every such element belongs to a
    window of the store, attached in creation order. *)
Definition getAllModals (store : list ModalWindow.t) : list ModalManager.Ref :=
  List.filter
    (fun i => match store !! i with
              | Some m => ModalWindow.parentNode (ModalWindow.element m)
              | None => false
              end)
    (seq 0 (length store)).

(** [getModalByTitle]: the first of them with the given title. *)
Definition getModalByTitle (title : string) (store : list ModalWindow.t)
    : option ModalManager.Ref :=
  List.find
    (fun i => match store !! i with
              | Some m => String.eqb
                            (ModalWindow.data_dialog_title (ModalWindow.element m))
                            title
              | None => false
              end)
    (getAllModals store).

End DOMQuery.

(* ================================================================== *)
(** * titleBar.ts *)
(* ================================================================== *)

Module TitleBarManager.

Record t := mk {
  activeModalTitle : string;
  brandingElement_textContent : string
}.

Definition create : t :=
  {| activeModalTitle := ""; brandingElement_textContent := "Robot Code+" |}.

(** [modalTitle || 'Robot Code+']. *)
Definition updateActiveModal (modalTitle : string) (tb : t) : t :=
  {| activeModalTitle := modalTitle;
     brandingElement_textContent :=
       if String.eqb modalTitle "" then "Robot Code+" else modalTitle |}.

Definition resetToDefaultBranding (tb : t) : t :=
  {| activeModalTitle := ""; brandingElement_textContent := "Robot Code+" |}.

(** [minimizeModalToDock], up to the start of the animation. The
    ['modalMinimized'] event it dispatches has no listener in the
    sources, so dispatching it changes nothing. *)
Definition minimizeModalToDock (m : ModalWindow.t) : ModalWindow.t :=
  ModalWindow.with_element
    (fun e => ModalWindow.set_opacity (Some 0%Q)
                (ModalWindow.set_transform "scale(0.1) translateY(50vh)"
                   (ModalWindow.set_transition "all 300ms ease"
                      (ModalWindow.set_data_active false e)))) m.

(** The end of that animation: the timer of [DOMUtils.animate] clears
    the transition, then the [then] callback hides the element. *)
Definition minimizeModalToDock_then (m : ModalWindow.t) : ModalWindow.t :=
  ModalWindow.with_element
    (fun e => ModalWindow.set_opacity None
                (ModalWindow.set_transform ""
                   (ModalWindow.set_display ModalWindow.DisplayNone
                      (ModalWindow.set_transition "" e)))) m.

(** [minimizeAllModals] (the handler of the application icon), on the
    elements of the content area. *)
Definition minimizeAllModals (store : list ModalWindow.t) (tb : t)
    : list ModalWindow.t * t :=
  (fold_left (fun st i => alter minimizeModalToDock i st)
     (DOMQuery.getAllModals store) store,
   {| activeModalTitle := "";
      brandingElement_textContent := brandingElement_textContent tb |}).

(** The animations started by [minimizeAllModals] have all ended. *)
Definition minimizeAllModals_then (targets : list ModalManager.Ref)
    (store : list ModalWindow.t) : list ModalWindow.t :=
  fold_left (fun st i => alter minimizeModalToDock_then i st) targets store.

End TitleBarManager.

(* ================================================================== *)
(** * customUIManager.ts *)
(* ================================================================== *)

Module CustomUIManager.

(** The collaborators the registry's callbacks act on. *)
Record Collaborators := mkCollaborators {
  titleBarManager : TitleBarManager.t;
  dock : Dock.t
}.

Record t := mk {
  world : ModalManager.World Collaborators;
  launchpad : Launchpad.t
}.

Definition with_titleBar (f : TitleBarManager.t -> TitleBarManager.t)
    (c : Collaborators) : Collaborators :=
  mkCollaborators (f (titleBarManager c)) (dock c).

Definition with_dock (f : Dock.t -> Dock.t) (c : Collaborators)
    : Collaborators :=
  mkCollaborators (titleBarManager c) (f (dock c)).

Definition with_world
    (f : ModalManager.World Collaborators -> ModalManager.World Collaborators)
    (ui : t) : t :=
  mk (f (world ui)) (launchpad ui).

Definition getModalIcon (title : string) : string :=
  DOMQuery.getModalIcon title.

(** The constructor. *)
Definition create : t :=
  {| world := ModalManager.init
                {| titleBarManager := TitleBarManager.create;
                   dock := Dock.create |};
     launchpad := Launchpad.create |}.

(** [setupEventHandlers]: the four callbacks given to the registry. *)
Definition setupEventHandlers (ui : t) : t :=
  with_world
    (fun w =>
       ModalManager.onModalClosed
         (fun title => with_dock (Dock.removeModal title))
         (ModalManager.onModalRestoredFromDock
            (fun title => with_dock (Dock.removeModal title))
            (ModalManager.onModalMinimized
               (fun title =>
                  with_dock (Dock.addMinimizedModal title (getModalIcon title)))
               (ModalManager.onModalSelected
                  (fun modalTitle =>
                     with_titleBar (TitleBarManager.updateActiveModal modalTitle))
                  w))))
    ui.

(** [initialize]. *)
Definition initialize : t := setupEventHandlers create.

(** [createModalFromDefinition]: random placement, creation by the
    registry, then the element is appended to the content area. *)
Definition createModalFromDefinition (h : DOMUtils.Host)
    (modalDef : Launchpad.ModalDefinition) (ui : t) : t :=
  let position :=
    DOMUtils.calculateRandomModalPosition h
      (Launchpad.width modalDef) (Launchpad.height modalDef) in
  with_world
    (fun w =>
       let '(w, modal) :=
         ModalManager.createModal (Launchpad.title modalDef)
           (Launchpad.width modalDef) (Launchpad.height modalDef)
           (DOMUtils.left position) (DOMUtils.top position)
           (Launchpad.titleBarColor modalDef) w in
       ModalManager.update modal
         (ModalWindow.with_element (ModalWindow.set_parentNode true)) w)
    ui.

(** The click on a launchpad icon: the launch callback, then [hide]. *)
Definition launchpadIconClick (h : DOMUtils.Host)
    (modalDef : Launchpad.ModalDefinition) (ui : t) : t :=
  let ui := createModalFromDefinition h modalDef ui in
  mk (world ui) (Launchpad.hide (launchpad ui)).

(** [handleMenuAction]. *)
Definition handleMenuAction (action : string) (ui : t) : t :=
  if String.eqb action "New Window" then
    mk (world ui) (Launchpad.show (launchpad ui))
  else if String.eqb action "Close Window" then
    with_world ModalManager.closeActiveModal ui
  else if String.eqb action "Minimize All" then
    with_world ModalManager.minimizeAllModals ui
  else if String.eqb action "Restore All" then
    with_world ModalManager.restoreAllModals ui
  else if String.eqb action "Bring All to Front" then
    with_world ModalManager.resetModalZIndexes ui
  else if String.eqb action "Close All" then
    with_world ModalManager.closeAllModals ui
  else ui.

(** The click on a dock item: [restoreModalByTitle]. *)
Definition dockItemClick (title : string) (ui : t) : t :=
  with_world (ModalManager.restoreModalByTitle title) ui.

(** The minimize button of a window. *)
Definition minimizeButtonClick (modal : ModalManager.Ref) (ui : t) : t :=
  with_world (ModalManager.minimize modal) ui.

(** The click on the application icon of the title bar:
    [TitleBarManager.minimizeAllModals], [resetToDefaultBranding], then
    the ['brandingReset'] event, whose listener is [clearActiveModal]. *)
Definition appIconClick (ui : t) : t :=
  with_world
    (fun w =>
       let '(st, tb) :=
         TitleBarManager.minimizeAllModals (ModalManager.store w)
           (titleBarManager (ModalManager.env w)) in
       let w := ModalManager.with_store (fun _ => st) w in
       let w := ModalManager.with_env
                  (with_titleBar
                     (fun _ => TitleBarManager.resetToDefaultBranding tb)) w in
       ModalManager.clearActiveModal w)
    ui.

(** The animations started by that click have ended, for the windows
    [targets] it animated. *)
Definition appIconClick_then (targets : list ModalManager.Ref) (ui : t) : t :=
  with_world
    (ModalManager.with_store (TitleBarManager.minimizeAllModals_then targets))
    ui.

(** The titles of the registered windows whose [isMinimized] flag is
    set. *)
Definition minimizedTitles (ui : t) : gset string :=
  list_to_set
    (omap (fun e : string * ModalManager.Ref =>
             match ModalManager.store (world ui) !! snd e with
             | Some m => if ModalWindow.isModalMinimized m
                         then Some (fst e) else None
             | None => None
             end)
       (ModalManager.modals (ModalManager.manager (world ui)))).

(** The titles of the windows of the content area that are hidden
    ([display: none]), which is what the tab strip shows as minimized. *)
Definition hiddenTitles (ui : t) : gset string :=
  list_to_set
    (omap (fun i =>
             match ModalManager.store (world ui) !! i with
             | Some m =>
                 match ModalWindow.style_display (ModalWindow.element m) with
                 | ModalWindow.DisplayNone => Some (ModalWindow.title m)
                 | _ => None
                 end
             | None => None
             end)
       (DOMQuery.getAllModals (ModalManager.store (world ui)))).

Definition dockEntries (ui : t) : gset string :=
  Dock.entries (dock (ModalManager.env (world ui))).

End CustomUIManager.

(* ================================================================== *)
(** * Scenarios *)
(* ================================================================== *)

Module Scenarios.

Import ModalManager.

(** Scenario A of the specification: "Alpha" then "Beta" are created. *)
Definition scenarioA : World unit :=
  run [OpCreateModal "Alpha" 600 400 100 100 "#007acc";
       OpCreateModal "Beta" 400 300 200 200 "#8e44ad"] (init tt).

(** The same, after the menu action "Bring All to Front"
    ([resetModalZIndexes]). *)
Definition scenarioReset : World unit :=
  run [OpResetModalZIndexes] scenarioA.


(** A registry whose restore-from-dock callback appends the title it
    receives to a log; "Alpha" is created and minimized. *)
Definition scenarioRestore : World (list string) :=
  run [OpOnModalRestoredFromDock (fun title log => log ++ [title]);
       OpCreateModal "Alpha" 600 400 100 100 "#007acc";
       OpMinimize 0] (init []).

(** A viewport of 1000 x 800 in which both random draws are 7/8. *)
Definition host_1000_800 : DOMUtils.Host :=
  {| DOMUtils.innerWidth := 1000; DOMUtils.innerHeight := 800;
     DOMUtils.random1 := 7 # 8; DOMUtils.random2 := 7 # 8 |}.

(** The first definition of the catalog, "HELLO Dialog", 600 x 400. *)
Definition helloDialog : Launchpad.ModalDefinition :=
  List.nth 0 Launchpad.catalog (Launchpad.mkDef "" 0 0 "" "").

(** The user interface after "HELLO Dialog" is selected in the launcher
    in that viewport. *)
Definition uiHello : CustomUIManager.t :=
  CustomUIManager.launchpadIconClick host_1000_800 helloDialog
    CustomUIManager.initialize.

(** The user interface after one launch of "Settings" from the
    launchpad in that viewport. *)
Definition uiOneWindow : CustomUIManager.t :=
  CustomUIManager.createModalFromDefinition host_1000_800
    (Launchpad.mkDef "Settings" 500 400 "#95a5a6" "âš™ï¸")
    CustomUIManager.initialize.

(** The same, after a click on the application icon of the title bar
    and the end of the animations it starts. *)
Definition uiAfterAppIcon : CustomUIManager.t :=
  CustomUIManager.appIconClick_then
    (DOMQuery.getAllModals (store (CustomUIManager.world uiOneWindow)))
    (CustomUIManager.appIconClick uiOneWindow).

(** The same, after the menu action "Minimize All" instead. *)
Definition uiAfterMenuMinimizeAll : CustomUIManager.t :=
  CustomUIManager.handleMenuAction "Minimize All" uiOneWindow.

End Scenarios.

(* ================================================================== *)
(** * modalWindow.ts: makeDraggable *)
(* ================================================================== *)

Module Draggable.

Local Open Scope Q_scope.

(** The variables the closures of [makeDraggable] share, and whether
    [onMouseMove] and [onMouseUp] are attached to the document. *)
Record t := mk {
  isDragging : bool;
  startX : Q;
  startY : Q;
  startLeft : Q;
  startTop : Q;
  listening : bool
}.

(** State when [makeDraggable] returns. *)
Definition makeDraggable : t :=
  {| isDragging := false; startX := 0; startY := 0;
     startLeft := 0; startTop := 0; listening := false |}.

(** The events the three listeners receive: [mousedown] on the title
    bar ([onButton]: the target is a BUTTON; [rect]: what
    [getBoundingClientRect()] returns), [mousemove] and [mouseup]
    anywhere in the document. *)
Inductive Event :=
| MouseDown (onButton : bool) (clientX clientY : Q) (rect : ModalWindow.Rect)
| MouseMove (clientX clientY : Q)
| MouseUp.

Definition onMouseDown (onButton : bool) (clientX clientY : Q)
    (rect : ModalWindow.Rect) (d : t) : t :=
  if onButton then d
  else {| isDragging := true; startX := clientX; startY := clientY;
          startLeft := ModalWindow.rect_left rect;
          startTop := ModalWindow.rect_top rect;
          listening := true |}.

(** [dialog.style.left] and [dialog.style.top] are written, nothing
    else. *)
Definition set_position (l tp : ModalWindow.CssLength)
    (e : ModalWindow.Element) : ModalWindow.Element :=
  ModalWindow.set_geometry (ModalWindow.style_width e)
    (ModalWindow.style_height e) l tp e.

Definition onMouseMove (clientX clientY : Q) (d : t) (m : ModalWindow.t)
    : ModalWindow.t :=
  if negb (isDragging d) then m
  else
    let deltaX := clientX - startX d in
    let deltaY := clientY - startY d in
    ModalWindow.with_element
      (set_position (ModalWindow.Px (startLeft d + deltaX))
                    (ModalWindow.Px (startTop d + deltaY))) m.

Definition onMouseUp (d : t) : t :=
  {| isDragging := false; startX := startX d; startY := startY d;
     startLeft := startLeft d; startTop := startTop d;
     listening := false |}.

(** The browser delivers an event to the listeners attached at the
    time. *)
Definition dispatch (s : t * ModalWindow.t) (ev : Event) : t * ModalWindow.t :=
  let '(d, m) := s in
  match ev with
  | MouseDown onButton x y rect => (onMouseDown onButton x y rect d, m)
  | MouseMove x y => if listening d then (d, onMouseMove x y d m) else s
  | MouseUp => if listening d then (onMouseUp d, m) else s
  end.

Definition run (evs : list Event) (s : t * ModalWindow.t) : t * ModalWindow.t :=
  fold_left dispatch evs s.

(** The position written in the style. *)
Definition position (m : ModalWindow.t)
    : ModalWindow.CssLength * ModalWindow.CssLength :=
  (ModalWindow.style_left (ModalWindow.element m),
   ModalWindow.style_top (ModalWindow.element m)).

(** [m'] is [m] up to the position of its element. *)
Definition moved (m m' : ModalWindow.t) : Prop :=
  m' = ModalWindow.with_element
         (set_position (fst (position m')) (snd (position m'))) m.

(** Events that start no drag: moves, releases, and presses on the
    buttons of the title bar. *)
Definition idle (ev : Event) : Prop :=
  match ev with
  | MouseDown onButton _ _ _ => onButton = true
  | _ => True
  end.

End Draggable.

(* ================================================================== *)
(** * modalManager.ts: what the loops write into a window *)
(* ================================================================== *)

Module Focus.

(** What [bringModalToFront] does to the window it focuses, given the
    z-index it assigns. *)
Definition focused (z : Z) (o : ModalWindow.t) : ModalWindow.t :=
  ModalWindow.setActive true
    (ModalWindow.setOpacity 1 (ModalWindow.setZIndex z o)).

(** What the loops of [bringModalToFront] (opacity 0.9) and
    [clearActiveModal] (opacity 0.8) do to a window. *)
Definition dimmed (q : Q) (o : ModalWindow.t) : ModalWindow.t :=
  ModalWindow.setActive false (ModalWindow.setOpacity q o).

(** A reading of a window that the three setters used by the registry
    do not change. *)
Definition style_blind {A : Type} (rd : ModalWindow.t -> A) : Prop :=
  (forall z o, rd (ModalWindow.setZIndex z o) = rd o) /\
  (forall q o, rd (ModalWindow.setOpacity q o) = rd o) /\
  (forall b o, rd (ModalWindow.setActive b o) = rd o).

End Focus.

(* ================================================================== *)
(** * modalManager.ts: the timer of [closeModal], step by step *)
(* ================================================================== *)

Module Close.

Import ModalManager.

Section Close.

Context {E : Type}.

(** [element.parentNode.removeChild(element)]. *)
Definition detach : ModalWindow.t -> ModalWindow.t :=
  ModalWindow.with_element (ModalWindow.set_parentNode false).

(** The state after the element is removed and the entry of the title
    deleted. *)
Definition removed (modal : Ref) (w : World E) : World E :=
  with_manager
    (set_modals (map_delete (getTitle modal w) (modals (manager w))))
    (update modal detach w).

(** All pending timers fire, oldest first. *)
Definition drain (w : World E) : World E :=
  Nat.iter (length (timers w)) tick w.

End Close.

End Close.

(* ================================================================== *)
(** * More scenarios *)
(* ================================================================== *)

Module Scenarios2.

Import ModalManager.

(** One window, "Alpha". *)
Definition scenarioOne : World unit :=
  run [OpCreateModal "Alpha" 600 400 100 100 "#007acc"] (init tt).

End Scenarios2.

(* ================================================================== *)
(** * modalManager.ts: the stacking order *)
(* ================================================================== *)

Module Stacking.

Import ModalManager.

Section Stacking.

Context {E : Type}.

(** The counter is at least the base level and bounds the z-index of
    every registered window, and no two registered windows share a
    z-index. *)
Record Stack (w : World E) : Prop := mkStack {
  stack_base : (100 <= nextZIndex (manager w))%Z;
  stack_bound : forall m, registered m w ->
    exists v, viewAt w m = Some v /\ (v_z v <= nextZIndex (manager w))%Z;
  stack_distinct : forall m1 m2, registered m1 w -> registered m2 w ->
    m1 <> m2 -> zIndexOf m1 w <> zIndexOf m2 w
}.

End Stacking.

End Stacking.

(* ================================================================== *)
(** * customUIManager.ts: the events of the user interface *)
(* ================================================================== *)

Module UIEvents.

Import ModalManager CustomUIManager.

(** The four callbacks [setupEventHandlers] gives to the registry. *)
Definition selected : Listener (E := Collaborators) :=
  fun modalTitle => with_titleBar (TitleBarManager.updateActiveModal modalTitle).

Definition minimized : Listener (E := Collaborators) :=
  fun title => with_dock (Dock.addMinimizedModal title (getModalIcon title)).

Definition restoredFromDock : Listener (E := Collaborators) :=
  fun title => with_dock (Dock.removeModal title).

Definition closed : Listener (E := Collaborators) :=
  fun title => with_dock (Dock.removeModal title).

(** The registry holds exactly these callbacks. *)
Definition wired (w : World Collaborators) : Prop :=
  modalSelectionCallback (manager w) = Some selected /\
  minimizeCallback (manager w) = Some minimized /\
  restoreFromDockCallback (manager w) = Some restoredFromDock /\
  closeCallback (manager w) = Some closed.

(** The events that reach the registry through its own methods: the
    launchpad, the listeners [createModal] attaches to a window, the
    buttons and handles of a window, the timers, the dock, the menu and
    the background. A click on the close button dispatches
    ['modalClose'], which the listener of the element and, as the event
    bubbles, the listener of the main container both answer with
    [closeModal]. *)
Inductive Event :=
| Launch (h : DOMUtils.Host) (modalDef : Launchpad.ModalDefinition)
| MouseDown (modal : Ref)
| MinimizeButton (modal : Ref)
| MaximizeButton (modal : Ref) (rect : ModalWindow.Rect)
| CloseButton (modal : Ref)
| Resize (modal : Ref) (g : ModalWindow.Gesture)
| Drag (modal : Ref) (d : Draggable.t) (evs : list Draggable.Event)
| TimerFires (i : nat)
| DockItemClick (title : string)
| MenuAction (action : string)
| BackgroundClick
| SearchInput (text : string)
| ToggleLaunchpad.

(** The handler of the background click: [resetToDefaultBranding],
    then [clearActiveModal]. *)
Definition backgroundClick (ui : t) : t :=
  with_world
    (fun w =>
       clearActiveModal
         (with_env (with_titleBar TitleBarManager.resetToDefaultBranding) w))
    ui.

Definition closeButtonClick (modal : Ref) (ui : t) : t :=
  with_world (fun w => closeModal modal (closeModal modal w)) ui.

Definition handle (ev : Event) (ui : t) : t :=
  match ev with
  | Launch h modalDef => launchpadIconClick h modalDef ui
  | MouseDown modal => with_world (bringModalToFront modal) ui
  | MinimizeButton modal => minimizeButtonClick modal ui
  | MaximizeButton modal rect =>
      with_world (update modal (ModalWindow.toggleMaximize rect)) ui
  | CloseButton modal => closeButtonClick modal ui
  | Resize modal g =>
      with_world (update modal (fun m => ModalWindow.runGesture m g)) ui
  | Drag modal d evs =>
      with_world (update modal (fun m => snd (Draggable.run evs (d, m)))) ui
  | TimerFires i => with_world (fireTimer i) ui
  | DockItemClick title => dockItemClick title ui
  | MenuAction action => handleMenuAction action ui
  | BackgroundClick => backgroundClick ui
  | SearchInput text => mk (world ui) (Launchpad.onSearchInput text (launchpad ui))
  | ToggleLaunchpad => mk (world ui) (Launchpad.toggle (launchpad ui))
  end.

(** The element of the window is in the content area. *)
Definition attached (modal : Ref) (w : World Collaborators) : Prop :=
  exists o, store w !! modal = Some o /\
            ModalWindow.parentNode (ModalWindow.element o) = true.

(** When an event can occur: a window receives pointer events only
    while its element is in the document; the launchpad item of a title
    is used only when no window of that title is registered or still
    closing. *)
Definition enabled (ev : Event) (ui : t) : Prop :=
  match ev with
  | Launch _ modalDef =>
      (Launchpad.title modalDef ∉ (modals (manager (world ui))).*1) /\
      (forall m, CloseTimeout m ∈ timers (world ui) ->
                 getTitle m (world ui) <> Launchpad.title modalDef)
  | MouseDown modal | MinimizeButton modal | MaximizeButton modal _
  | CloseButton modal | Resize modal _ | Drag modal _ _ =>
      attached modal (world ui)
  | _ => True
  end.

Inductive reachable : t -> Prop :=
| reachable_initialize : reachable initialize
| reachable_handle (ev : Event) (ui : t) :
    reachable ui -> enabled ev ui -> reachable (handle ev ui).

(** What the wiring of a window consists of: its title, the two
    closures [createModal] installs, and whether its element is in the
    content area. *)
Record Shape := mkShape {
  s_title : string;
  s_min : option ModalWindow.Callback;
  s_res : option ModalWindow.Callback;
  s_attached : bool
}.

Definition shape_of (o : ModalWindow.t) : Shape :=
  {| s_title := ModalWindow.title o;
     s_min := ModalWindow.minimizeCallback o;
     s_res := ModalWindow.restoreCallback o;
     s_attached := ModalWindow.parentNode (ModalWindow.element o) |}.

Definition shapeAt (w : World Collaborators) (i : nat) : option Shape :=
  shape_of <$> store w !! i.

Definition set_attached (b : bool) (s : Shape) : Shape :=
  mkShape (s_title s) (s_min s) (s_res s) b.

(** [isModalMinimized()] of the window behind a reference. *)
Definition minimizedAt (w : World Collaborators) (i : nat) : bool :=
  default false (ModalWindow.isModalMinimized <$> store w !! i).

(** The titles in the dock. *)
Definition dk (w : World Collaborators) : gset string :=
  Dock.entries (dock (env w)).

(** The wiring these events maintain: the registered windows are the
    windows in the content area, each under its own title; a pending
    close timer belongs to such a window or to a title that is no
    longer registered; the recorded active window is in the content
    area. *)
Record Wf (w : World Collaborators) : Prop := mkWf {
  wf_wired : wired w;
  wf_entry : forall k m, (k, m) ∈ modals (manager w) ->
    exists s, shapeAt w m = Some s /\ s_title s = k /\ s_attached s = true;
  wf_keys : NoDup (modals (manager w)).*1;
  wf_attached : forall i s, shapeAt w i = Some s -> s_attached s = true ->
    (s_title s, i) ∈ modals (manager w) /\
    s_min s = Some ModalWindow.ManagerOnMinimize /\
    s_res s = Some ModalWindow.ManagerOnRestore;
  wf_timers : forall m, CloseTimeout m ∈ timers w ->
    exists s, shapeAt w m = Some s /\
              (s_attached s = true \/ s_title s ∉ (modals (manager w)).*1);
  wf_active : forall m, activeModal (manager w) = Some m ->
    exists s, shapeAt w m = Some s /\ s_attached s = true
}.

(** The dock shows the titles of the registered windows that are
    minimized. *)
Record Sync (w : World Collaborators) : Prop := mkSync {
  sync_wf : Wf w;
  sync_dock : forall k, k ∈ dk w <->
    exists m, (k, m) ∈ modals (manager w) /\ minimizedAt w m = true
}.

End UIEvents.

(* ================================================================== *)
(** * Scenarios of the user interface *)
(* ================================================================== *)

Module Scenarios3.

Import CustomUIManager UIEvents Scenarios.

(** "HELLO Dialog" is launched, then minimized with its button. *)
Definition uiMinimized : CustomUIManager.t :=
  handle (MinimizeButton 0)
    (handle (Launch host_1000_800 helloDialog) initialize).

End Scenarios3.

(* ================================================================== *)
(** * titleBar.ts: the tabs *)
(* ================================================================== *)

Module TitleBarTabs.

Import ModalManager CustomUIManager.

(** [restoreModalFromDock]: the handler of the tab of a hidden window,
    up to the start of the animation. The ['modalRestored'] event it
    dispatches has no listener in the sources. *)
Definition restoreModalFromDock (modalTitle : string)
    (store : list ModalWindow.t) : list ModalWindow.t :=
  match DOMQuery.getModalByTitle modalTitle store with
  | Some targetModal =>
      match store !! targetModal with
      | Some m =>
          match ModalWindow.style_display (ModalWindow.element m) with
          | ModalWindow.DisplayNone =>
              alter
                (ModalWindow.with_element
                   (fun e =>
                      ModalWindow.set_opacity (Some 1%Q)
                        (ModalWindow.set_transform "scale(1) translateY(0)"
                           (ModalWindow.set_transition "all 300ms ease"
                              (ModalWindow.set_opacity (Some 0%Q)
                                 (ModalWindow.set_transform
                                    "scale(0.1) translateY(50vh)"
                                    (ModalWindow.set_display
                                       ModalWindow.DisplayBlock e)))))))
                targetModal store
          | _ => store
          end
      | None => store
      end
  | None => store
  end.

(** The end of that animation on the element [targetModal]: the timer
    of [DOMUtils.animate] clears the transition, then the [then]
    callback clears transform and opacity and sets [data-active]. *)
Definition restoreModalFromDock_then (targetModal : Ref)
    (store : list ModalWindow.t) : list ModalWindow.t :=
  alter
    (ModalWindow.with_element
       (fun e =>
          ModalWindow.set_data_active true
            (ModalWindow.set_opacity None
               (ModalWindow.set_transform ""
                  (ModalWindow.set_transition "" e)))))
    targetModal store.

(** A click on the tab of a hidden window, and the end of the animation
    it starts, in which the title bar also records the title. *)
Definition tabClick (title : string) (ui : t) : t :=
  with_world (with_store (restoreModalFromDock title)) ui.

Definition tabClick_then (title : string) (targetModal : Ref) (ui : t) : t :=
  with_world
    (fun w =>
       with_env (with_titleBar (TitleBarManager.updateActiveModal title))
         (with_store (restoreModalFromDock_then targetModal) w))
    ui.

End TitleBarTabs.

(* ================================================================== *)
(** * customUIManager.ts before the refactoring (part_001) *)
(* ================================================================== *)

Module CustomUIManagerInline.

(** [getModalIcon] as the chain of tests the class had before
    [DOMUtils.getModalIcon] replaced it. *)
Definition getModalIcon (title : string) : string :=
  if JS.includes (JS.toLowerCase title) "hello" then "👋"
  else if JS.includes (JS.toLowerCase title) "small" then "🔹"
  else if JS.includes (JS.toLowerCase title) "large" then "🔷"
  else if JS.includes (JS.toLowerCase title) "new" then "✨"
  else if JS.includes (JS.toLowerCase title) "settings" then "⚙️"
  else if JS.includes (JS.toLowerCase title) "file" then "📁"
  else if JS.includes (JS.toLowerCase title) "terminal" then "💻"
  else if JS.includes (JS.toLowerCase title) "calculator" then "🧮"
  else if JS.includes (JS.toLowerCase title) "text"
          || JS.includes (JS.toLowerCase title) "editor" then "📝"
  else "□".

End CustomUIManagerInline.

(* ================================================================== *)
(** * utils.ts: EventUtils.debounce and EventUtils.throttle *)
(* ================================================================== *)

Module EventUtils.

Section Wrappers.

(** The wrapped function acts on some state [Env] and takes arguments
    [Args]. *)
Context {Args Env : Type} (func : Args -> Env -> Env).

(** What happens to a wrapper: it is called, or a timer it set
    fires. *)
Inductive Event := Call (args : Args) | Timeout.

(** [debounce]: the closure keeps [timeoutId]; here the pending timer,
    if any, with the arguments its body will pass. *)
Definition Debounced : Type := option Args.

Definition debounce : Debounced := None.

(** A call clears the pending timer and sets a new one; the timer
    applies [func]. *)
Definition debounced (s : Debounced * Env) (ev : Event) : Debounced * Env :=
  match ev with
  | Call args => (Some args, snd s)
  | Timeout =>
      match fst s with
      | Some args => (None, func args (snd s))
      | None => s
      end
  end.

(** [throttle]: the closure keeps [inThrottle]; [resets] counts the
    pending timers that will clear it. *)
Record Throttled := mkThrottled { inThrottle : bool; resets : nat }.

Definition throttle : Throttled := {| inThrottle := false; resets := 0 |}.

Definition throttled (s : Throttled * Env) (ev : Event) : Throttled * Env :=
  match ev with
  | Call args =>
      if negb (inThrottle (fst s)) then
        ({| inThrottle := true; resets := S (resets (fst s)) |},
         func args (snd s))
      else s
  | Timeout =>
      match resets (fst s) with
      | O => s
      | S n => ({| inThrottle := false; resets := n |}, snd s)
      end
  end.

End Wrappers.

End EventUtils.

(* ================================================================== *)
(** * customUIManager.ts: the Meta key and F4 *)
(* ================================================================== *)

Module MetaKey.

(** The two variables of [setupEventHandlers] ([metaKeyTimeout] as
    whether its timer is pending) and the launchpad. The listener
    installed on Windows platforms only is not part of this. *)
Record t := mk {
  metaKeyPressed : bool;
  metaKeyTimeout : bool;
  launchpad : Launchpad.t
}.

Definition create (lp : Launchpad.t) : t :=
  {| metaKeyPressed := false; metaKeyTimeout := false; launchpad := lp |}.

Inductive Event :=
| KeyDown (key : string)
| KeyUp (key : string)
| DwellTimeout.

Definition isMeta (key : string) : bool :=
  String.eqb key "Meta" || String.eqb key "Cmd".

(** The [keydown] listener of the launchpad: Escape hides it. *)
Definition launchpadKeyDown (key : string) (lp : Launchpad.t) : Launchpad.t :=
  if Launchpad.isVisible lp && String.eqb key "Escape" then Launchpad.hide lp
  else lp.

(** The [keydown] listener of [setupEventHandlers]. *)
Definition keyDown (key : string) (s : t) : t :=
  if String.eqb key "F4" then
    mk (metaKeyPressed s) (metaKeyTimeout s) (Launchpad.toggle (launchpad s))
  else if isMeta key then
    if negb (metaKeyPressed s) then mk true true (launchpad s) else s
  else if metaKeyPressed s then mk (metaKeyPressed s) false (launchpad s)
  else s.

Definition keyUp (key : string) (s : t) : t :=
  if isMeta key then mk false false (launchpad s) else s.

(** The body of the 200ms timer, when it is still pending. *)
Definition dwellTimeout (s : t) : t :=
  if metaKeyTimeout s then
    if metaKeyPressed s && negb (Launchpad.isVisible (launchpad s)) then
      mk (metaKeyPressed s) false (Launchpad.show (launchpad s))
    else mk (metaKeyPressed s) false (launchpad s)
  else s.

Definition step (s : t) (ev : Event) : t :=
  match ev with
  | KeyDown key =>
      let s := keyDown key s in
      mk (metaKeyPressed s) (metaKeyTimeout s)
         (launchpadKeyDown key (launchpad s))
  | KeyUp key => keyUp key s
  | DwellTimeout => dwellTimeout s
  end.

Definition run (evs : list Event) (s : t) : t := fold_left step evs s.

End MetaKey.

(* ================================================================== *)
(** * Verification *)
(* ================================================================== *)

(* ------------------------------------------------------------------ *)
(** ** JavaScript strings *)
(* ------------------------------------------------------------------ *)

Section JSFacts.
Import JS.

Lemma matchesAtStart_spec (p s : string) :
  matchesAtStart p s = true <-> exists b, s = (p +:+ b)%string.
Proof.
  revert s. induction p as [|c p IH]; intros s; simpl.
  - split; [intros _; by exists s | done].
  - destruct s as [|d s].
    + split; [done | intros [b Hb]; discriminate].
    + rewrite andb_true_iff, Ascii.eqb_eq, IH. split.
      * intros [-> [b ->]]. by exists b.
      * intros [b Hb]. inversion Hb; subst. split; [done | by exists b].
Qed.

Lemma includes_spec (s pat : string) :
  includes s pat = true <-> occurs_in pat s.
Proof.
  unfold occurs_in. induction s as [|c s IH].
  - cbn [includes]. rewrite orb_false_r, matchesAtStart_spec. split.
    + intros [b Hb]. by exists ""%string, b.
    + intros ([|x a] & b & H); [by exists b | discriminate].
  - cbn [includes]. rewrite orb_true_iff, matchesAtStart_spec, IH. split.
    + intros [[b Hb] | (a & b & Hab)].
      * by exists ""%string, b.
      * exists (String c a), b. simpl. by rewrite Hab.
    + intros ([|x a] & b & H).
      * left. by exists b.
      * right. exists a, b. simpl in H. by inversion H.
Qed.

Lemma includes_empty (s : string) : includes s "" = true.
Proof. destruct s; reflexivity. Qed.

Lemma isWhiteSpace_toLowerChar (c : ascii) :
  isWhiteSpace (toLowerChar c) = isWhiteSpace c.
Proof.
  destruct c as [[] [] [] [] [] [] [] []]; reflexivity.
Qed.

Lemma toLowerCase_trimStart (s : string) :
  trimStart (toLowerCase s) = toLowerCase (trimStart s).
Proof.
  induction s as [|c s IH]; [done|].
  cbn [toLowerCase trimStart]. rewrite isWhiteSpace_toLowerChar.
  by destruct (isWhiteSpace c).
Qed.

Lemma toLowerCase_trimEnd (s : string) :
  trimEnd (toLowerCase s) = toLowerCase (trimEnd s).
Proof.
  induction s as [|c s IH]; [done|].
  cbn [toLowerCase trimEnd]. rewrite IH, isWhiteSpace_toLowerChar.
  destruct (trimEnd s); cbn [toLowerCase]; [by destruct (isWhiteSpace c) | done].
Qed.

Lemma toLowerCase_trim (s : string) :
  trim (toLowerCase s) = toLowerCase (trim s).
Proof. unfold trim. by rewrite toLowerCase_trimStart, toLowerCase_trimEnd. Qed.

End JSFacts.

(* ------------------------------------------------------------------ *)
(** ** Launchpad: the filtered view *)
(* ------------------------------------------------------------------ *)

Section LaunchpadFacts.
Import Launchpad.


Lemma view_filter (q : string) (lp : t) :
  view q lp =
  List.filter (fun d => contains_cib (JS.trim q) (title d)) (modalDefinitions lp).
Proof.
  unfold view, onSearchInput, filterModals, contains_cib. cbn.
  fold (JS.trim (JS.toLowerCase q)). rewrite <- toLowerCase_trim.
  destruct (String.eqb_spec (JS.trim (JS.toLowerCase q)) "") as [-> | _]; [|done].
  induction (modalDefinitions lp) as [|d l IH]; [done|].
  cbn [List.filter]. rewrite includes_empty. by rewrite <- IH.
Qed.

Lemma List_filter_sublist {A : Type} (p : A -> bool) (l : list A) :
  sublist (List.filter p l) l.
Proof.
  induction l as [|x l IH]; [constructor|].
  cbn [List.filter]. destruct (p x); by constructor.
Qed.



End LaunchpadFacts.

(* ------------------------------------------------------------------ *)
(** ** DOMUtils: random placement *)
(* ------------------------------------------------------------------ *)

Section PlacementFacts.
Import DOMUtils Scenarios.
Local Open Scope Q_scope.




(** C9: for the catalog definition "HELLO Dialog" (600 x 400) selected in
    a 1000 x 800 viewport with draws of 7/8, the bounds are maxLeft = 350
    and maxTop = 300, and the code places the window at left = 356.25 and
    top = 312.5, above both; the window the launcher creates has that
    position. *)
Theorem calculateRandomModalPosition_exceeds_max :
  let p := calculateRandomModalPosition host_1000_800
             (Launchpad.width helloDialog) (Launchpad.height helloDialog) in
  random_ok host_1000_800 /\
  maxLeft host_1000_800 (Launchpad.width helloDialog) == 350 /\
  maxTop host_1000_800 (Launchpad.height helloDialog) == 300 /\
  left p == 1425 # 4 /\
  top p == 625 # 2 /\
  ~ left p <= maxLeft host_1000_800 (Launchpad.width helloDialog) /\
  ~ top p <= maxTop host_1000_800 (Launchpad.height helloDialog) /\
  exists m, ModalManager.store (CustomUIManager.world uiHello) !! 0%nat = Some m /\
            ModalWindow.left m == left p /\ ModalWindow.top m == top p.
Proof.
  cbv zeta. unfold random_ok.
  split; [repeat split; vm_compute; congruence|].
  do 6 (split; [vm_compute; congruence|]).
  eexists. split; [vm_compute; reflexivity|]. split; reflexivity.
Qed.

End PlacementFacts.

(* ------------------------------------------------------------------ *)
(** ** ModalWindow: maximize and resize *)
(* ------------------------------------------------------------------ *)

Section WindowFacts.
Import ModalWindow.
Local Open Scope Q_scope.










End WindowFacts.

(* ------------------------------------------------------------------ *)
(** ** ModalManager: iteration over the live map *)
(* ------------------------------------------------------------------ *)

Section ForEachFacts.
Import ModalManager.

Context {S : Type} (live : S -> list (string * Ref)) (f : Ref -> S -> S).

(** The callback leaves the map as it is. *)
Hypothesis live_f : forall m s, live (f m s) = live s.

Lemma live_fold_left (refs : list Ref) (s : S) :
  live (fold_left (fun s m => f m s) refs s) = live s.
Proof using live_f.
  revert s. induction refs as [|m refs IH]; intros s; [done|].
  cbn [fold_left]. by rewrite IH, live_f.
Qed.

Lemma forEach_from_fold (fuel i : nat) (s : S) :
  length (live s) <= i + fuel ->
  forEach_from live fuel i f s =
  fold_left (fun s m => f m s) (map_values (drop i (live s))) s.
Proof using live_f.
  revert i s. induction fuel as [|fuel IH]; intros i s Hlen.
  - rewrite drop_ge by lia. reflexivity.
  - cbn [forEach_from]. destruct (live s !! i) as [e|] eqn:He.
    + rewrite (drop_S _ _ _ He). cbn [map_values fmap list_fmap fold_left].
      rewrite IH by (rewrite live_f; lia).
      by rewrite live_f.
    + apply lookup_ge_None in He. by rewrite drop_ge.
Qed.

(** Iterating the live map is iterating a snapshot of its values. *)
Lemma forEach_fold (s : S) :
  forEach live f s = fold_left (fun s m => f m s) (map_values (live s)) s.
Proof using live_f.
  unfold forEach. rewrite forEach_from_fold by lia. by rewrite drop_0.
Qed.

End ForEachFacts.

(* ------------------------------------------------------------------ *)
(** ** ModalManager: how each method changes the world *)
(* ------------------------------------------------------------------ *)

Section RegistryFacts.
Import ModalManager.
Context {E : Type}.
Implicit Types (w : World E) (m modal : Ref).

Lemma registered_entry m w :
  registered m w <-> exists k, (k, m) ∈ modals (manager w).
Proof.
  unfold registered, map_values. rewrite list_elem_of_fmap. split.
  - intros ([k m'] & -> & H). by exists k.
  - intros [k H]. by exists (k, m).
Qed.

Lemma active_view m w :
  active m w <-> exists v, viewAt w m = Some v /\ v_active v = Some true.
Proof.
  unfold active, viewAt. split.
  - intros (o & Ho & Ha). exists (view_of o). by rewrite Ho.
  - intros (v & Hv & Ha). destruct (store w !! m) as [o|]; [|done].
    exists o. split; [done|]. by inversion Hv; subst.
Qed.

Lemma zIndexOf_view m w v : viewAt w m = Some v -> zIndexOf m w = v_z v.
Proof.
  unfold viewAt, zIndexOf. destruct (store w !! m); [|done].
  by intros [= <-].
Qed.

Lemma zIndexOf_viewAt m w : zIndexOf m w = default 0%Z (v_z <$> viewAt w m).
Proof. unfold viewAt, zIndexOf. by destruct (store w !! m). Qed.

Lemma viewAt_allocated m w : is_Some (viewAt w m) <-> m < length (store w).
Proof. unfold viewAt. rewrite fmap_is_Some. apply lookup_lt_is_Some. Qed.

Lemma getTitle_view m w v : viewAt w m = Some v -> getTitle m w = v_title v.
Proof.
  unfold viewAt, getTitle. destruct (store w !! m); [|done].
  by intros [= <-].
Qed.

(** *** [update] *)

Lemma viewAt_update modal (f : ModalWindow.t -> ModalWindow.t)
    (vf : View -> View) w i :
  (forall o, view_of (f o) = vf (view_of o)) ->
  viewAt (update modal f w) i =
  if decide (i = modal) then vf <$> viewAt w i else viewAt w i.
Proof.
  intros Hf. unfold viewAt, update. cbn [store with_store].
  destruct (decide (i = modal)) as [->|Hne].
  - rewrite list_lookup_alter_eq, <- !option_fmap_compose.
    apply option_fmap_ext. intros o. apply Hf.
  - by rewrite list_lookup_alter_ne.
Qed.

Lemma viewAt_update_id modal (f : ModalWindow.t -> ModalWindow.t) w i :
  (forall o, view_of (f o) = view_of o) ->
  viewAt (update modal f w) i = viewAt w i.
Proof.
  intros Hf. rewrite (viewAt_update _ _ id) by done.
  case_decide; [|done]. by destruct (viewAt w i).
Qed.

Lemma getTitle_viewAt m w :
  getTitle m w = default ""%string (v_title <$> viewAt w m).
Proof. unfold getTitle, viewAt. by destruct (store w !! m). Qed.

Lemma viewAt_with_manager (f : ModalManager.t E -> ModalManager.t E) w i :
  viewAt (with_manager f w) i = viewAt w i.
Proof. done. Qed.

Lemma viewAt_with_env (f : E -> E) w i : viewAt (with_env f w) i = viewAt w i.
Proof. done. Qed.

Lemma viewAt_with_timers (f : list Timer -> list Timer) w i :
  viewAt (with_timers f w) i = viewAt w i.
Proof. done. Qed.

Lemma notify_manager cb (title : string) w :
  manager (notify cb title w) = manager w.
Proof. by destruct cb. Qed.

Lemma notify_timers cb (title : string) w :
  timers (notify cb title w) = timers w.
Proof. by destruct cb. Qed.

Lemma notify_store cb (title : string) w :
  store (notify cb title w) = store w.
Proof. by destruct cb. Qed.

Lemma viewAt_notify cb (title : string) w i :
  viewAt (notify cb title w) i = viewAt w i.
Proof. by destruct cb. Qed.

Lemma notify_env cb (title : string) w :
  env (notify cb title w) =
  match cb with Some f => f title (env w) | None => env w end.
Proof. by destruct cb. Qed.

(** *** A loop of updates *)

Lemma fold_update (c : Ref -> bool) (g : ModalWindow.t -> ModalWindow.t)
    (vg : View -> View) (h : Ref -> World E -> World E)
    (refs : list Ref) w :
  (forall m w, h m w = if c m then update m g w else w) ->
  (forall o, view_of (g o) = vg (view_of o)) ->
  (forall v, vg (vg v) = vg v) ->
  let w' := fold_left (fun w m => h m w) refs w in
  manager w' = manager w /\ env w' = env w /\ timers w' = timers w /\
  forall i, viewAt w' i =
            if decide (i ∈ refs /\ c i = true) then vg <$> viewAt w i
            else viewAt w i.
Proof.
  intros Hh Hg Hidem. revert w.
  induction refs as [|m refs IH]; intros w; cbn [fold_left].
  - do 3 (split; [done|]). intros i. rewrite decide_False; [done|].
    intros [H _]. by apply elem_of_nil in H.
  - destruct (IH (h m w)) as (Hm & He & Ht & Hv).
    assert (Hhm : manager (h m w) = manager w /\ env (h m w) = env w /\
                  timers (h m w) = timers w).
    { rewrite Hh. by destruct (c m). }
    destruct Hhm as (Hm1 & He1 & Ht1).
    rewrite Hm, He, Ht. do 3 (split; [done|]).
    intros i. rewrite Hv.
    assert (Hi : viewAt (h m w) i =
                 if decide (i = m /\ c i = true) then vg <$> viewAt w i
                 else viewAt w i).
    { rewrite Hh. destruct (c m) eqn:Hc.
      - rewrite (viewAt_update _ _ vg) by done.
        destruct (decide (i = m)) as [->|].
        + by rewrite decide_True.
        + rewrite decide_False; [done | by intros []].
      - rewrite decide_False; [done|]. intros [-> ?]. congruence. }
    rewrite Hi. clear Hv Hi.
    destruct (decide (i ∈ refs /\ c i = true)) as [[Hin Hc]|Hn];
      destruct (decide (i = m /\ c i = true)) as [[Heq Hc']|Hn'];
      destruct (decide (i ∈ m :: refs /\ c i = true)) as [[Hin2 Hc2]|Hn2];
      try done;
      try (exfalso; apply Hn2; split; [apply elem_of_cons; by auto | done]).
    + destruct (viewAt w i); simpl; [|done]. by rewrite Hidem.
    + apply elem_of_cons in Hin2 as [->|Hin2]; tauto.
Qed.

End RegistryFacts.

Section FocusFacts.
Import ModalManager.
Context {E : Type}.
Implicit Types (w : World E) (m modal : Ref).

Lemma bringModalToFront_spec modal w :
  let w' := bringModalToFront modal w in
  manager w' = set_activeModal (Some modal) (set_nextZIndex (focusZ w) (manager w)) /\
  timers w' = timers w /\
  env w' = match modalSelectionCallback (manager w) with
           | Some f => f (getTitle modal w) (env w)
           | None => env w
           end /\
  forall i, viewAt w' i =
    if decide (i = modal)
    then (fun v => vset_active true (vset_z (focusZ w) v)) <$> viewAt w i
    else if decide (registered i w) then vset_active false <$> viewAt w i
    else viewAt w i.
Proof.
  unfold bringModalToFront. fold (focusZ w).
  set (w1 := update modal _ (with_manager _ w)).
  rewrite forEach_fold by (intros m s; by case_decide).
  pose (g := fun o => ModalWindow.setActive false (ModalWindow.setOpacity (9 # 10) o)).
  pose (h := fun (m : Ref) (w0 : World E) =>
               if decide (m = modal) then w0 else update m g w0).
  destruct (fold_update (fun m => bool_decide (m <> modal)) g (vset_active false) h
              (map_values (liveModals w1)) w1) as (Hm & He & Ht & Hv).
  { intros m w0. unfold h. case_decide; case_bool_decide; done. }
  { done. }
  { done. }
  fold g. change (fun (s : World E) (m : Ref) =>
                    if decide (m = modal) then s else update m g s)
    with (fun (s : World E) (m : Ref) => h m s).
  set (w2 := fold_left _ _ w1) in *.
  set (w3 := update modal _ (with_manager _ w2)).
  assert (Hv1 : forall i, viewAt w1 i =
            if decide (i = modal) then vset_z (focusZ w) <$> viewAt w i
            else viewAt w i).
  { intros i. unfold w1. by rewrite (viewAt_update _ _ (vset_z (focusZ w))). }
  assert (Hv3 : forall i, viewAt w3 i =
            if decide (i = modal) then vset_active true <$> viewAt w2 i
            else viewAt w2 i).
  { intros i. unfold w3. by rewrite (viewAt_update _ _ (vset_active true)). }
  assert (Hm1 : manager w1 = set_nextZIndex (focusZ w) (manager w)) by done.
  assert (He1 : env w1 = env w) by done.
  assert (Ht1 : timers w1 = timers w) by done.
  assert (Hl1 : map_values (liveModals w1) = map_values (modals (manager w))) by done.
  rewrite Hl1 in Hv.
  assert (Hm3 : manager w3 = set_activeModal (Some modal) (manager w2)) by done.
  assert (He3 : env w3 = env w2) by done.
  assert (Ht3 : timers w3 = timers w2) by done.
  clearbody w3 w2 w1.
  rewrite notify_manager, notify_timers, notify_env.
  rewrite Hm3, He3, Ht3, Hm, He, Ht, Hm1, He1, Ht1.
  split; [done|]. split; [done|]. split.
  - cbn [modalSelectionCallback set_activeModal set_nextZIndex].
    replace (getTitle modal w3) with (getTitle modal w); [done|].
    rewrite !getTitle_viewAt, Hv3, decide_True, Hv by done.
    rewrite decide_False by (intros [_ H]; by apply bool_decide_eq_true in H).
    rewrite Hv1, decide_True by done.
    by destruct (viewAt w modal).
  - intros i. rewrite viewAt_notify, Hv3, Hv, Hv1.
    destruct (decide (i = modal)) as [->|Hne].
    + rewrite decide_False by (intros [_ H]; by apply bool_decide_eq_true in H).
      by destruct (viewAt w modal).
    + destruct (decide (registered i w)) as [Hr|Hr].
      * rewrite decide_True; [done|]. split; [done | by apply bool_decide_eq_true].
      * rewrite decide_False; [done|]. by intros [? _].
Qed.

Lemma bringModalToFront_store_length modal w :
  length (store (bringModalToFront modal w)) = length (store w).
Proof.
  apply Nat.le_antisymm; apply Nat.nlt_ge; intros H.
  - apply viewAt_allocated in H.
    destruct (bringModalToFront_spec modal w) as (_ & _ & _ & Hv).
    rewrite Hv in H. repeat case_decide; rewrite ?fmap_is_Some in H;
      apply viewAt_allocated in H; lia.
  - apply viewAt_allocated in H. 
    assert (H' : is_Some (viewAt (bringModalToFront modal w) (length (store (bringModalToFront modal w))))).
    { destruct (bringModalToFront_spec modal w) as (_ & _ & _ & Hv).
      rewrite Hv. repeat case_decide; rewrite ?fmap_is_Some; done. }
    apply viewAt_allocated in H'. lia.
Qed.


(** *** The invariant only reads the views and three fields *)

Lemma Inv_ext w w' :
  modals (manager w') = modals (manager w) ->
  nextZIndex (manager w') = nextZIndex (manager w) ->
  activeModal (manager w') = activeModal (manager w) ->
  (forall i, viewAt w' i = viewAt w i) ->
  Inv w -> Inv w'.
Proof.
  intros Hmo Hz Ha Hv [I1 I2 I3 I4 I5 I6].
  split; rewrite ?Hmo, ?Hz, ?Ha; try done.
  - intros k m H. rewrite Hv. eauto.
  - intros m H. rewrite Hv. eauto.
  - intros k m v' H. rewrite Hv. eauto.
  - intros k m v' H. rewrite Hv. eauto.
Qed.

(** Removing entries keeps the invariant. *)
Lemma Inv_sub w w' :
  sublist (modals (manager w')) (modals (manager w)) ->
  nextZIndex (manager w') = nextZIndex (manager w) ->
  activeModal (manager w') = activeModal (manager w) ->
  (forall i, viewAt w' i = viewAt w i) ->
  Inv w -> Inv w'.
Proof.
  intros Hsub Hz Ha Hv [I1 I2 I3 I4 I5 I6].
  assert (Hin : forall e, e ∈ modals (manager w') -> e ∈ modals (manager w)).
  { intros e. by apply sublist_subseteq. }
  split; rewrite ?Hz, ?Ha; try done.
  - intros k m H. rewrite Hv. eauto.
  - eapply sublist_NoDup; [exact I2|]. by apply fmap_sublist.
  - intros m H. rewrite Hv. eauto.
  - intros k m v' H. rewrite Hv. eauto.
  - intros k m v' H. rewrite Hv. eauto.
Qed.

Lemma Inv_bringModalToFront modal w :
  Inv w -> modal < length (store w) -> Inv (bringModalToFront modal w).
Proof.
  intros [I1 I2 I3 I4 I5 I6] Halloc.
  destruct (bringModalToFront_spec modal w) as (Hm & _ & _ & Hv).
  apply viewAt_allocated in Halloc as [vm Hvm].
  assert (Hz : (nextZIndex (manager w) < focusZ w)%Z) by (unfold focusZ; lia).
  split; rewrite ?Hm; cbn [modals nextZIndex activeModal set_activeModal set_nextZIndex].
  - intros k m H. rewrite Hv. destruct (I1 k m H) as (v & Hvw & ? & ? & ?).
    rewrite Hvw. repeat case_decide; eexists; (split; [done|]); done.
  - done.
  - intros m [= <-]. rewrite Hv, decide_True, Hvm by done. by eexists.
  - intros k m v H. rewrite Hv. destruct (decide (m = modal)) as [->|Hne]; [done|].
    rewrite decide_True by (apply registered_entry; eauto).
    destruct (viewAt w m); simpl; [|done]. by intros [= <-].
  - intros k m v H. rewrite Hv. destruct (I1 k m H) as (v0 & Hvw & _).
    rewrite Hvw. specialize (I5 k m v0 H Hvw).
    repeat case_decide; simpl; intros [= <-]; cbn; lia.
  - unfold focusZ. lia.
Qed.

(** After a focus the window is strictly above every other registered
    window. *)
Lemma bringModalToFront_front modal w :
  Inv w -> modal < length (store w) ->
  let w' := bringModalToFront modal w in
  zIndexOf modal w' = nextZIndex (manager w') /\
  forall m, registered m w' -> m <> modal ->
            (zIndexOf m w' < zIndexOf modal w')%Z.
Proof.
  intros [I1 I2 I3 I4 I5 I6] Halloc w'. subst w'.
  destruct (bringModalToFront_spec modal w) as (Hm & _ & _ & Hv).
  apply viewAt_allocated in Halloc as [vm Hvm].
  assert (Hzm : zIndexOf modal (bringModalToFront modal w) = focusZ w).
  { erewrite zIndexOf_view; [|rewrite Hv, decide_True, Hvm by done; done]. done. }
  split; [by rewrite Hzm, Hm|].
  intros m Hr Hne. rewrite Hzm.
  apply registered_entry in Hr as [k Hk]. rewrite Hm in Hk. cbn in Hk.
  destruct (I1 k m Hk) as (v0 & Hvw & _).
  specialize (I5 k m v0 Hk Hvw).
  rewrite zIndexOf_viewAt, Hv, decide_False, Hvw by done.
  case_decide; cbn; unfold focusZ; lia.
Qed.

End FocusFacts.

(* ------------------------------------------------------------------ *)
(** ** The ordered map *)
(* ------------------------------------------------------------------ *)

Section MapFacts.
Import ModalManager.
Implicit Types (l : list (string * Ref)) (k : string) (v m : Ref).

Lemma elem_of_map_set k v l e :
  e ∈ map_set k v l -> e = (k, v) \/ e ∈ l.
Proof.
  induction l as [|[k' v'] l IH]; cbn.
  - intros H%list_elem_of_singleton. by left.
  - destruct (String.eqb_spec k' k) as [->|Hne].
    + intros [->|H]%elem_of_cons; [by left | right; by apply elem_of_cons; right].
    + intros [->|H]%elem_of_cons; [right; by apply elem_of_cons; left|].
      destruct (IH H) as [->|H']; [by left | right; by apply elem_of_cons; right].
Qed.

Lemma map_set_elem k v l : (k, v) ∈ map_set k v l.
Proof.
  induction l as [|[k' v'] l IH]; cbn.
  - by apply list_elem_of_singleton.
  - destruct (String.eqb_spec k' k); apply elem_of_cons; auto.
Qed.

Lemma map_set_keys k v l :
  (map_set k v l).*1 = if decide (k ∈ l.*1) then l.*1 else l.*1 ++ [k].
Proof.
  induction l as [|[k' v'] l IH]; cbn.
  - by rewrite decide_False by apply not_elem_of_nil.
  - destruct (String.eqb_spec k' k) as [->|Hne]; cbn.
    + rewrite decide_True; [done | by apply elem_of_cons; left].
    + rewrite IH. destruct (decide (k ∈ l.*1)) as [Hin|Hnin].
      * rewrite decide_True; [done | by apply elem_of_cons; right].
      * rewrite decide_False; [done|].
        intros [->|?]%elem_of_cons; done.
Qed.

Lemma map_set_NoDup k v l : NoDup l.*1 -> NoDup (map_set k v l).*1.
Proof.
  intros H. rewrite map_set_keys. case_decide; [done|].
  apply NoDup_app. split; [done|]. split; [|apply NoDup_singleton].
  intros x Hx ->%list_elem_of_singleton. done.
Qed.

Lemma map_set_length_ge k v l : length l <= length (map_set k v l).
Proof.
  induction l as [|[k' v'] l IH]; cbn; [lia|].
  destruct (String.eqb k' k); cbn; lia.
Qed.

Lemma elem_of_map_delete k l e :
  e ∈ map_delete k l <-> e ∈ l /\ fst e <> k.
Proof.
  unfold map_delete. rewrite !list_elem_of_In, filter_In.
  destruct (String.eqb_spec (fst e) k); cbn; intuition congruence.
Qed.

Lemma map_delete_sublist k l : sublist (map_delete k l) l.
Proof. apply List_filter_sublist. Qed.

Lemma map_get_elem k l m : map_get k l = Some m -> (k, m) ∈ l.
Proof.
  unfold map_get. destruct (find _ l) as [[k' m']|] eqn:Hf; [|done].
  intros [= <-]. apply find_some in Hf as [Hin Heq].
  apply String.eqb_eq in Heq. cbn in Heq. subst. by apply list_elem_of_In.
Qed.

Lemma map_get_NoDup k l m :
  NoDup l.*1 -> (k, m) ∈ l -> map_get k l = Some m.
Proof.
  unfold map_get. induction l as [|[k' m'] l IH]; cbn.
  - by intros _ ?%elem_of_nil.
  - intros [Hnin Hnd]%NoDup_cons [[= -> ->]|Hin]%elem_of_cons.
    + by rewrite String.eqb_refl.
    + destruct (String.eqb_spec k' k) as [->|Hne].
      * exfalso. apply Hnin. apply list_elem_of_fmap. by exists (k, m).
      * by apply IH.
Qed.

End MapFacts.

(* ------------------------------------------------------------------ *)
(** ** Every method keeps the invariant *)
(* ------------------------------------------------------------------ *)

Section InvariantFacts.
Import ModalManager.
Context {E : Type}.
Implicit Types (w : World E) (m modal : Ref).

Lemma Inv_init (e : E) : Inv (init e).
Proof.
  split; cbn; try done.
  all: try (intros k m H; by apply elem_of_nil in H).
  all: try (intros k m v H; by apply elem_of_nil in H).
  apply NoDup_nil_2.
Qed.

(** *** [call]: a window method that may notify *)

Lemma call_spec modal
    (method : ModalWindow.t -> ModalWindow.t * ModalWindow.Call) w :
  (forall o, view_of (fst (method o)) = view_of o) ->
  manager (call modal method w) = manager w /\
  timers (call modal method w) = timers w /\
  length (store (call modal method w)) = length (store w) /\
  forall i, viewAt (call modal method w) i = viewAt w i.
Proof.
  intros Hview. unfold call.
  destruct (store w !! modal) as [o|] eqn:Ho; [|done].
  specialize (Hview o). destruct (method o) as [o' c]. cbn in Hview.
  assert (Hrun : forall w0, manager (runCallback c w0) = manager w0 /\
                            timers (runCallback c w0) = timers w0 /\
                            store (runCallback c w0) = store w0).
  { intros w0. unfold runCallback. destruct c as [[[] t]|]; [| |done];
      by rewrite notify_manager, notify_timers, notify_store. }
  destruct (Hrun (with_store (fun st => <[modal:=o']> st) w)) as (Hm & Ht & Hs).
  rewrite Hm, Ht. unfold viewAt. rewrite Hs. cbn.
  split; [done|]. split; [done|]. split; [apply length_insert|].
  intros i. destruct (decide (i = modal)) as [->|Hne].
  - rewrite list_lookup_insert_eq by (by eapply lookup_lt_Some).
    rewrite Ho. cbn. by rewrite Hview.
  - by rewrite list_lookup_insert_ne.
Qed.

Lemma minimize_spec modal w :
  manager (minimize modal w) = manager w /\
  timers (minimize modal w) = timers w /\
  length (store (minimize modal w)) = length (store w) /\
  forall i, viewAt (minimize modal w) i = viewAt w i.
Proof. by apply call_spec. Qed.

Lemma restore_spec modal w :
  manager (restore modal w) = manager w /\
  timers (restore modal w) = timers w /\
  length (store (restore modal w)) = length (store w) /\
  forall i, viewAt (restore modal w) i = viewAt w i.
Proof.
  apply call_spec. intros o. unfold ModalWindow.restore.
  by destruct (ModalWindow.isMinimized _).
Qed.

(** *** [update] with a method the registry does not observe *)

Lemma update_spec modal (f : ModalWindow.t -> ModalWindow.t) w :
  (forall o, view_of (f o) = view_of o) ->
  manager (update modal f w) = manager w /\
  timers (update modal f w) = timers w /\
  length (store (update modal f w)) = length (store w) /\
  forall i, viewAt (update modal f w) i = viewAt w i.
Proof.
  intros Hf. split; [done|]. split; [done|]. split.
  - apply length_alter.
  - intros i. by apply viewAt_update_id.
Qed.

Lemma view_of_toggleMaximize rect o :
  view_of (ModalWindow.toggleMaximize rect o) = view_of o.
Proof.
  unfold ModalWindow.toggleMaximize, ModalWindow.restoreSize, ModalWindow.maximize.
  destruct (ModalWindow.isMaximized _); cbn; [|done].
  by destruct (ModalWindow.originalSize _).
Qed.

Lemma view_of_runGesture g o : view_of (ModalWindow.runGesture o g) = view_of o.
Proof.
  unfold ModalWindow.runGesture. set (s := ModalWindow.startResize _ _ _ _).
  clearbody s. revert o.
  induction (ModalWindow.moves g) as [|p ps IH]; intros o; [done|].
  cbn [fold_left]. by rewrite IH.
Qed.

(** *** A loop of methods that keep the registry *)

Lemma same_registry_refl w : same_registry w w.
Proof. done. Qed.

Lemma same_registry_trans w1 w2 w3 :
  same_registry w1 w2 -> same_registry w2 w3 -> same_registry w1 w3.
Proof.
  intros (Hm & Hl & Hv) (Hm' & Hl' & Hv').
  split; [congruence|]. split; [congruence|]. intros i. by rewrite Hv', Hv.
Qed.

Lemma same_registry_fold (h : Ref -> World E -> World E) (refs : list Ref) w :
  (forall m w, same_registry w (h m w)) ->
  same_registry w (fold_left (fun w m => h m w) refs w).
Proof.
  intros Hh. revert w. induction refs as [|m refs IH]; intros w; [done|].
  cbn [fold_left]. eapply same_registry_trans; [apply Hh | apply IH].
Qed.

Lemma same_registry_Inv w w' : same_registry w w' -> Inv w -> Inv w'.
Proof. intros (Hm & _ & Hv). apply Inv_ext; by rewrite ?Hm. Qed.

Lemma same_registry_minimize modal w : same_registry w (minimize modal w).
Proof. destruct (minimize_spec modal w) as (? & ? & ? & ?). by split. Qed.

Lemma same_registry_restore modal w : same_registry w (restore modal w).
Proof. destruct (restore_spec modal w) as (? & ? & ? & ?). by split. Qed.

Lemma same_registry_closeModal modal w : same_registry w (closeModal modal w).
Proof.
  unfold closeModal. split; [done|]. split.
  - cbn. apply length_alter.
  - intros i. rewrite viewAt_with_timers. by apply viewAt_update_id.
Qed.

Lemma minimizeAllModals_fold w :
  minimizeAllModals w =
  fold_left (fun w m => minimize m w) (map_values (modals (manager w))) w.
Proof.
  unfold minimizeAllModals. rewrite forEach_fold; [done|].
  intros m s. unfold liveModals. by destruct (minimize_spec m s) as (-> & _).
Qed.

Lemma restoreAllModals_fold w :
  restoreAllModals w =
  fold_left (fun w m => restore m w) (map_values (modals (manager w))) w.
Proof.
  unfold restoreAllModals. rewrite forEach_fold; [done|].
  intros m s. unfold liveModals. by destruct (restore_spec m s) as (-> & _).
Qed.

Lemma same_registry_minimizeAllModals w : same_registry w (minimizeAllModals w).
Proof.
  rewrite minimizeAllModals_fold. apply same_registry_fold.
  intros; apply same_registry_minimize.
Qed.

Lemma same_registry_restoreAllModals w : same_registry w (restoreAllModals w).
Proof.
  rewrite restoreAllModals_fold. apply same_registry_fold.
  intros; apply same_registry_restore.
Qed.

Lemma same_registry_closeAllModals w : same_registry w (closeAllModals w).
Proof.
  unfold closeAllModals. apply same_registry_fold.
  intros; apply same_registry_closeModal.
Qed.

End InvariantFacts.

Section InvariantFacts2.
Import ModalManager.
Context {E : Type}.
Implicit Types (w : World E) (m modal : Ref).

(** *** [createModal] *)

Lemma viewAt_alloc (o : ModalWindow.t) w i :
  viewAt (with_store (fun st => st ++ [o]) w) i =
  if decide (i = length (store w)) then Some (view_of o) else viewAt w i.
Proof.
  unfold viewAt. cbn. destruct (decide (i = length (store w))) as [->|Hne].
  - by rewrite lookup_app_r, Nat.sub_diag.
  - destruct (decide (i < length (store w))).
    + by rewrite lookup_app_l.
    + rewrite !lookup_ge_None_2; [done | lia | rewrite length_app; cbn; lia].
Qed.

Lemma Inv_createModal (title : string) (width height x y : Q) (color : string) w :
  Inv w -> Inv (fst (createModal title width height x y color w)).
Proof.
  intros [I1 I2 I3 I4 I5 I6]. unfold createModal. cbn [fst].
  set (o := ModalWindow.onRestore _ _).
  set (w2 := with_manager _ (with_store _ w)).
  assert (Hv : forall i, viewAt w2 i =
            if decide (i = length (store w)) then Some (view_of o) else viewAt w i).
  { intros i. unfold w2. by rewrite viewAt_with_manager, viewAt_alloc. }
  assert (Hold : forall i v, viewAt w i = Some v -> viewAt w2 i = Some v).
  { intros i v Hi. rewrite Hv, decide_False; [done|].
    intros ->. assert (is_Some (viewAt w (length (store w)))) as H by eauto.
    apply viewAt_allocated in H. lia. }
  apply Inv_bringModalToFront.
  - split; cbn [w2 manager with_manager with_store modals set_modals
                nextZIndex activeModal].
    + intros k m [[= -> ->]|H]%elem_of_map_set.
      * rewrite Hv, decide_True by done. eexists. split; [done|]. done.
      * destruct (I1 k m H) as (v & Hvw & ?). exists v. split; [|done]. by apply Hold.
    + by apply map_set_NoDup.
    + intros m H. destruct (I3 m H) as (v & Hvw & ?). exists v. split; [|done].
      by apply Hold.
    + intros k m v [[= -> ->]|H]%elem_of_map_set.
      * rewrite Hv, decide_True by done. by intros [= <-].
      * destruct (I1 k m H) as (v0 & Hvw & _). rewrite (Hold _ _ Hvw).
        intros [= <-]. by apply (I4 k).
    + intros k m v [[= -> ->]|H]%elem_of_map_set.
      * rewrite Hv, decide_True by done. intros [= <-]. cbn. lia.
      * destruct (I1 k m H) as (v0 & Hvw & _). rewrite (Hold _ _ Hvw).
        intros [= <-]. by apply (I5 k m).
    + done.
  - unfold w2. cbn. rewrite length_app. cbn. lia.
Qed.

(** *** [clearActiveModal] *)

Lemma clearActiveModal_spec w :
  let w' := clearActiveModal w in
  manager w' = set_activeModal None (manager w) /\
  timers w' = timers w /\
  forall i, viewAt w' i =
    if decide (registered i w) then vset_active false <$> viewAt w i
    else viewAt w i.
Proof.
  unfold clearActiveModal.
  rewrite forEach_fold by done.
  pose (g := fun o => ModalWindow.setActive false (ModalWindow.setOpacity (8 # 10) o)).
  pose (h := fun (m : Ref) (w0 : World E) => update m g w0).
  destruct (fold_update (fun _ => true) g (vset_active false) h
              (map_values (liveModals w)) w) as (Hm & He & Ht & Hv); try done.
  fold g. change (fun (s : World E) (m : Ref) => update m g s)
    with (fun (s : World E) (m : Ref) => h m s).
  set (w2 := fold_left _ _ w) in *. clearbody w2.
  rewrite notify_manager, notify_timers. cbn. rewrite Hm, Ht.
  split; [done|]. split; [done|].
  intros i. rewrite viewAt_notify, viewAt_with_manager, Hv.
  destruct (decide (registered i w)) as [Hr|Hr].
  - by rewrite decide_True.
  - rewrite decide_False; [done|]. by intros [? _].
Qed.

Lemma Inv_clearActiveModal w : Inv w -> Inv (clearActiveModal w).
Proof.
  intros [I1 I2 I3 I4 I5 I6].
  destruct (clearActiveModal_spec w) as (Hm & _ & Hv).
  split; rewrite ?Hm; cbn [modals nextZIndex activeModal set_activeModal]; try done.
  - intros k m H. rewrite Hv. destruct (I1 k m H) as (v & Hvw & ? & ? & ?).
    rewrite Hvw. case_decide; eexists; (split; [done|]); done.
  - intros k m v H. rewrite Hv, decide_True by (apply registered_entry; eauto).
    destruct (viewAt w m); simpl; [|done]. by intros [= <-].
  - intros k m v H. rewrite Hv. destruct (I1 k m H) as (v0 & Hvw & _).
    rewrite Hvw. specialize (I5 k m v0 H Hvw).
    case_decide; simpl; intros [= <-]; cbn; lia.
Qed.

(** *** [closeModal] and its timer *)

Lemma Inv_closeModal_timeout modal w : Inv w -> Inv (closeModal_timeout modal w).
Proof.
  intros HI. unfold closeModal_timeout.
  set (w1 := update modal _ w).
  assert (H1 : same_registry w w1).
  { destruct (update_spec modal
                (ModalWindow.with_element (ModalWindow.set_parentNode false)) w)
      as (? & ? & ? & ?); [done|]. by split. }
  set (w2 := with_manager _ w1).
  assert (HI2 : Inv w2).
  { apply (Inv_sub w1); try done.
    - unfold w2. cbn. apply map_delete_sublist.
    - by apply (same_registry_Inv w). }
  assert (Hgone : forall k, (k, modal) ∈ modals (manager w2) -> False).
  { intros k Hk. unfold w2 in Hk. cbn in Hk.
    apply elem_of_map_delete in Hk as [Hk Hne]. cbn in Hne.
    apply (same_registry_Inv w) in H1 as [I1 _ _ _ _ _]; [|done].
    destruct (I1 k modal Hk) as (v & Hv & Ht & _).
    rewrite (getTitle_view _ _ _ Hv) in Hne. done. }
  clearbody w2. clear w1 H1 HI.
  set (w3 := if decide (activeModal (manager w2) = Some modal) then _ else w2).
  assert (HI3 : Inv w3).
  { unfold w3. case_decide as Hact; [|done].
    set (w2' := with_manager (set_activeModal None) w2).
    assert (HI2' : Inv w2').
    { destruct HI2 as [I1 I2 I3 I4 I5 I6]. split; try done.
      intros k m v Hk Hv Ha. exfalso.
      assert (m = modal) as -> by (specialize (I4 k m v Hk Hv Ha); congruence).
      by eapply Hgone. }
    destruct (last _) as [r|] eqn:Hlast; [|done].
    apply Inv_bringModalToFront; [done|].
    apply last_Some_elem_of in Hlast.
    change (registered r w2') in Hlast.
    apply registered_entry in Hlast as [k Hk].
    destruct HI2' as [I1 _ _ _ _ _]. destruct (I1 k r Hk) as (v & Hv & _).
    apply viewAt_allocated. eauto. }
  clearbody w3.
  eapply Inv_ext; [..|exact HI3]; intros;
    by rewrite ?notify_manager, ?viewAt_notify.
Qed.

Lemma Inv_fireTimer i w : Inv w -> Inv (fireTimer i w).
Proof.
  intros HI. unfold fireTimer. destruct (timers w !! i) as [[modal]|]; [|done].
  cbn. by apply Inv_closeModal_timeout, (Inv_ext w).
Qed.

(** *** [restoreModalByTitle] *)

Lemma Inv_restoreModalByTitle (title : string) w :
  Inv w -> Inv (restoreModalByTitle title w).
Proof.
  intros HI. unfold restoreModalByTitle.
  destruct (map_get _ _) as [modal|]; [|done].
  destruct (store w !! modal) as [o|] eqn:Ho; [|done].
  destruct (ModalWindow.isModalMinimized o); [|done].
  eapply Inv_ext; [..|apply Inv_bringModalToFront];
    rewrite ?notify_manager; try done.
  - intros i. by rewrite viewAt_notify.
  - apply (same_registry_Inv w); [apply same_registry_restore | done].
  - destruct (restore_spec modal w) as (_ & _ & -> & _).
    by eapply lookup_lt_Some.
Qed.

End InvariantFacts2.

Section InvariantFacts3.
Import ModalManager.
Context {E : Type}.
Implicit Types (w : World E) (m modal : Ref).

(** *** [resetModalZIndexes] *)

Lemma reset_fold (refs : list Ref) w (z0 : Z) :
  let s := fold_left (fun s m => resetStep m s) refs (w, z0) in
  snd s = (z0 + Z.of_nat (length refs))%Z /\
  manager (fst s) = manager w /\
  timers (fst s) = timers w /\
  forall i,
    (i ∈ refs -> exists z, (z0 <= z < z0 + Z.of_nat (length refs))%Z /\
                           viewAt (fst s) i = vset_z z <$> viewAt w i) /\
    (i ∉ refs -> viewAt (fst s) i = viewAt w i).
Proof.
  revert w z0. induction refs as [|m refs IH]; intros w z0; cbn [fold_left].
  - cbn. split; [lia|]. do 2 (split; [done|]). intros i. split; [|done].
    by intros ?%elem_of_nil.
  - destruct (IH (update m (ModalWindow.setZIndex z0) w) (z0 + 1)%Z)
      as (Hz & Hm & Ht & Hv).
    change (resetStep m (w, z0))
      with (update m (ModalWindow.setZIndex z0) w, (z0 + 1)%Z).
    cbv zeta in *. rewrite Hz, Hm, Ht. cbn [length]. split; [lia|]. do 2 (split; [done|]).
    intros i. destruct (Hv i) as [Hin Hnin].
    assert (Hi : viewAt (update m (ModalWindow.setZIndex z0) w) i =
                 if decide (i = m) then vset_z z0 <$> viewAt w i else viewAt w i).
    { by rewrite (viewAt_update _ _ (vset_z z0)). }
    split.
    + intros Hcons. destruct (decide (i ∈ refs)) as [Hr|Hr].
      * destruct (Hin Hr) as (z & Hzr & Hvz). exists z. split; [lia|].
        rewrite Hvz, Hi. case_decide; [|done]. by destruct (viewAt w i).
      * apply elem_of_cons in Hcons as [->|?]; [|done].
        exists z0. split; [lia|]. by rewrite (Hnin Hr), Hi, decide_True.
    + intros Hcons. apply not_elem_of_cons in Hcons as [Hne Hr].
      by rewrite (Hnin Hr), Hi, decide_False.
Qed.

Lemma resetModalZIndexes_spec w :
  let w' := resetModalZIndexes w in
  let n := Z.of_nat (length (modals (manager w))) in
  manager w' = set_nextZIndex (1000 + n) (manager w) /\
  timers w' = timers w /\
  forall i,
    (registered i w -> exists z, (1000 <= z < 1000 + n)%Z /\
                                 viewAt w' i = vset_z z <$> viewAt w i) /\
    (~ registered i w -> viewAt w' i = viewAt w i).
Proof.
  unfold resetModalZIndexes.
  rewrite forEach_fold by done.
  change (fun (s : World E * Z) (m : Ref) =>
            (update m (ModalWindow.setZIndex (snd s)) (fst s), (snd s + 1)%Z))
    with (fun (s : World E * Z) (m : Ref) => resetStep m s).
  cbn [fst].
  destruct (reset_fold (map_values (liveModals w)) w 1000) as (Hz & Hm & Ht & Hv).
  destruct (fold_left _ _ _) as [w' z']. cbn [fst snd] in *.
  unfold map_values, liveModals in Hz. rewrite length_fmap in Hz.
  cbn. rewrite Hz, Hm, Ht. do 2 (split; [done|]).
  intros i. destruct (Hv i) as [Hin Hnin]. split.
  - intros Hr. destruct (Hin Hr) as (z & Hzr & ?). exists z.
    unfold map_values, liveModals in Hzr. rewrite length_fmap in Hzr. done.
  - done.
Qed.

Lemma Inv_resetModalZIndexes w : Inv w -> Inv (resetModalZIndexes w).
Proof.
  intros [I1 I2 I3 I4 I5 I6].
  destruct (resetModalZIndexes_spec w) as (Hm & _ & Hv).
  assert (Hview : forall i v, viewAt w i = Some v ->
            exists z, viewAt (resetModalZIndexes w) i = Some (vset_z z v) /\
                      (registered i w ->
                       (z < 1000 + Z.of_nat (length (modals (manager w))))%Z)).
  { intros i v Hi. destruct (Hv i) as [Hin Hnin].
    destruct (decide (registered i w)) as [Hr|Hr].
    - destruct (Hin Hr) as (z & Hz & Hvz). exists z. rewrite Hvz, Hi.
      split; [done | lia].
    - exists (v_z v). rewrite (Hnin Hr), Hi. split; [by destruct v | done]. }
  split; rewrite ?Hm; cbn [modals nextZIndex activeModal set_nextZIndex]; try done.
  - intros k m H. destruct (I1 k m H) as (v & Hvw & ? & ? & ?).
    destruct (Hview m v Hvw) as (z & -> & _). by eexists.
  - intros m H. destruct (I3 m H) as (v & Hvw & ?).
    destruct (Hview m v Hvw) as (z & -> & _). by eexists.
  - intros k m v H Hvm Ha. destruct (I1 k m H) as (v0 & Hvw & _).
    destruct (Hview m v0 Hvw) as (z & Hz & _). rewrite Hz in Hvm.
    injection Hvm as <-. by apply (I4 k m v0).
  - intros k m v H Hvm. destruct (I1 k m H) as (v0 & Hvw & _).
    destruct (Hview m v0 Hvw) as (z & Hz & Hlt). rewrite Hz in Hvm.
    injection Hvm as <-. cbn.
    assert (registered m w) by (apply registered_entry; eauto).
    specialize (Hlt H0). lia.
  - lia.
Qed.

(** *** Every event keeps the invariant *)

Lemma Inv_step (o : Op E) w : Inv w -> op_ok o w -> Inv (step o w).
Proof.
  intros HI Hok. destruct o; cbn [step op_ok] in *.
  - by apply Inv_createModal.
  - by apply Inv_bringModalToFront.
  - unfold closeActiveModal. destruct (activeModal _); [|done].
    eapply same_registry_Inv; [apply same_registry_closeModal | done].
  - eapply same_registry_Inv; [apply same_registry_closeModal | done].
  - by apply Inv_fireTimer.
  - eapply same_registry_Inv; [apply same_registry_minimizeAllModals | done].
  - eapply same_registry_Inv; [apply same_registry_restoreAllModals | done].
  - eapply same_registry_Inv; [apply same_registry_closeAllModals | done].
  - by apply Inv_resetModalZIndexes.
  - by apply (Inv_ext w).
  - by apply (Inv_ext w).
  - by apply (Inv_ext w).
  - by apply (Inv_ext w).
  - by apply Inv_restoreModalByTitle.
  - by apply Inv_clearActiveModal.
  - eapply same_registry_Inv; [apply same_registry_minimize | done].
  - eapply same_registry_Inv; [apply same_registry_restore | done].
  - apply (Inv_ext w); try done. intros i.
    apply viewAt_update_id, view_of_toggleMaximize.
  - apply (Inv_ext w); try done. intros i.
    apply viewAt_update_id. intros; apply view_of_runGesture.
Qed.

Lemma reachable_Inv w : reachable w -> Inv w.
Proof.
  induction 1 as [e|o w Hr IH Hok]; [apply Inv_init | by apply Inv_step].
Qed.

End InvariantFacts3.

(* ------------------------------------------------------------------ *)
(** ** Reachable states *)
(* ------------------------------------------------------------------ *)

Section ReachableFacts.
Import ModalManager.
Context {E : Type}.
Implicit Types (w : World E) (m modal : Ref).

Lemma reachable_run (ops : list (Op E)) w :
  reachable w -> ops_ok ops w -> reachable (run ops w).
Proof.
  revert w. induction ops as [|o ops IH]; intros w Hr Hok; [done|].
  destruct Hok as [Ho Hok]. cbn [run fold_left]. apply IH; [|done].
  by apply reachable_step.
Qed.


(** C3: for every reachable state of the registry (the events include
    resetModalZIndexes) and every registered window, immediately after
    [bringModalToFront] the z-index of the window is the greatest among
    the registered windows, it equals the counter, and it is strictly
    greater than the z-index of every other registered window. *)
Theorem bringModalToFront_highest_zIndex w modal :
  reachable w -> registered modal w ->
  let w' := bringModalToFront modal w in
  registered modal w' /\
  zIndexOf modal w' = nextZIndex (manager w') /\
  (forall m, registered m w' -> (zIndexOf m w' <= zIndexOf modal w')%Z) /\
  (forall m, registered m w' -> m <> modal ->
             (zIndexOf m w' < zIndexOf modal w')%Z).
Proof.
  intros Hr Hreg w'. pose proof (reachable_Inv w Hr) as HI.
  assert (Halloc : modal < length (store w)).
  { apply registered_entry in Hreg as [k Hk].
    destruct (inv_entry w HI k modal Hk) as (v & Hv & _).
    apply viewAt_allocated. eauto. }
  destruct (bringModalToFront_front modal w HI Halloc) as [Hz Hlt].
  fold w' in Hz, Hlt.
  assert (Hreg' : registered modal w').
  { unfold registered, w'.
    destruct (bringModalToFront_spec modal w) as (-> & _). done. }
  split; [done|]. split; [done|]. split; [|done].
  intros m Hm. destruct (decide (m = modal)) as [->|Hne]; [lia|].
  specialize (Hlt m Hm Hne). lia.
Qed.

End ReachableFacts.

Section ScenarioFacts.
Import ModalManager Scenarios.

Lemma scenarioA_reachable : reachable scenarioA.
Proof. apply reachable_run; [constructor | vm_compute; tauto]. Qed.


Lemma scenarioReset_reachable : reachable scenarioReset.
Proof.
  apply reachable_run; [apply scenarioA_reachable | vm_compute; tauto].
Qed.

(** After "Bring All to Front" the z-indexes are 1000 and 1001 and the
    counter is 1002; focusing "Alpha" gives it 1003. *)
Lemma bringModalToFront_highest_zIndex_witness :
  zIndexOf 0 scenarioReset = 1000%Z /\
  zIndexOf 1 scenarioReset = 1001%Z /\
  zIndexOf 0 (bringModalToFront 0 scenarioReset) = 1003%Z /\
  forall m, registered m (bringModalToFront 0 scenarioReset) -> m <> 0%nat ->
            (zIndexOf m (bringModalToFront 0%nat scenarioReset)
             < zIndexOf 0%nat (bringModalToFront 0%nat scenarioReset))%Z.
Proof.
  do 3 (split; [vm_compute; reflexivity|]).
  refine (proj2 (proj2 (proj2
    (bringModalToFront_highest_zIndex scenarioReset 0 scenarioReset_reachable _)))).
  unfold registered. apply list_elem_of_In. vm_compute. tauto.
Defined.

End ScenarioFacts.

(* ------------------------------------------------------------------ *)
(** ** Closing the active window *)
(* ------------------------------------------------------------------ *)

Section CloseFacts.
Import ModalManager.
Context {E : Type}.
Implicit Types (w : World E) (m modal : Ref).





End CloseFacts.

(* ------------------------------------------------------------------ *)
(** ** Restoring from the dock, bulk operations *)
(* ------------------------------------------------------------------ *)

Section RestoreFacts.
Import ModalManager.
Context {E : Type}.
Implicit Types (w : World E) (m modal : Ref).

(** C10: in every reachable state, when [restoreModalByTitle title] finds
    a registered, minimized window and a restore-from-dock callback [f]
    is registered, [f] is called with [title] exactly twice: first by the
    window's own restore notification, then, after the selection
    notification of bringModalToFront, directly by restoreModalByTitle. *)
Theorem restoreModalByTitle_notifies_twice w (title : string) modal o
    (f : Listener) :
  reachable w ->
  map_get title (modals (manager w)) = Some modal ->
  store w !! modal = Some o ->
  ModalWindow.isModalMinimized o = true ->
  restoreFromDockCallback (manager w) = Some f ->
  let selected := fun e : E =>
    match modalSelectionCallback (manager w) with
    | Some g => g title e
    | None => e
    end in
  env (restoreModalByTitle title w) = f title (selected (f title (env w))) /\
  env (restore modal w) = f title (env w) /\
  env (bringModalToFront modal (restore modal w)) = selected (f title (env w)).
Proof.
  intros Hreach Hget Ho Hmin Hf selected.
  pose proof (reachable_Inv w Hreach) as HI.
  destruct (inv_entry w HI title modal (map_get_elem _ _ _ Hget))
    as (v & Hv & Ht & _ & Hres).
  unfold viewAt in Hv. rewrite Ho in Hv. injection Hv as <-. cbn in Ht, Hres.
  assert (Hrestore : env (restore modal w) = f title (env w)).
  { unfold restore, call. rewrite Ho. unfold ModalWindow.restore.
    unfold ModalWindow.isModalMinimized in Hmin. rewrite Hmin, Hres, Ht.
    cbn. by rewrite Hf. }
  destruct (restore_spec modal w) as (Hm & _ & _ & Hview).
  destruct (bringModalToFront_spec modal (restore modal w)) as (Hbm & _ & Hbe & _).
  assert (Hfocus : env (bringModalToFront modal (restore modal w)) =
                   selected (f title (env w))).
  { rewrite Hbe, Hm, Hrestore. unfold selected.
    rewrite getTitle_viewAt, Hview. unfold viewAt. rewrite Ho. cbn.
    by rewrite Ht. }
  split; [|done].
  unfold restoreModalByTitle. rewrite Hget, Ho, Hmin.
  rewrite notify_env, Hbm, Hm. cbn [restoreFromDockCallback set_activeModal
                                    set_nextZIndex].
  by rewrite Hf, Hfocus.
Qed.


End RestoreFacts.

Section ScenarioFacts2.
Import ModalManager Scenarios.




Lemma scenarioRestore_reachable : reachable scenarioRestore.
Proof. apply reachable_run; [constructor | vm_compute; repeat split; lia]. Qed.

Lemma restoreModalByTitle_notifies_twice_witness :
  env (restoreModalByTitle "Alpha" scenarioRestore)
  = ["Alpha"%string; "Alpha"%string].
Proof.
  refine (proj1 (restoreModalByTitle_notifies_twice scenarioRestore "Alpha" 0
    (default (ModalWindow.create "" 0 0 0 0 "") (store scenarioRestore !! 0))
    (fun title log => log ++ [title])
    scenarioRestore_reachable _ _ _ _)); vm_compute; reflexivity.
Defined.

End ScenarioFacts2.

(* ------------------------------------------------------------------ *)
(** ** Dock synchronisation *)
(* ------------------------------------------------------------------ *)

Section DockFacts.
Import CustomUIManager Scenarios.

(** C2: one window, "Settings", is launched. After a click on the
    application icon of the title bar and the end of its animation the
    window is hidden, yet the dock has no entry and the window's
    [isMinimized] flag is not set; after the menu action "Minimize All"
    from the same state the dock holds the entry "Settings". *)
Theorem app_icon_minimize_adds_no_dock_entry :
  DOMQuery.getAllModals (ModalManager.store (world uiOneWindow)) = [0] /\
  hiddenTitles uiOneWindow = ∅ /\
  hiddenTitles uiAfterAppIcon = {[ "Settings"%string ]} /\
  dockEntries uiAfterAppIcon = ∅ /\
  minimizedTitles uiAfterAppIcon = ∅ /\
  hiddenTitles uiAfterMenuMinimizeAll = {[ "Settings"%string ]} /\
  dockEntries uiAfterMenuMinimizeAll = {[ "Settings"%string ]} /\
  minimizedTitles uiAfterMenuMinimizeAll = {[ "Settings"%string ]}.
Proof. repeat split; vm_compute; reflexivity. Qed.

End DockFacts.

(* ------------------------------------------------------------------ *)
(** ** The store after each method of the registry *)
(* ------------------------------------------------------------------ *)

Section StoreFacts.
Import ModalManager Focus.
Context {E : Type}.
Implicit Types (w : World E) (m modal : Ref) (i : nat).

Lemma store_update modal (f : ModalWindow.t -> ModalWindow.t) w i :
  store (update modal f w) !! i =
  if decide (i = modal) then f <$> store w !! i else store w !! i.
Proof.
  unfold update. cbn [store with_store].
  destruct (decide (i = modal)) as [->|Hne].
  - by rewrite list_lookup_alter_eq.
  - by rewrite list_lookup_alter_ne.
Qed.

Lemma fold_update_store (c : Ref -> bool) (g : ModalWindow.t -> ModalWindow.t)
    (h : Ref -> World E -> World E) (refs : list Ref) w :
  (forall m w, h m w = if c m then update m g w else w) ->
  (forall o, g (g o) = g o) ->
  let w' := fold_left (fun w m => h m w) refs w in
  manager w' = manager w /\ env w' = env w /\ timers w' = timers w /\
  forall i, store w' !! i =
            if decide (i ∈ refs /\ c i = true) then g <$> store w !! i
            else store w !! i.
Proof.
  intros Hh Hidem. revert w.
  induction refs as [|m refs IH]; intros w; cbn [fold_left].
  - do 3 (split; [done|]). intros i. rewrite decide_False; [done|].
    intros [H _]. by apply elem_of_nil in H.
  - destruct (IH (h m w)) as (Hm & He & Ht & Hv).
    assert (Hhm : manager (h m w) = manager w /\ env (h m w) = env w /\
                  timers (h m w) = timers w).
    { rewrite Hh. by destruct (c m). }
    destruct Hhm as (Hm1 & He1 & Ht1).
    rewrite Hm, He, Ht. do 3 (split; [done|]).
    intros i. rewrite Hv.
    assert (Hi : store (h m w) !! i =
                 if decide (i = m /\ c i = true) then g <$> store w !! i
                 else store w !! i).
    { rewrite Hh. destruct (c m) eqn:Hc.
      - rewrite store_update.
        destruct (decide (i = m)) as [->|].
        + by rewrite decide_True.
        + rewrite decide_False; [done | by intros []].
      - rewrite decide_False; [done|]. intros [-> ?]. congruence. }
    rewrite Hi. clear Hv Hi.
    destruct (decide (i ∈ refs /\ c i = true)) as [[Hin Hc]|Hn];
      destruct (decide (i = m /\ c i = true)) as [[Heq Hc']|Hn'];
      destruct (decide (i ∈ m :: refs /\ c i = true)) as [[Hin2 Hc2]|Hn2];
      try done;
      try (exfalso; apply Hn2; split; [apply elem_of_cons; by auto | done]).
    + destruct (store w !! i); simpl; [|done]. by rewrite Hidem.
    + apply elem_of_cons in Hin2 as [->|Hin2]; tauto.
Qed.

Lemma bringModalToFront_store modal w i :
  store (bringModalToFront modal w) !! i =
  if decide (i = modal) then focused (focusZ w) <$> store w !! i
  else if decide (registered i w) then dimmed (9 # 10) <$> store w !! i
  else store w !! i.
Proof.
  unfold bringModalToFront. fold (focusZ w).
  set (w1 := update modal _ (with_manager _ w)).
  rewrite forEach_fold by (intros m s; by case_decide).
  pose (h := fun (m : Ref) (w0 : World E) =>
               if decide (m = modal) then w0 else update m (dimmed (9 # 10)) w0).
  destruct (fold_update_store (fun m => bool_decide (m <> modal)) (dimmed (9 # 10)) h
              (map_values (liveModals w1)) w1) as (Hm & He & Ht & Hv).
  { intros m w0. unfold h. case_decide; case_bool_decide; done. }
  { done. }
  change (fun (s : World E) (m : Ref) =>
            if decide (m = modal) then s
            else update m (fun o => ModalWindow.setActive false
                                      (ModalWindow.setOpacity (9 # 10) o)) s)
    with (fun (s : World E) (m : Ref) => h m s).
  set (w2 := fold_left _ _ w1) in *.
  assert (Hl1 : map_values (liveModals w1) = map_values (modals (manager w))) by done.
  rewrite Hl1 in Hv.
  assert (Hs1 : forall i, store w1 !! i =
            if decide (i = modal) then ModalWindow.setZIndex (focusZ w) <$> store w !! i
            else store w !! i).
  { intros j. unfold w1. by rewrite store_update. }
  clearbody w2 w1.
  rewrite notify_store, store_update. cbn [store with_manager].
  rewrite Hv, Hs1.
  destruct (decide (i = modal)) as [->|Hne].
  - rewrite decide_False by (intros [_ H]; by apply bool_decide_eq_true in H).
    unfold Ref in *. by destruct (store w !! modal).
  - destruct (decide (registered i w)) as [Hr|Hr].
    + rewrite decide_True; [done|]. split; [done | by apply bool_decide_eq_true].
    + rewrite decide_False; [done|]. by intros [? _].
Qed.

Lemma clearActiveModal_store w i :
  store (clearActiveModal w) !! i =
  if decide (registered i w) then dimmed (8 # 10) <$> store w !! i
  else store w !! i.
Proof.
  unfold clearActiveModal.
  rewrite forEach_fold by done.
  pose (h := fun (m : Ref) (w0 : World E) => update m (dimmed (8 # 10)) w0).
  destruct (fold_update_store (fun _ => true) (dimmed (8 # 10)) h
              (map_values (liveModals w)) w) as (Hm & He & Ht & Hv); try done.
  change (fun (s : World E) (m : Ref) =>
            update m (fun o => ModalWindow.setActive false
                                 (ModalWindow.setOpacity (8 # 10) o)) s)
    with (fun (s : World E) (m : Ref) => h m s).
  set (w2 := fold_left _ _ w) in *. clearbody w2.
  rewrite notify_store. cbn [store with_manager]. rewrite Hv.
  destruct (decide (registered i w)) as [Hr|Hr].
  - by rewrite decide_True.
  - rewrite decide_False; [done|]. by intros [? _].
Qed.

Lemma clearActiveModal_env w :
  env (clearActiveModal w) =
  match modalSelectionCallback (manager w) with
  | Some f => f ""%string (env w)
  | None => env w
  end.
Proof.
  unfold clearActiveModal.
  rewrite forEach_fold by done.
  pose (h := fun (m : Ref) (w0 : World E) => update m (dimmed (8 # 10)) w0).
  destruct (fold_update_store (fun _ => true) (dimmed (8 # 10)) h
              (map_values (liveModals w)) w) as (Hm & He & Ht & Hv); try done.
  change (fun (s : World E) (m : Ref) =>
            update m (fun o => ModalWindow.setActive false
                                 (ModalWindow.setOpacity (8 # 10) o)) s)
    with (fun (s : World E) (m : Ref) => h m s).
  set (w2 := fold_left _ _ w) in *. clearbody w2.
  rewrite notify_env. cbn [env manager with_manager modalSelectionCallback
                            set_activeModal].
  by rewrite Hm, He.
Qed.

(** [call]: the object is replaced by the result of the method, then the
    notification runs. *)
Lemma call_store modal
    (method : ModalWindow.t -> ModalWindow.t * ModalWindow.Call) w i :
  store (call modal method w) !! i =
  if decide (i = modal) then (fun o => fst (method o)) <$> store w !! i
  else store w !! i.
Proof.
  unfold call. unfold Ref in *. destruct (store w !! modal) as [o|] eqn:Ho.
  - destruct (method o) as [o' c] eqn:Hmo.
    assert (Hs : store (runCallback c (with_store (fun st => <[modal:=o']> st) w))
                 = <[modal:=o']> (store w)).
    { unfold runCallback. destruct c as [[[] t]|]; [| |done];
        by rewrite notify_store. }
    rewrite Hs. destruct (decide (i = modal)) as [->|Hne].
    + rewrite list_lookup_insert_eq by (by eapply lookup_lt_Some).
      rewrite Ho. cbn. by rewrite Hmo.
    + by rewrite list_lookup_insert_ne.
  - case_decide; [subst; by rewrite Ho | done].
Qed.

Lemma call_env modal
    (method : ModalWindow.t -> ModalWindow.t * ModalWindow.Call) w :
  env (call modal method w) =
  match store w !! modal with
  | Some o =>
      match snd (method o) with
      | Some (ModalWindow.ManagerOnMinimize, t) =>
          match minimizeCallback (manager w) with
          | Some f => f t (env w) | None => env w end
      | Some (ModalWindow.ManagerOnRestore, t) =>
          match restoreFromDockCallback (manager w) with
          | Some f => f t (env w) | None => env w end
      | None => env w
      end
  | None => env w
  end.
Proof.
  unfold call. destruct (store w !! modal) as [o|]; [|done].
  destruct (method o) as [o' c]. cbn [snd].
  unfold runCallback. destruct c as [[[] t]|]; [| |done];
    by rewrite notify_env.
Qed.

Lemma bringModalToFront_blind {A : Type} (rd : ModalWindow.t -> A) modal w
    (i : nat) :
  style_blind rd ->
  rd <$> store (bringModalToFront modal w) !! i = rd <$> store w !! i.
Proof.
  intros (Hz & Hq & Ha). rewrite bringModalToFront_store.
  unfold focused, dimmed.
  repeat case_decide; destruct (store w !! i);
    cbn [fmap option_fmap option_map]; try done;
    by rewrite ?Ha, ?Hq, ?Hz.
Qed.

Lemma clearActiveModal_blind {A : Type} (rd : ModalWindow.t -> A) w (i : nat) :
  style_blind rd ->
  rd <$> store (clearActiveModal w) !! i = rd <$> store w !! i.
Proof.
  intros (Hz & Hq & Ha). rewrite clearActiveModal_store. unfold dimmed.
  case_decide; destruct (store w !! i);
    cbn [fmap option_fmap option_map]; try done; by rewrite ?Ha, ?Hq.
Qed.

End StoreFacts.

(* ------------------------------------------------------------------ *)
(** ** One window: minimize, restore, maximize and drag *)
(* ------------------------------------------------------------------ *)

Section WindowFacts2.
Local Open Scope Q_scope.
Import ModalWindow.

(** X1: [minimize] followed by [restore] gives back a visible window that
    was not minimized, and [restore] then notifies with the title. *)
Theorem minimize_then_restore (m : ModalWindow.t) :
  isMinimized (state m) = false ->
  style_display (element m) = DisplayFlex ->
  restore (fst (minimize m)) =
  (m, option_map (fun cb => (cb, title m)) (restoreCallback m)).
Proof.
  intros Hmin Hdisp.
  destruct m as [e t w h l tp c s mc rc]. destruct e, s. cbn in *.
  by subst.
Qed.

Lemma minimize_then_restore_witness :
  restore (fst (minimize (create "Alpha" 600 400 100 100 "#007acc"))) =
  (create "Alpha" 600 400 100 100 "#007acc", None).
Proof. by apply minimize_then_restore. Defined.

(** X2: [minimize] has no guard: on a window that is already minimized it
    changes nothing and notifies again. [restore] has one: a second
    [restore] changes nothing and does not notify. *)
Theorem minimize_unguarded_restore_guarded (m : ModalWindow.t) :
  minimize (fst (minimize m)) = minimize m /\
  restore (fst (restore m)) = (fst (restore m), None).
Proof.
  destruct m as [e t w h l tp c s mc rc]. destruct e, s as [mi ma a z o].
  split; [done|]. by destruct mi.
Qed.


End WindowFacts2.

Section DragFacts.
Local Open Scope Q_scope.
Import Draggable.

Lemma dispatch_moved d m ev :
  moved m (snd (dispatch (d, m) ev)).
Proof.
  destruct m as [e t w h l tp c s mc rc]. destruct e.
  destruct ev as [b x y r|x y|]; cbn.
  - done.
  - destruct (listening d); [|done]. unfold onMouseMove.
    by destruct (isDragging d).
  - by destruct (listening d).
Qed.

Lemma moved_trans m1 m2 m3 : moved m1 m2 -> moved m2 m3 -> moved m1 m3.
Proof.
  unfold moved, position, ModalWindow.with_element, set_position,
    ModalWindow.set_geometry.
  intros H1 H2.
  destruct m3 as [e3 ? ? ? ? ? ? ? ? ?], m2 as [e2 ? ? ? ? ? ? ? ? ?],
           m1 as [e1 ? ? ? ? ? ? ? ? ?].
  destruct e1, e2, e3. cbn in *.
  injection H1 as ?. injection H2 as ?. by subst.
Qed.

Lemma moved_refl m : moved m m.
Proof. destruct m as [e ? ? ? ? ? ? ? ? ?]. by destruct e. Qed.

Lemma run_moved evs d m : moved m (snd (run evs (d, m))).
Proof.
  revert d m. induction evs as [|ev evs IH]; intros d m.
  - apply moved_refl.
  - unfold run. cbn [fold_left].
    destruct (dispatch (d, m) ev) as [d' m'] eqn:Hd.
    eapply moved_trans; [|apply IH].
    pose proof (dispatch_moved d m ev) as H. by rewrite Hd in H.
Qed.

(** The listeners are attached exactly while [isDragging] is set, so
    the test [if (!isDragging) return] never succeeds. *)
Lemma run_listening evs d m :
  listening d = isDragging d ->
  listening (fst (run evs (d, m))) = isDragging (fst (run evs (d, m))).
Proof.
  revert d m. induction evs as [|ev evs IH]; intros d m Hd; [done|].
  unfold run. cbn [fold_left].
  destruct (dispatch (d, m) ev) as [d' m'] eqn:Hs.
  apply IH.
  destruct ev as [b x y r|x y|]; cbn in Hs.
  - inversion Hs; subst. unfold onMouseDown. by destruct b.
  - destruct (listening d) eqn:Hl; rewrite ?Hl in Hs; inversion Hs; subst;
      by rewrite ?Hl.
  - destruct (listening d) eqn:Hl; rewrite ?Hl in Hs; inversion Hs; subst;
      cbn; by rewrite ?Hl.
Qed.

Lemma run_moves d m (moves : list (Q * Q)) :
  listening d = true -> isDragging d = true ->
  let s := run (map (fun p => MouseMove (fst p) (snd p)) moves) (d, m) in
  fst s = d /\
  position (snd s) =
    match last moves with
    | Some p => (ModalWindow.Px (startLeft d + (fst p - startX d)),
                 ModalWindow.Px (startTop d + (snd p - startY d)))
    | None => position m
    end.
Proof.
  intros Hl Hg. cbv zeta. revert m.
  induction moves as [|p moves IH]; intros m; [by split|].
  unfold run. cbn [map fold_left dispatch]. rewrite Hl.
  destruct (IH (onMouseMove (fst p) (snd p) d m)) as [H1 H2].
  unfold run in H1, H2. split; [exact H1|]. rewrite H2.
  destruct moves as [|q moves].
  2:{ change (last (p :: q :: moves)) with (last (q :: moves)).
      destruct (last (q :: moves)) eqn:Hq; [reflexivity|].
      by apply last_None in Hq. }
  cbn. unfold onMouseMove. by rewrite Hg.
Qed.

(** X4: A drag: [mousedown] on the title bar outside its buttons, at
    [(x0, y0)] with the dialog measured at [rect], then [mousemove]
    events. The style position is the measured position plus the
    displacement of the pointer at the last move, whatever the state
    before and the moves in between; nothing else of the window
    changes; nothing bounds the position. *)
Theorem drag_position d m x0 y0 rect (moves : list (Q * Q)) x y :
  last moves = Some (x, y) ->
  let s := run (MouseDown false x0 y0 rect ::
                map (fun p => MouseMove (fst p) (snd p)) moves) (d, m) in
  position (snd s) =
    (ModalWindow.Px (ModalWindow.rect_left rect + (x - x0)),
     ModalWindow.Px (ModalWindow.rect_top rect + (y - y0))) /\
  moved m (snd s).
Proof.
  intros Hlast s. split; [|apply run_moved].
  unfold s, run. cbn [fold_left dispatch onMouseDown].
  set (d1 := mk true x0 y0 _ _ true).
  destruct (run_moves d1 m moves eq_refl eq_refl) as [_ H].
  unfold run in H. rewrite H, Hlast. done.
Qed.

Lemma drag_position_witness :
  position (snd (run [MouseDown false 10 10 (ModalWindow.mkRect 600 400 100 140);
                      MouseMove 50 20; MouseMove (-200) 5]
                   (makeDraggable,
                    ModalWindow.create "Alpha" 600 400 100 100 "#007acc"))) =
  (ModalWindow.Px (100 + (-200 - 10)), ModalWindow.Px (140 + (5 - 10))).
Proof.
  exact (proj1 (drag_position makeDraggable
                  (ModalWindow.create "Alpha" 600 400 100 100 "#007acc")
                  10 10 (ModalWindow.mkRect 600 400 100 140)
                  [(50, 20); (-200, 5)] (-200) 5 eq_refl)).
Defined.

Lemma run_idle evs d m :
  Forall idle evs -> listening d = false -> run evs (d, m) = (d, m).
Proof.
  intros Hevs Hl. induction Hevs as [|ev evs Hev _ IH]; [done|].
  unfold run. cbn [fold_left].
  assert (Hd : dispatch (d, m) ev = (d, m)).
  { destruct ev as [b x y r|x y|]; cbn in *; rewrite ?Hl; [|done..].
    by rewrite Hev. }
  rewrite Hd. exact IH.
Qed.

(** X5: Outside a drag the pointer does not move the window: after a
    [mouseup], and from the state [makeDraggable] leaves, [mousemove]
    events and presses on the buttons of the title bar change
    nothing. *)
Theorem no_drag_no_move evs d m :
  Forall idle evs ->
  snd (run (MouseUp :: evs) (d, m)) = m /\
  run evs (makeDraggable, m) = (makeDraggable, m).
Proof.
  intros Hevs. split; [|by apply run_idle].
  unfold run. cbn [fold_left dispatch].
  destruct (listening d) eqn:Hl.
  - fold (run evs (onMouseUp d, m)). by rewrite run_idle.
  - fold (run evs (d, m)). by rewrite run_idle.
Qed.

Lemma no_drag_no_move_witness :
  snd (run [MouseUp; MouseMove 5 5; MouseDown true 1 1 (ModalWindow.mkRect 600 400 100 140);
            MouseMove 300 300]
         (mk true 0 0 100 140 true,
          ModalWindow.create "Alpha" 600 400 100 100 "#007acc")) =
  ModalWindow.create "Alpha" 600 400 100 100 "#007acc".
Proof.
  refine (proj1 (no_drag_no_move
                   [MouseMove 5 5;
                    MouseDown true 1 1 (ModalWindow.mkRect 600 400 100 140);
                    MouseMove 300 300] _ _ _)).
  repeat constructor.
Defined.

(** X6: From the state [makeDraggable] leaves, the two document listeners
    are attached exactly while [isDragging] is set: the test
    [if (!isDragging) return] of [onMouseMove] never succeeds. *)
Theorem listeners_attached_iff_dragging evs m :
  let d := fst (run evs (makeDraggable, m)) in
  listening d = isDragging d.
Proof. by apply run_listening. Qed.

End DragFacts.

(* ------------------------------------------------------------------ *)
(** ** [createModal]: new and repeated titles *)
(* ------------------------------------------------------------------ *)

Section CreateFacts.
Import ModalManager Focus.
Context {E : Type}.
Implicit Types (w : World E) (m modal : Ref) (i : nat).

Lemma map_set_fresh k v (l : list (string * Ref)) :
  k ∉ l.*1 -> map_set k v l = l ++ [(k, v)].
Proof.
  induction l as [|[k' v'] l IH]; intros Hk; [done|].
  cbn in *. apply not_elem_of_cons in Hk as [Hne Hk].
  destruct (String.eqb_spec k' k) as [->|_]; [done|].
  by rewrite IH.
Qed.

Lemma map_get_map_set k v (l : list (string * Ref)) :
  map_get k (map_set k v l) = Some v.
Proof.
  unfold map_get. induction l as [|[k' v'] l IH]; cbn.
  - by rewrite String.eqb_refl.
  - destruct (String.eqb_spec k' k) as [->|Hne]; cbn.
    + by rewrite String.eqb_refl.
    + destruct (String.eqb_spec k' k); [done|]. exact IH.
Qed.

Lemma Inv_values_NoDup w : Inv w -> NoDup (map_values (modals (manager w))).
Proof.
  intros [I1 I2 _ _ _ _]. unfold map_values.
  apply NoDup_fmap_2_strong; [|by eapply NoDup_fmap_1].
  intros [k1 m1] [k2 m2] H1 H2. cbn. intros <-.
  destruct (I1 _ _ H1) as (v1 & Hv1 & <- & _).
  destruct (I1 _ _ H2) as (v2 & Hv2 & <- & _).
  rewrite Hv1 in Hv2. by injection Hv2 as <-.
Qed.

Lemma Inv_registered_allocated w m :
  Inv w -> registered m w -> m < length (store w).
Proof.
  intros HI [k Hk]%registered_entry.
  destruct (inv_entry w HI k m Hk) as (v & Hv & _).
  apply viewAt_allocated. by rewrite Hv.
Qed.

(** The object [createModal] allocates. *)
Lemma createModal_store title width height x y color w i :
  let object :=
    ModalWindow.onRestore ModalWindow.ManagerOnRestore
      (ModalWindow.onMinimize ModalWindow.ManagerOnMinimize
         (ModalWindow.create title width height x y color)) in
  let w' := fst (createModal title width height x y color w) in
  store w' !! i =
  if decide (i = length (store w)) then Some (focused (focusZ w) object)
  else if decide (i ∈ map_values (map_set title (length (store w))
                                   (modals (manager w))))
       then dimmed (9 # 10) <$> store w !! i
       else store w !! i.
Proof.
  intros object w'. unfold w', createModal. cbn [fst].
  rewrite bringModalToFront_store.
  fold object.
  set (w1 := with_manager _ (with_store _ w)).
  assert (Hs : store w1 = store w ++ [object]) by done.
  assert (Hf : focusZ w1 = focusZ w) by done.
  assert (Hr : forall j, registered j w1 <->
                 j ∈ map_values (map_set title (length (store w))
                                   (modals (manager w)))) by done.
  clearbody w1. rewrite Hs, Hf. unfold Ref in *.
  destruct (decide (i = length (store w))) as [->|Hne].
  - rewrite lookup_app_r by lia. rewrite Nat.sub_diag. reflexivity.
  - assert (Hi : (store w ++ [object]) !! i = store w !! i).
    { destruct (decide (i < length (store w))).
      - by rewrite lookup_app_l.
      - rewrite !lookup_ge_None_2; [done|lia|].
        rewrite length_app. cbn. lia. }
    rewrite Hi.
    destruct (decide (registered i w1)) as [H|H];
      destruct (decide (i ∈ _)) as [H'|H']; try done.
    + by apply Hr in H.
    + by apply Hr in H'.
Qed.

Lemma createModal_manager title width height x y color w :
  manager (fst (createModal title width height x y color w)) =
  set_activeModal (Some (length (store w)))
    (set_nextZIndex (focusZ w)
       (set_modals (map_set title (length (store w)) (modals (manager w)))
          (manager w))).
Proof.
  unfold createModal. cbn [fst].
  set (w1 := with_manager _ (with_store _ w)).
  destruct (bringModalToFront_spec (length (store w)) w1) as (Hm & _).
  by rewrite Hm.
Qed.

Lemma createModal_timers_env title width height x y color w :
  timers (fst (createModal title width height x y color w)) = timers w /\
  env (fst (createModal title width height x y color w)) =
    match modalSelectionCallback (manager w) with
    | Some f => f title (env w)
    | None => env w
    end.
Proof.
  unfold createModal. cbn [fst].
  set (o := ModalWindow.onRestore _ _).
  set (w1 := with_manager _ (with_store _ w)).
  destruct (bringModalToFront_spec (length (store w)) w1) as (_ & Ht & He & _).
  rewrite Ht, He. split; [done|].
  assert (Hg : getTitle (length (store w)) w1 = title).
  { unfold getTitle, w1. cbn [store with_manager with_store].
    unfold Ref in *. rewrite lookup_app_r by lia. by rewrite Nat.sub_diag. }
  by rewrite Hg.
Qed.

(** X7: A title that is not registered: the new window is appended to the
    collection, focused with the next z-index and recorded as active;
    the windows registered before are dimmed and lose the flag; no
    other object changes. *)
Theorem createModal_new_title title width height x y color w :
  title ∉ (modals (manager w)).*1 ->
  let w' := fst (createModal title width height x y color w) in
  let modal := snd (createModal title width height x y color w) in
  modal = length (store w) /\
  modals (manager w') = modals (manager w) ++ [(title, modal)] /\
  getActiveModal w' = Some modal /\
  active modal w' /\
  zIndexOf modal w' = focusZ w /\
  getTitle modal w' = title /\
  forall i : nat, i <> modal ->
    store w' !! i =
    if decide (registered i w) then dimmed (9 # 10) <$> store w !! i
    else store w !! i.
Proof.
  intros Hfresh. cbv zeta.
  change (snd (createModal title width height x y color w))
    with (length (store w)).
  set (w' := fst (createModal title width height x y color w)).
  assert (Hnew := createModal_store title width height x y color w
                    (length (store w))).
  cbv zeta in Hnew. fold w' in Hnew. rewrite decide_True in Hnew by done.
  split; [done|]. split.
  { unfold w'. rewrite createModal_manager. cbn. by rewrite map_set_fresh. }
  split. { unfold w', getActiveModal. by rewrite createModal_manager. }
  split. { eexists. split; [exact Hnew|done]. }
  split. { unfold zIndexOf, Ref. by rewrite Hnew. }
  split. { unfold getTitle, Ref. by rewrite Hnew. }
  intros i Hi.
  pose proof (createModal_store title width height x y color w i) as H.
  cbv zeta in H. fold w' in H. rewrite H, decide_False by done.
  rewrite map_set_fresh by done. unfold map_values. rewrite fmap_app. cbn.
  destruct (decide (registered i w)) as [Hr|Hr].
  - rewrite decide_True; [done|]. apply elem_of_app. by left.
  - rewrite decide_False; [done|].
    by intros [?|?%list_elem_of_singleton]%elem_of_app.
Qed.

(** X8: A title that is already registered to [old]: the entry keeps its
    place and now names the new window; [old] leaves the collection
    but its object is not touched, so if it carried the active flag it
    still does, next to the new window. *)
Theorem createModal_registered_title title width height x y color w old :
  Inv w ->
  map_get title (modals (manager w)) = Some old ->
  let w' := fst (createModal title width height x y color w) in
  let modal := length (store w) in
  (modals (manager w')).*1 = (modals (manager w)).*1 /\
  map_get title (modals (manager w')) = Some modal /\
  ~ registered old w' /\
  store w' !! old = store w !! old /\
  active modal w' /\
  (active old w -> active old w').
Proof.
  intros HI Hold w' modal.
  pose proof (map_get_elem _ _ _ Hold) as Hin.
  assert (Hlt : old < length (store w)).
  { apply Inv_registered_allocated; [done|]. apply registered_entry. eauto. }
  assert (Hm : modals (manager w') =
               map_set title modal (modals (manager w))).
  { unfold w'. by rewrite createModal_manager. }
  assert (Hnr : old ∉ map_values (map_set title modal (modals (manager w)))).
  { intros [[k' o'] [Ho Hk]]%list_elem_of_fmap. cbn in Ho. subst o'.
    pose proof (map_set_NoDup title modal _ (inv_keys w HI)) as Hnd.
    destruct (decide (k' = title)) as [->|Hne].
    - pose proof (map_get_NoDup _ _ _ Hnd Hk) as H1.
      rewrite map_get_map_set in H1. injection H1 as H1. unfold modal in H1. lia.
    - apply elem_of_map_set in Hk as [[= ? ?]|Hk]; [done|].
      destruct (inv_entry w HI _ _ Hk) as (v1 & Hv1 & Ht1 & _).
      destruct (inv_entry w HI _ _ Hin) as (v2 & Hv2 & Ht2 & _).
      rewrite Hv1 in Hv2. injection Hv2 as <-. congruence. }
  assert (Hst : store w' !! old = store w !! old).
  { pose proof (createModal_store title width height x y color w old) as H.
    cbv zeta in H. fold w' in H. unfold Ref in *. rewrite H.
    rewrite decide_False by lia. by rewrite decide_False. }
  split.
  { rewrite Hm, map_set_keys, decide_True; [done|].
    apply list_elem_of_fmap. by exists (title, old). }
  split. { by rewrite Hm, map_get_map_set. }
  split. { unfold registered. by rewrite Hm. }
  split; [done|]. split.
  - pose proof (createModal_store title width height x y color w modal) as H.
    cbv zeta in H. fold w' in H. rewrite decide_True in H by done.
    eexists. split; [exact H|done].
  - intros (o & Ho & Ha). exists o. unfold Ref in *. by rewrite Hst.
Qed.

End CreateFacts.

Section CreateWitnesses.
Import ModalManager Scenarios.

Lemma createModal_new_title_witness :
  modals (manager (fst (createModal "Gamma" 500 400 300 300 "#95a5a6" scenarioA))) =
    modals (manager scenarioA) ++ [("Gamma"%string, 2)] /\
  getActiveModal (fst (createModal "Gamma" 500 400 300 300 "#95a5a6" scenarioA)) =
    Some 2.
Proof.
  assert (H : "Gamma"%string ∉ (modals (manager scenarioA)).*1).
  { intros H%list_elem_of_In. vm_compute in H. intuition discriminate. }
  pose proof (createModal_new_title "Gamma" 500 400 300 300 "#95a5a6"
                scenarioA H) as (_ & Hm & Ha & _).
  split; [exact Hm | exact Ha].
Defined.

Lemma createModal_registered_title_witness :
  map_get "Alpha" (modals (manager
     (fst (createModal "Alpha" 500 400 300 300 "#95a5a6" scenarioA)))) = Some 2 /\
  ~ registered 0 (fst (createModal "Alpha" 500 400 300 300 "#95a5a6" scenarioA)).
Proof.
  pose proof (createModal_registered_title "Alpha" 500 400 300 300 "#95a5a6"
                scenarioA 0 (reachable_Inv _ scenarioA_reachable) eq_refl)
    as (_ & Hg & Hn & _).
  split; [exact Hg | exact Hn].
Defined.

End CreateWitnesses.

(* ------------------------------------------------------------------ *)
(** ** [clearActiveModal], [resetModalZIndexes], [restoreModalByTitle] *)
(* ------------------------------------------------------------------ *)

Section MethodFacts.
Import ModalManager Focus.
Context {E : Type}.
Implicit Types (w : World E) (m modal : Ref) (i : nat).

(** X9: A background click: no registered window keeps the flag, none is
    recorded as active, the stacking order and the collection are as
    before, every registered window is dimmed to 0.8, and the selection
    callback receives the empty title. *)
Theorem clearActiveModal_deactivates_all w :
  let w' := clearActiveModal w in
  getActiveModal w' = None /\
  modals (manager w') = modals (manager w) /\
  (forall m, registered m w' -> ~ active m w') /\
  (forall m, zIndexOf m w' = zIndexOf m w) /\
  (forall i : nat, store w' !! i =
     if decide (registered i w) then dimmed (8 # 10) <$> store w !! i
     else store w !! i) /\
  env w' = match modalSelectionCallback (manager w) with
           | Some f => f ""%string (env w)
           | None => env w
           end.
Proof.
  intros w'. destruct (clearActiveModal_spec w) as (Hm & _ & Hv).
  fold w' in Hm, Hv.
  split. { unfold getActiveModal. by rewrite Hm. }
  split. { by rewrite Hm. }
  split.
  { intros m Hr (v & Hvm & Ha)%active_view.
    assert (Hr' : registered m w) by (unfold registered in *; by rewrite Hm in Hr).
    rewrite Hv, decide_True in Hvm by done.
    destruct (viewAt w m); [|done]. cbn in Hvm. injection Hvm as <-. done. }
  split.
  { intros m. rewrite !zIndexOf_viewAt, Hv.
    case_decide; [|done]. by destruct (viewAt w m). }
  split; [apply clearActiveModal_store | apply clearActiveModal_env].
Qed.

(** *** [resetModalZIndexes] *)

Lemma reset_fold_store (refs : list Ref) w (z0 : Z) :
  NoDup refs ->
  let s := fold_left (fun s m => resetStep m s) refs (w, z0) in
  (forall (j : nat) m, refs !! j = Some m ->
     store (fst s) !! m =
     ModalWindow.setZIndex (z0 + Z.of_nat j) <$> store w !! m) /\
  (forall i : nat, i ∉ refs -> store (fst s) !! i = store w !! i).
Proof.
  intros Hnd. revert w z0.
  induction Hnd as [|m refs Hm Hnd IH]; intros w z0; cbn [fold_left].
  - split; [done|]. done.
  - change (resetStep m (w, z0))
      with (update m (ModalWindow.setZIndex z0) w, (z0 + 1)%Z).
    destruct (IH (update m (ModalWindow.setZIndex z0) w) (z0 + 1)%Z)
      as [Hin Hnin].
    cbv zeta in *. split.
    + intros [|j] m' Hj; cbn in Hj.
      * injection Hj as <-. unfold Ref in *.
        rewrite (Hnin m Hm), store_update, decide_True by done.
        by rewrite Z.add_0_r.
      * assert (m' ∈ refs) by (by eapply list_elem_of_lookup_2).
        unfold Ref in *.
        rewrite (Hin j m' Hj), store_update, decide_False by congruence.
        by replace (z0 + Z.of_nat (S j))%Z with (z0 + 1 + Z.of_nat j)%Z by lia.
    + intros i [Hne Hi]%not_elem_of_cons. unfold Ref in *.
      by rewrite (Hnin i Hi), store_update, decide_False.
Qed.

Lemma resetModalZIndexes_store w :
  NoDup (map_values (modals (manager w))) ->
  let w' := resetModalZIndexes w in
  (forall (j : nat) m, map_values (modals (manager w)) !! j = Some m ->
     store w' !! m =
     ModalWindow.setZIndex (1000 + Z.of_nat j) <$> store w !! m) /\
  (forall i : nat, ~ registered i w -> store w' !! i = store w !! i).
Proof.
  intros Hnd. unfold resetModalZIndexes.
  rewrite forEach_fold by done.
  change (fun (s : World E * Z) (m : Ref) =>
            (update m (ModalWindow.setZIndex (snd s)) (fst s), (snd s + 1)%Z))
    with (fun (s : World E * Z) (m : Ref) => resetStep m s).
  cbn [fst].
  destruct (reset_fold_store (map_values (liveModals w)) w 1000 Hnd)
    as (Hin & Hnin).
  destruct (fold_left _ _ _) as [w' z']. cbn [fst snd] in *.
  split; [exact Hin | exact Hnin].
Qed.

(** X10: "Bring All to Front": the windows are renumbered from 1000 in the
    order of the collection, so the window at position [j] gets
    [1000 + j], the counter ends at 1000 plus the number of windows,
    and neither the recorded active window nor any active flag
    changes. The window on top is then the one inserted last, active
    or not. *)
Theorem resetModalZIndexes_insertion_order w (j : nat) m :
  reachable w ->
  map_values (modals (manager w)) !! j = Some m ->
  let w' := resetModalZIndexes w in
  zIndexOf m w' = (1000 + Z.of_nat j)%Z /\
  nextZIndex (manager w') =
    (1000 + Z.of_nat (length (modals (manager w))))%Z /\
  getActiveModal w' = getActiveModal w /\
  (forall i, active i w' <-> active i w) /\
  (forall m', registered m' w' -> m' <> m ->
     last (map_values (modals (manager w))) = Some m ->
     (zIndexOf m' w' < zIndexOf m w')%Z).
Proof.
  intros Hreach Hj w'.
  pose proof (reachable_Inv _ Hreach) as HI.
  pose proof (Inv_values_NoDup w HI) as Hnd.
  destruct (resetModalZIndexes_store w Hnd) as [Hin Hnin]. fold w' in Hin, Hnin.
  destruct (resetModalZIndexes_spec w) as (Hm & _ & Hv). fold w' in Hm, Hv.
  assert (Hz : forall (j : nat) m, map_values (modals (manager w)) !! j = Some m ->
                 zIndexOf m w' = (1000 + Z.of_nat j)%Z).
  { intros j' m' Hj'.
    assert (Hlt : m' < length (store w)).
    { apply Inv_registered_allocated; [done|]. by eapply list_elem_of_lookup_2. }
    apply lookup_lt_is_Some in Hlt as [o Ho].
    unfold zIndexOf, Ref in *. by rewrite (Hin j' m' Hj'), Ho. }
  split; [by apply Hz|].
  split. { by rewrite Hm. }
  split. { unfold getActiveModal. by rewrite Hm. }
  split.
  { intros i. rewrite !active_view. destruct (Hv i) as [H1 H2].
    destruct (decide (registered i w)) as [Hr|Hr].
    - destruct (H1 Hr) as (z & _ & ->). destruct (viewAt w i) as [v|]; cbn.
      + split; intros (v' & [= <-] & Ha); eexists; (split; [done|]); done.
      + split; intros (v' & ? & _); done.
    - by rewrite (H2 Hr). }
  intros m' Hr' Hne Hlast.
  assert (Hr : registered m' w) by (unfold registered in *; by rewrite Hm in Hr').
  apply list_elem_of_lookup_1 in Hr as [j' Hj'].
  rewrite (Hz _ _ Hj'), (Hz _ _ Hj).
  rewrite last_lookup in Hlast.
  assert (j' < length (map_values (modals (manager w)))) by (by eapply lookup_lt_Some).
  assert (j = Nat.pred (length (map_values (modals (manager w))))).
  { eapply NoDup_lookup; eauto. }
  assert (j' <> j) by (intros ->; congruence).
  lia.
Qed.

(** *** [restoreModalByTitle] *)

(** X11: A dock click for a title that names no window, or a window that is
    not minimized, changes nothing: no focus, no notification. *)
Theorem restoreModalByTitle_miss title w :
  (forall m o, map_get title (modals (manager w)) = Some m ->
               store w !! m = Some o ->
               ModalWindow.isModalMinimized o = false) ->
  restoreModalByTitle title w = w.
Proof.
  intros H. unfold restoreModalByTitle.
  destruct (map_get title (modals (manager w))) as [m|]; [|done].
  destruct (store w !! m) as [o|] eqn:Ho; [|done].
  by rewrite (H m o eq_refl Ho).
Qed.

(** X12: A dock click for a minimized window: the window is shown again,
    focused with the next z-index and recorded as active; every other
    registered window is dimmed. *)
Theorem restoreModalByTitle_restores title w m o :
  map_get title (modals (manager w)) = Some m ->
  store w !! m = Some o ->
  ModalWindow.isModalMinimized o = true ->
  let w' := restoreModalByTitle title w in
  store w' !! m = Some (focused (focusZ w) (fst (ModalWindow.restore o))) /\
  (exists o', store w' !! m = Some o' /\
     ModalWindow.isModalMinimized o' = false /\
     ModalWindow.style_display (ModalWindow.element o') = ModalWindow.DisplayFlex) /\
  getActiveModal w' = Some m /\
  modals (manager w') = modals (manager w) /\
  (forall i : nat, i <> m -> store w' !! i =
     if decide (registered i w) then dimmed (9 # 10) <$> store w !! i
     else store w !! i).
Proof.
  intros Hget Ho Hmin w'. unfold w', restoreModalByTitle.
  rewrite Hget. unfold Ref in *. rewrite Ho, Hmin.
  set (w1 := restore m w).
  destruct (restore_spec m w) as (Hm1 & _ & _ & _). fold w1 in Hm1.
  assert (Hs1 : forall i : nat, store w1 !! i =
            if decide (i = m) then (fun o => fst (ModalWindow.restore o)) <$> store w !! i
            else store w !! i).
  { intros i. apply call_store. }
  assert (Hf : focusZ w1 = focusZ w) by (unfold focusZ; by rewrite Hm1).
  assert (Hr : forall i, registered i w1 <-> registered i w).
  { intros i. unfold registered. by rewrite Hm1. }
  destruct (bringModalToFront_spec m w1) as (Hm2 & _).
  pose proof (bringModalToFront_store m w1) as Hs2.
  set (w2 := bringModalToFront m w1) in *. clearbody w2 w1.
  assert (Hmm : store (notify (restoreFromDockCallback (manager w2)) title w2) !! m
                = Some (focused (focusZ w) (fst (ModalWindow.restore o)))).
  { rewrite notify_store, Hs2, decide_True, Hs1, decide_True, Ho, Hf by done.
    done. }
  split; [exact Hmm|]. split.
  { eexists. split; [exact Hmm|]. unfold ModalWindow.restore.
    unfold ModalWindow.isModalMinimized in Hmin. rewrite Hmin. done. }
  split. { unfold getActiveModal. by rewrite notify_manager, Hm2. }
  split. { by rewrite notify_manager, Hm2, Hm1. }
  intros i Hi. rewrite notify_store, Hs2, decide_False, !Hs1 by done.
  rewrite !(decide_False (P := i = m)) by done.
  destruct (decide (registered i w1)) as [H|H];
    destruct (decide (registered i w)) as [H'|H']; try done.
  - by apply Hr in H.
  - by apply Hr in H'.
Qed.

End MethodFacts.

(* ------------------------------------------------------------------ *)
(** ** The timer of [closeModal] *)
(* ------------------------------------------------------------------ *)

Section CloseTimerFacts.
Import ModalManager Focus Close.
Context {E : Type}.
Implicit Types (w : World E) (m modal : Ref) (i : nat).

Lemma getTitle_ext w w' m :
  viewAt w' m = viewAt w m -> getTitle m w' = getTitle m w.
Proof. intros H. by rewrite !getTitle_viewAt, H. Qed.

Lemma viewAt_title_fmap (f : View -> View) w m :
  (forall v, v_title (f v) = v_title v) ->
  default ""%string (v_title <$> (f <$> viewAt w m)) =
  default ""%string (v_title <$> viewAt w m).
Proof. intros H. destruct (viewAt w m); cbn; [apply H | done]. Qed.

Lemma getTitle_bringModalToFront modal w m :
  getTitle m (bringModalToFront modal w) = getTitle m w.
Proof.
  destruct (bringModalToFront_spec modal w) as (_ & _ & _ & Hv).
  rewrite !getTitle_viewAt, Hv.
  repeat case_decide; try done; by apply viewAt_title_fmap.
Qed.

Lemma viewAt_removed modal w i : viewAt (removed modal w) i = viewAt w i.
Proof.
  unfold removed. rewrite viewAt_with_manager.
  rewrite (viewAt_update _ _ id) by done.
  case_decide; [|done]. by destruct (viewAt w i).
Qed.

(** The timer body, with the title and the callback read in the state
    in which the timer fires. *)
Lemma closeModal_timeout_unfold modal w :
  closeModal_timeout modal w =
  notify (closeCallback (manager w)) (getTitle modal w)
    (if decide (activeModal (manager w) = Some modal) then
       match last (map_values (map_delete (getTitle modal w)
                                 (modals (manager w)))) with
       | Some r => bringModalToFront r
                     (with_manager (set_activeModal None) (removed modal w))
       | None => with_manager (set_activeModal None) (removed modal w)
       end
     else removed modal w).
Proof.
  unfold closeModal_timeout.
  assert (Ht : getTitle modal (update modal detach w) = getTitle modal w).
  { apply getTitle_ext. rewrite (viewAt_update _ _ id) by done.
    case_decide; [|done]. by destruct (viewAt w modal). }
  fold detach. rewrite Ht.
  change (with_manager _ (update modal detach w)) with (removed modal w).
  assert (Hrt : getTitle modal (removed modal w) = getTitle modal w).
  { apply getTitle_ext, viewAt_removed. }
  assert (Hra : activeModal (manager (removed modal w)) = activeModal (manager w))
    by done.
  assert (Hrc : closeCallback (manager (removed modal w)) = closeCallback (manager w))
    by done.
  assert (Hrm : modals (manager (removed modal w)) =
                map_delete (getTitle modal w) (modals (manager w))) by done.
  set (w2 := removed modal w) in *. clearbody w2.
  rewrite Hra.
  destruct (decide (activeModal (manager w) = Some modal)) as [Ha|Ha].
  - cbn [manager with_manager modals set_activeModal]. rewrite Hrm.
    destruct (last _) as [r|].
    + destruct (bringModalToFront_spec r
                  (with_manager (set_activeModal None) w2)) as (Hm & _).
      rewrite Hm, getTitle_bringModalToFront. cbn.
      change (getTitle modal (with_manager (set_activeModal None) w2))
        with (getTitle modal w2).
      by rewrite Hrc, Hrt.
    + cbn.
      change (getTitle modal (with_manager (set_activeModal None) w2))
        with (getTitle modal w2).
      by rewrite Hrc, Hrt.
  - by rewrite Hrc, Hrt.
Qed.

(** X13: The timer of a window that is not the recorded active one: its
    element is removed and the entry of its title deleted; the active
    window, the counter and every other window stay as they are, and
    the close callback receives the title. *)
Theorem closeModal_timeout_inactive modal w :
  activeModal (manager w) <> Some modal ->
  let w' := closeModal_timeout modal w in
  getActiveModal w' = getActiveModal w /\
  nextZIndex (manager w') = nextZIndex (manager w) /\
  modals (manager w') = map_delete (getTitle modal w) (modals (manager w)) /\
  (forall i : nat, store w' !! i =
     if decide (i = modal) then detach <$> store w !! i else store w !! i) /\
  env w' = match closeCallback (manager w) with
           | Some f => f (getTitle modal w) (env w)
           | None => env w
           end.
Proof.
  intros Ha w'. unfold w'. rewrite closeModal_timeout_unfold.
  rewrite decide_False by done.
  unfold getActiveModal. rewrite notify_manager, notify_store, notify_env.
  do 3 (split; [done|]). split; [|done].
  intros i. unfold removed. cbn [store with_manager]. apply store_update.
Qed.

(** X14: Closing the active window when no other window is registered:
    nothing is active afterwards. *)
Theorem closeModal_timeout_last_window modal w k :
  Inv w ->
  modals (manager w) = [(k, modal)] ->
  let w' := closeModal_timeout modal w in
  modals (manager w') = [] /\
  getActiveModal w' =
    (if decide (getActiveModal w = Some modal) then None else getActiveModal w) /\
  forall i : nat, store w' !! i =
     if decide (i = modal) then detach <$> store w !! i else store w !! i.
Proof.
  intros HI Hm w'. unfold w'. rewrite closeModal_timeout_unfold.
  assert (Hk : getTitle modal w = k).
  { destruct (inv_entry w HI k modal) as (v & Hv & <- & _).
    - rewrite Hm. apply list_elem_of_singleton. done.
    - by apply getTitle_view. }
  assert (Hd : map_delete (getTitle modal w) (modals (manager w)) = []).
  { rewrite Hm, Hk. cbn. by rewrite String.eqb_refl. }
  rewrite Hd. cbn [map_values fmap list_fmap last].
  unfold getActiveModal.
  rewrite notify_manager, notify_store.
  destruct (decide (activeModal (manager w) = Some modal)) as [Ha|Ha].
  - cbn [manager with_manager]. unfold removed.
    cbn [manager with_manager set_activeModal set_modals modals activeModal
         store]. rewrite Hd.
    do 2 (split; [done|]). intros i. apply store_update.
  - unfold removed.
    cbn [manager with_manager set_activeModal set_modals modals activeModal
         store]. rewrite Hd.
    do 2 (split; [done|]). intros i. apply store_update.
Qed.

End CloseTimerFacts.

Section MethodWitnesses.
Import ModalManager Scenarios Scenarios2 Close.

Lemma scenarioOne_reachable : reachable scenarioOne.
Proof. apply reachable_run; [constructor | vm_compute; tauto]. Qed.

Lemma resetModalZIndexes_insertion_order_witness :
  zIndexOf 1 (resetModalZIndexes scenarioA) = 1001%Z /\
  nextZIndex (manager (resetModalZIndexes scenarioA)) = 1002%Z.
Proof.
  pose proof (resetModalZIndexes_insertion_order scenarioA 1 1
                scenarioA_reachable eq_refl) as (Hz & Hn & _).
  split; [exact Hz | exact Hn].
Defined.

Lemma restoreModalByTitle_miss_witness :
  restoreModalByTitle "Alpha" scenarioA = scenarioA.
Proof.
  apply restoreModalByTitle_miss.
  intros m o Hg Hs. vm_compute in Hg. injection Hg as <-.
  vm_compute in Hs. injection Hs as <-. reflexivity.
Defined.

Lemma restoreModalByTitle_restores_witness :
  getActiveModal (restoreModalByTitle "Alpha" scenarioRestore) = Some 0 /\
  exists o', store (restoreModalByTitle "Alpha" scenarioRestore) !! 0 = Some o' /\
    ModalWindow.isModalMinimized o' = false /\
    ModalWindow.style_display (ModalWindow.element o') = ModalWindow.DisplayFlex.
Proof.
  destruct (store scenarioRestore !! 0) as [o|] eqn:Ho; [|discriminate Ho].
  assert (Hmin : ModalWindow.isModalMinimized o = true).
  { vm_compute in Ho. injection Ho as <-. reflexivity. }
  pose proof (restoreModalByTitle_restores "Alpha" scenarioRestore 0 o
                eq_refl Ho Hmin) as (_ & Hs & Ha & _).
  split; [exact Ha | exact Hs].
Defined.

Lemma closeModal_timeout_inactive_witness :
  getActiveModal (closeModal_timeout 0 scenarioA) = Some 1 /\
  modals (manager (closeModal_timeout 0 scenarioA)) =
    map_delete (getTitle 0 scenarioA) (modals (manager scenarioA)).
Proof.
  assert (H : activeModal (manager scenarioA) <> Some 0).
  { vm_compute. discriminate. }
  pose proof (closeModal_timeout_inactive 0 scenarioA H) as (Ha & _ & Hm & _).
  split; [exact Ha | exact Hm].
Defined.

Lemma closeModal_timeout_last_window_witness :
  modals (manager (closeModal_timeout 0 scenarioOne)) = [] /\
  getActiveModal (closeModal_timeout 0 scenarioOne) = None.
Proof.
  pose proof (closeModal_timeout_last_window 0 scenarioOne "Alpha"
                (reachable_Inv _ scenarioOne_reachable) eq_refl) as (Hm & Ha & _).
  split; [exact Hm | exact Ha].
Defined.

End MethodWitnesses.

(* ------------------------------------------------------------------ *)
(** ** "Close All", then the timers *)
(* ------------------------------------------------------------------ *)

Section DrainFacts.
Import ModalManager Focus Close.
Context {E : Type}.
Implicit Types (w : World E) (m modal : Ref) (i : nat).

Lemma closeModal_timeout_timers modal w :
  timers (closeModal_timeout modal w) = timers w.
Proof.
  rewrite closeModal_timeout_unfold, notify_timers.
  case_decide; [|done]. destruct (last _) as [r|]; [|done].
  by destruct (bringModalToFront_spec r
                 (with_manager (set_activeModal None) (removed modal w)))
    as (_ & -> & _).
Qed.

Lemma closeModal_timeout_modals modal w :
  modals (manager (closeModal_timeout modal w)) =
  map_delete (getTitle modal w) (modals (manager w)).
Proof.
  rewrite closeModal_timeout_unfold, notify_manager.
  case_decide; [|done]. destruct (last _) as [r|]; [|done].
  by destruct (bringModalToFront_spec r
                 (with_manager (set_activeModal None) (removed modal w)))
    as (-> & _).
Qed.

Lemma closeModal_timeout_getTitle modal w m :
  getTitle m (closeModal_timeout modal w) = getTitle m w.
Proof.
  rewrite closeModal_timeout_unfold.
  assert (Hn : forall cb t w0, getTitle m (notify cb t w0) = getTitle m w0).
  { intros. apply getTitle_ext, viewAt_notify. }
  rewrite Hn.
  assert (Hr : getTitle m (removed modal w) = getTitle m w)
    by apply getTitle_ext, viewAt_removed.
  case_decide; [|done]. destruct (last _) as [r|].
  - by rewrite getTitle_bringModalToFront.
  - done.
Qed.

Lemma tick_cons modal (ts : list Timer) w :
  timers w = CloseTimeout modal :: ts ->
  timers (tick w) = ts /\
  modals (manager (tick w)) =
    map_delete (getTitle modal w) (modals (manager w)) /\
  forall m, getTitle m (tick w) = getTitle m w.
Proof.
  intros Ht. unfold tick, fireTimer. rewrite Ht. cbn [lookup list_lookup runTimer].
  rewrite closeModal_timeout_timers, closeModal_timeout_modals.
  cbn [timers with_timers]. rewrite Ht. split; [done|]. split; [done|].
  intros m. by rewrite closeModal_timeout_getTitle.
Qed.

Lemma drain_spec (ts : list Timer) w :
  timers w = ts ->
  timers (Nat.iter (length ts) tick w) = [] /\
  forall e, e ∈ modals (manager (Nat.iter (length ts) tick w)) ->
    e ∈ modals (manager w) /\
    forall modal, CloseTimeout modal ∈ ts -> getTitle modal w <> fst e.
Proof.
  revert w. induction ts as [|[modal] ts IH]; intros w Ht.
  - cbn. split; [done|]. intros e He. split; [done|].
    by intros ? ?%elem_of_nil.
  - cbn [length]. rewrite Nat.iter_succ_r.
    destruct (tick_cons modal ts w Ht) as (Ht' & Hm' & Hg').
    destruct (IH (tick w) Ht') as (IH1 & IH2).
    split; [done|]. intros e He.
    destruct (IH2 e He) as (Hin & Hne).
    rewrite Hm' in Hin. apply elem_of_map_delete in Hin as [Hin Hk].
    split; [done|].
    intros modal' [[= ->]|Hin']%elem_of_cons.
    + congruence.
    + rewrite <- Hg'. by apply Hne.
Qed.

Lemma closeAllModals_timers w :
  timers (closeAllModals w) =
    timers w ++ (CloseTimeout <$> map_values (modals (manager w))) /\
  manager (closeAllModals w) = manager w /\
  forall m, getTitle m (closeAllModals w) = getTitle m w.
Proof.
  unfold closeAllModals.
  generalize (map_values (modals (manager w))). intros refs. revert w.
  induction refs as [|r refs IH]; intros w; cbn [fold_left fmap list_fmap].
  - by rewrite app_nil_r.
  - destruct (IH (closeModal r w)) as (H1 & H2 & H3).
    rewrite H1, H2. split.
    { cbn. by rewrite <- app_assoc. }
    split; [done|]. intros m. rewrite H3.
    apply getTitle_ext. by destruct (same_registry_closeModal r w) as (_ & _ & ->).
Qed.

(** X15: "Close All" followed by all pending timers: the collection is
    empty and no timer is left. *)
Theorem closeAllModals_then_timers_empty w :
  Inv w ->
  let w' := drain (closeAllModals w) in
  modals (manager w') = [] /\ timers w' = [].
Proof.
  intros HI w'.
  destruct (closeAllModals_timers w) as (Ht & Hm & Hg).
  destruct (drain_spec _ (closeAllModals w) eq_refl) as (H1 & H2).
  fold (drain (closeAllModals w)) in H1, H2. fold w' in H1, H2.
  split; [|done].
  destruct (modals (manager w')) as [|[k m] l] eqn:Hl; [done|]. exfalso.
  destruct (H2 (k, m)) as (Hin & Hne); [apply elem_of_cons; by left|].
  rewrite Hm in Hin.
  destruct (inv_entry w HI k m Hin) as (v & Hv & Htitle & _).
  apply (Hne m).
  - rewrite Ht. apply elem_of_app. right.
    apply list_elem_of_fmap. exists m. split; [done|].
    apply list_elem_of_fmap. by exists (k, m).
  - rewrite Hg. cbn. rewrite <- Htitle. by apply getTitle_view.
Qed.

End DrainFacts.

Section DrainWitness.
Import ModalManager Scenarios Close.

Lemma closeAllModals_then_timers_empty_witness :
  modals (manager (drain (closeAllModals scenarioA))) = [] /\
  timers (drain (closeAllModals scenarioA)) = [].
Proof.
  exact (closeAllModals_then_timers_empty scenarioA
           (reachable_Inv _ scenarioA_reachable)).
Defined.

End DrainWitness.

(* ------------------------------------------------------------------ *)
(** ** The stacking order is strict *)
(* ------------------------------------------------------------------ *)

Section StackFacts.
Import ModalManager Focus Close Stacking.
Context {E : Type}.
Implicit Types (w : World E) (m modal : Ref) (i : nat).

Lemma Stack_sub w w' :
  (forall m, registered m w' -> registered m w) ->
  nextZIndex (manager w') = nextZIndex (manager w) ->
  (forall i, viewAt w' i = viewAt w i) ->
  Stack w -> Stack w'.
Proof.
  intros Hr Hn Hv [S1 S2 S3]. split.
  - by rewrite Hn.
  - intros m Hm. rewrite Hn, Hv. by apply S2, Hr.
  - intros m1 m2 H1 H2 Hne. rewrite !zIndexOf_viewAt, !Hv, <- !zIndexOf_viewAt.
    apply S3; auto.
Qed.

Lemma Stack_same_registry w w' : same_registry w w' -> Stack w -> Stack w'.
Proof.
  intros (Hm & _ & Hv). apply Stack_sub; [|by rewrite Hm|done].
  intros m. unfold registered. by rewrite Hm.
Qed.

Lemma Stack_notify cb (title : string) w :
  Stack w -> Stack (notify cb title w).
Proof.
  apply Stack_sub.
  - intros m. unfold registered. by rewrite notify_manager.
  - by rewrite notify_manager.
  - intros i. apply viewAt_notify.
Qed.

(** [bringModalToFront] restores the invariant even if the focused
    window did not satisfy the distinctness part before. *)
Lemma bringModalToFront_Stack modal w :
  (100 <= nextZIndex (manager w))%Z ->
  (forall m, registered m w ->
     exists v, viewAt w m = Some v /\ (v_z v <= nextZIndex (manager w))%Z) ->
  (forall m1 m2, registered m1 w -> registered m2 w ->
     m1 <> modal -> m2 <> modal -> m1 <> m2 -> zIndexOf m1 w <> zIndexOf m2 w) ->
  Stack (bringModalToFront modal w).
Proof.
  intros S1 S2 S3.
  destruct (bringModalToFront_spec modal w) as (Hm & _ & _ & Hv).
  set (w' := bringModalToFront modal w) in *. clearbody w'.
  assert (Hf : focusZ w = (nextZIndex (manager w) + 1)%Z) by (unfold focusZ; lia).
  assert (Hr : forall m, registered m w' <-> registered m w).
  { intros m. unfold registered. by rewrite Hm. }
  assert (Hz : forall m, registered m w ->
             (if decide (m = modal) then zIndexOf m w' = focusZ w
              else zIndexOf m w' = zIndexOf m w) /\
             (zIndexOf m w <= nextZIndex (manager w))%Z).
  { intros m Hmr. destruct (S2 m Hmr) as (v & Hvm & Hle).
    rewrite !zIndexOf_viewAt, Hv, Hvm.
    split; [|done]. case_decide; [done|]. by rewrite decide_True. }
  split.
  - rewrite Hm. cbn. lia.
  - intros m Hmr%Hr. destruct (S2 m Hmr) as (v & Hvm & Hle).
    rewrite Hv, Hvm, Hm. cbn [nextZIndex set_activeModal set_nextZIndex].
    case_decide.
    + eexists. split; [done|]. cbn. lia.
    + rewrite decide_True by done. eexists. split; [done|]. cbn. lia.
  - intros m1 m2 H1%Hr H2%Hr Hne.
    destruct (Hz m1 H1) as [Hz1 Hb1], (Hz m2 H2) as [Hz2 Hb2].
    destruct (decide (m1 = modal)), (decide (m2 = modal)); try congruence.
    + rewrite Hz1, Hz2. lia.
    + rewrite Hz1, Hz2. lia.
    + rewrite Hz1, Hz2. by apply S3.
Qed.

Lemma Stack_bringModalToFront modal w :
  Stack w -> Stack (bringModalToFront modal w).
Proof.
  intros [S1 S2 S3]. apply bringModalToFront_Stack; auto.
Qed.

Lemma Stack_createModal title width height x y color w :
  Stack w -> Stack (fst (createModal title width height x y color w)).
Proof.
  intros [S1 S2 S3]. unfold createModal. cbn [fst].
  set (o := ModalWindow.onRestore _ _).
  set (w1 := with_manager _ (with_store _ w)).
  assert (Hv : forall i, viewAt w1 i =
            if decide (i = length (store w)) then Some (view_of o) else viewAt w i).
  { intros i. unfold w1. by rewrite viewAt_with_manager, viewAt_alloc. }
  assert (Hn : nextZIndex (manager w1) = nextZIndex (manager w)) by done.
  assert (Hr : forall m, registered m w1 -> m = length (store w) \/ registered m w).
  { intros m [[k m'] [Hm' Hk]]%list_elem_of_fmap. cbn in Hm'. subst m'.
    change (modals (manager w1))
      with (map_set title (length (store w)) (modals (manager w))) in Hk.
    apply elem_of_map_set in Hk as [[= _ ->]|Hk]; [by left|].
    right. apply list_elem_of_fmap. by exists (k, m). }
  assert (Hold : forall m, registered m w -> m <> length (store w)).
  { intros m Hm ->. destruct (S2 _ Hm) as (v & Hvm & _).
    assert (is_Some (viewAt w (length (store w)))) as H%viewAt_allocated by eauto.
    lia. }
  clearbody w1. apply bringModalToFront_Stack.
  - by rewrite Hn.
  - intros m [->|Hm]%Hr.
    + rewrite Hv, decide_True, Hn by done. eexists. split; [done|]. cbn. lia.
    + rewrite Hv, decide_False, Hn by (by apply Hold). by apply S2.
  - intros m1 m2 [->|H1]%Hr [->|H2]%Hr; try done.
    intros _ _ Hne.
    rewrite !zIndexOf_viewAt, !Hv, !decide_False by (by apply Hold).
    rewrite <- !zIndexOf_viewAt. by apply S3.
Qed.

Lemma Stack_closeModal_timeout modal w :
  Stack w -> Stack (closeModal_timeout modal w).
Proof.
  intros HS. rewrite closeModal_timeout_unfold.
  assert (H2 : Stack (removed modal w)).
  { revert HS. apply Stack_sub; [|done|apply viewAt_removed].
    intros m [[k m'] [Hm' Hk]]%list_elem_of_fmap. cbn in Hm'. subst m'.
    change (modals (manager (removed modal w)))
      with (map_delete (getTitle modal w) (modals (manager w))) in Hk.
    apply elem_of_map_delete in Hk as [Hk _].
    apply list_elem_of_fmap. by exists (k, m). }
  apply Stack_notify.
  case_decide; [|done].
  assert (H3 : Stack (with_manager (set_activeModal None) (removed modal w))).
  { revert H2. by apply Stack_sub. }
  destruct (last _); [|done]. by apply Stack_bringModalToFront.
Qed.

Lemma Stack_resetModalZIndexes w :
  Inv w -> Stack w -> Stack (resetModalZIndexes w).
Proof.
  intros HI [S1 S2 S3].
  pose proof (Inv_values_NoDup w HI) as Hnd.
  destruct (resetModalZIndexes_store w Hnd) as [Hin _].
  destruct (resetModalZIndexes_spec w) as (Hm & _ & Hv).
  set (w' := resetModalZIndexes w) in *. clearbody w'.
  assert (Hr : forall m, registered m w' <-> registered m w).
  { intros m. unfold registered. by rewrite Hm. }
  split.
  - rewrite Hm. cbn. lia.
  - intros m Hmr%Hr. destruct (S2 m Hmr) as (v & Hvm & _).
    destruct (Hv m) as [H1 _]. destruct (H1 Hmr) as (z & Hz & Hvz).
    rewrite Hvz, Hvm, Hm. eexists. split; [done|]. cbn. lia.
  - intros m1 m2 H1%Hr H2%Hr Hne.
    pose proof H1 as [j1 Hj1]%list_elem_of_lookup_1.
    pose proof H2 as [j2 Hj2]%list_elem_of_lookup_1.
    assert (Hz : forall (j : nat) m, map_values (modals (manager w)) !! j = Some m ->
               zIndexOf m w' = (1000 + Z.of_nat j)%Z).
    { intros j m Hj.
      assert (Hreg : registered m w) by (by eapply list_elem_of_lookup_2).
      destruct (S2 m Hreg) as (v & Hvm & _).
      unfold viewAt in Hvm. unfold zIndexOf, Ref in *. rewrite (Hin j m Hj).
      by destruct (store w !! m). }
    rewrite (Hz _ _ Hj1), (Hz _ _ Hj2).
    intros Heq. apply Hne.
    assert (j1 = j2) as -> by lia. congruence.
Qed.

Lemma Stack_step (o : Op E) w : Inv w -> Stack w -> Stack (step o w).
Proof.
  intros HI HS. destruct o; cbn [step].
  - by apply Stack_createModal.
  - by apply Stack_bringModalToFront.
  - unfold closeActiveModal. destruct (activeModal _); [|done].
    eapply Stack_same_registry; [apply same_registry_closeModal | done].
  - eapply Stack_same_registry; [apply same_registry_closeModal | done].
  - unfold fireTimer. destruct (timers w !! i) as [[modal]|]; [|done].
    cbn [runTimer]. apply Stack_closeModal_timeout. revert HS. by apply Stack_sub.
  - eapply Stack_same_registry; [apply same_registry_minimizeAllModals | done].
  - eapply Stack_same_registry; [apply same_registry_restoreAllModals | done].
  - eapply Stack_same_registry; [apply same_registry_closeAllModals | done].
  - by apply Stack_resetModalZIndexes.
  - revert HS. by apply Stack_sub.
  - revert HS. by apply Stack_sub.
  - revert HS. by apply Stack_sub.
  - revert HS. by apply Stack_sub.
  - unfold restoreModalByTitle.
    destruct (map_get _ _) as [modal|]; [|done].
    destruct (store w !! modal) as [ob|]; [|done].
    destruct (ModalWindow.isModalMinimized ob); [|done].
    apply Stack_notify.
    apply Stack_bringModalToFront.
    eapply Stack_same_registry; [apply same_registry_restore | done].
  - destruct (clearActiveModal_spec w) as (Hm & _ & Hv).
    destruct HS as [S1 S2 S3]. split.
    + by rewrite Hm.
    + intros m Hmr. assert (Hmr' : registered m w)
        by (unfold registered in *; by rewrite Hm in Hmr).
      destruct (S2 m Hmr') as (v & Hvm & Hle).
      rewrite Hv, decide_True, Hvm, Hm by done. by eexists.
    + intros m1 m2 H1 H2 Hne.
      assert (Hz : forall m, zIndexOf m (clearActiveModal w) = zIndexOf m w).
      { intros m. rewrite !zIndexOf_viewAt, Hv.
        case_decide; [|done]. by destruct (viewAt w m). }
      rewrite !Hz. unfold registered in *. rewrite Hm in H1, H2. by apply S3.
  - eapply Stack_same_registry; [apply same_registry_minimize | done].
  - eapply Stack_same_registry; [apply same_registry_restore | done].
  - revert HS. apply Stack_sub; try done. intros j.
    apply viewAt_update_id, view_of_toggleMaximize.
  - revert HS. apply Stack_sub; try done. intros j.
    apply viewAt_update_id. intros; apply view_of_runGesture.
Qed.

Lemma reachable_Stack w : reachable w -> Stack w.
Proof.
  induction 1 as [e|o w Hr IH Hok].
  - split; [cbn; lia| |].
    + intros m. by intros ?%elem_of_nil.
    + intros m1 m2. by intros ?%elem_of_nil.
  - apply Stack_step; [by apply reachable_Inv | done].
Qed.

(** X16: In every state the events can produce, two distinct registered
    windows never have the same z-index, and the counter bounds them
    all: the stacking order is strict. *)
Theorem stacking_order_is_strict w m1 m2 :
  reachable w ->
  registered m1 w -> registered m2 w -> m1 <> m2 ->
  zIndexOf m1 w <> zIndexOf m2 w /\
  (zIndexOf m1 w <= nextZIndex (manager w))%Z.
Proof.
  intros [S1 S2 S3]%reachable_Stack H1 H2 Hne. split; [by apply S3|].
  destruct (S2 m1 H1) as (v & Hv & Hle). by rewrite zIndexOf_viewAt, Hv.
Qed.

End StackFacts.

Section StackWitness.
Import ModalManager Scenarios.

Lemma stacking_order_is_strict_witness :
  zIndexOf 0 scenarioReset <> zIndexOf 1 scenarioReset /\
  (zIndexOf 0%nat scenarioReset <= nextZIndex (manager scenarioReset))%Z.
Proof.
  apply (stacking_order_is_strict scenarioReset 0 1 scenarioReset_reachable).
  - apply list_elem_of_In. vm_compute. tauto.
  - apply list_elem_of_In. vm_compute. tauto.
  - lia.
Defined.

End StackWitness.

(* ------------------------------------------------------------------ *)
(** ** The dock and the minimized windows *)
(* ------------------------------------------------------------------ *)

Section SyncFacts.
Import ModalManager CustomUIManager Focus Close UIEvents.
Implicit Types (w : World Collaborators) (m modal : Ref) (i : nat).

(** *** What each method does to the wiring, the flags and the dock *)

Lemma style_blind_shape_of : style_blind shape_of.
Proof. by repeat split. Qed.

Lemma style_blind_isModalMinimized : style_blind ModalWindow.isModalMinimized.
Proof. by repeat split. Qed.

Lemma shapeAt_update modal (f : ModalWindow.t -> ModalWindow.t)
    (sf : Shape -> Shape) w i :
  (forall o, shape_of (f o) = sf (shape_of o)) ->
  shapeAt (update modal f w) i =
  if decide (i = modal) then sf <$> shapeAt w i else shapeAt w i.
Proof.
  intros Hf. unfold shapeAt. rewrite store_update.
  case_decide; [|done]. destruct (store w !! i); cbn; [by rewrite Hf | done].
Qed.

Lemma minimizedAt_update modal (f : ModalWindow.t -> ModalWindow.t) w i :
  (forall o, ModalWindow.isModalMinimized (f o) = ModalWindow.isModalMinimized o) ->
  minimizedAt (update modal f w) i = minimizedAt w i.
Proof.
  intros Hf. unfold minimizedAt. rewrite store_update.
  case_decide; [|done]. destruct (store w !! i); cbn; [by rewrite Hf | done].
Qed.

Lemma minimizedAt_blind w w' i :
  ModalWindow.isModalMinimized <$> store w' !! i =
  ModalWindow.isModalMinimized <$> store w !! i ->
  minimizedAt w' i = minimizedAt w i.
Proof. unfold minimizedAt. by intros ->. Qed.

Lemma dk_selected (title : string) w :
  dk (with_env (selected title) w) = dk w.
Proof. done. Qed.

Lemma dk_minimized (title : string) w :
  dk (with_env (minimized title) w) = {[title]} ∪ dk w.
Proof. unfold dk, Dock.entries. cbn. by rewrite dom_insert_L. Qed.

Lemma dk_removed (title : string) w :
  dk (with_env (restoredFromDock title) w) = dk w ∖ {[title]}.
Proof. unfold dk, Dock.entries. cbn. by rewrite dom_delete_L. Qed.

(** [bringModalToFront] *)
Lemma sync_bringModalToFront modal w :
  wired w ->
  let w' := bringModalToFront modal w in
  wired w' /\ modals (manager w') = modals (manager w) /\
  activeModal (manager w') = Some modal /\
  timers w' = timers w /\
  (forall i, shapeAt w' i = shapeAt w i) /\
  (forall i, minimizedAt w' i = minimizedAt w i) /\
  dk w' = dk w.
Proof.
  intros (H1 & H2 & H3 & H4) w'.
  destruct (bringModalToFront_spec modal w) as (Hm & Ht & He & _).
  fold w' in Hm, Ht, He.
  split. { unfold wired. by rewrite Hm. }
  split. { by rewrite Hm. }
  split. { by rewrite Hm. }
  split; [done|]. split.
  { intros i. apply bringModalToFront_blind, style_blind_shape_of. }
  split.
  { intros i. apply minimizedAt_blind, bringModalToFront_blind,
      style_blind_isModalMinimized. }
  unfold dk. by rewrite He, H1.
Qed.

(** [clearActiveModal] *)
Lemma sync_clearActiveModal w :
  wired w ->
  let w' := clearActiveModal w in
  wired w' /\ modals (manager w') = modals (manager w) /\
  activeModal (manager w') = None /\
  timers w' = timers w /\
  (forall i, shapeAt w' i = shapeAt w i) /\
  (forall i, minimizedAt w' i = minimizedAt w i) /\
  dk w' = dk w.
Proof.
  intros (H1 & H2 & H3 & H4) w'.
  destruct (clearActiveModal_spec w) as (Hm & Ht & _).
  pose proof (clearActiveModal_env w) as He.
  fold w' in Hm, Ht, He.
  split. { unfold wired. by rewrite Hm. }
  split. { by rewrite Hm. }
  split. { by rewrite Hm. }
  split; [done|]. split.
  { intros i. apply clearActiveModal_blind, style_blind_shape_of. }
  split.
  { intros i. apply minimizedAt_blind, clearActiveModal_blind,
      style_blind_isModalMinimized. }
  unfold dk. by rewrite He, H1.
Qed.

(** [minimize] of an attached, wired window *)
Lemma sync_minimize modal w s :
  wired w ->
  shapeAt w modal = Some s ->
  s_min s = Some ModalWindow.ManagerOnMinimize ->
  let w' := minimize modal w in
  manager w' = manager w /\ timers w' = timers w /\
  (forall i, shapeAt w' i = shapeAt w i) /\
  (forall i, minimizedAt w' i =
             if decide (i = modal) then true else minimizedAt w i) /\
  dk w' = {[s_title s]} ∪ dk w.
Proof.
  intros (H1 & H2 & H3 & H4) Hs Hmin w'.
  destruct (minimize_spec modal w) as (Hm & Ht & _). fold w' in Hm, Ht.
  pose proof (call_store modal ModalWindow.minimize w) as Hst.
  pose proof (call_env modal ModalWindow.minimize w) as He.
  fold (minimize modal w) in Hst, He. fold w' in Hst, He.
  unfold shapeAt in Hs. unfold Ref in *.
  destruct (store w !! modal) as [o|] eqn:Ho; [|done].
  cbn in Hs. injection Hs as <-. cbn in Hmin.
  do 2 (split; [done|]). split.
  { intros i. unfold shapeAt. rewrite Hst. case_decide; [|done].
    subst i. by rewrite Ho. }
  split.
  { intros i. unfold minimizedAt. rewrite Hst. case_decide; [|done].
    subst i. by rewrite Ho. }
  rewrite <- dk_minimized. unfold dk. rewrite He. cbn. by rewrite Hmin, H2.
Qed.

(** [restore] of an attached, wired window *)
Lemma sync_restore modal w s :
  wired w ->
  shapeAt w modal = Some s ->
  s_res s = Some ModalWindow.ManagerOnRestore ->
  let w' := restore modal w in
  manager w' = manager w /\ timers w' = timers w /\
  (forall i, shapeAt w' i = shapeAt w i) /\
  (forall i, minimizedAt w' i =
             if decide (i = modal) then false else minimizedAt w i) /\
  dk w' = if minimizedAt w modal then dk w ∖ {[s_title s]} else dk w.
Proof.
  intros (H1 & H2 & H3 & H4) Hs Hres w'.
  destruct (restore_spec modal w) as (Hm & Ht & _). fold w' in Hm, Ht.
  pose proof (call_store modal ModalWindow.restore w) as Hst.
  pose proof (call_env modal ModalWindow.restore w) as He.
  fold (restore modal w) in Hst, He. fold w' in Hst, He.
  unfold shapeAt in Hs. unfold minimizedAt at 3. unfold Ref in *.
  destruct (store w !! modal) as [o|] eqn:Ho; [|done].
  cbn in Hs. injection Hs as <-. cbn in Hres.
  do 2 (split; [done|]). split.
  { intros i. unfold shapeAt. rewrite Hst. case_decide; [|done].
    subst i. rewrite Ho. cbn. unfold ModalWindow.restore.
    by destruct (ModalWindow.isMinimized _). }
  split.
  { intros i. unfold minimizedAt. rewrite Hst. case_decide; [|done].
    subst i. rewrite Ho. cbn. unfold ModalWindow.restore, ModalWindow.isModalMinimized.
    by destruct (ModalWindow.isMinimized (ModalWindow.state o)) eqn:Hmin. }
  cbn. unfold ModalWindow.isModalMinimized.
  unfold ModalWindow.restore in He.
  destruct (ModalWindow.isMinimized (ModalWindow.state o)).
  - rewrite <- dk_removed. unfold dk. rewrite He. cbn. by rewrite Hres, H3.
  - unfold dk. by rewrite He.
Qed.


(** [closeModal] *)
Lemma sync_closeModal modal w :
  let w' := closeModal modal w in
  manager w' = manager w /\ timers w' = timers w ++ [CloseTimeout modal] /\
  (forall i, shapeAt w' i = shapeAt w i) /\
  (forall i, minimizedAt w' i = minimizedAt w i) /\
  dk w' = dk w.
Proof.
  intros w'. do 2 (split; [done|]). split; [|split; [|done]]; intros i.
  - unfold w', closeModal, shapeAt. cbn [store with_timers].
    fold (shapeAt (update modal
      (ModalWindow.with_element
         (fun e => ModalWindow.set_transition "all 0.2s ease-out"
                     (ModalWindow.set_opacity (Some 0%Q)
                        (ModalWindow.set_transform "scale(0.8)" e)))) w) i).
    rewrite (shapeAt_update _ _ id) by done.
    case_decide; [|done]. apply option_fmap_id.
  - unfold w', closeModal, minimizedAt. cbn [store with_timers].
    fold (minimizedAt (update modal
      (ModalWindow.with_element
         (fun e => ModalWindow.set_transition "all 0.2s ease-out"
                     (ModalWindow.set_opacity (Some 0%Q)
                        (ModalWindow.set_transform "scale(0.8)" e)))) w) i).
    by rewrite minimizedAt_update.
Qed.

(** The timer of [closeModal] *)
Lemma sync_removed modal w :
  let w2 := removed modal w in
  (wired w -> wired w2) /\
  modals (manager w2) = map_delete (getTitle modal w) (modals (manager w)) /\
  activeModal (manager w2) = activeModal (manager w) /\
  timers w2 = timers w /\
  (forall i, shapeAt w2 i =
     if decide (i = modal) then set_attached false <$> shapeAt w i
     else shapeAt w i) /\
  (forall i, minimizedAt w2 i = minimizedAt w i) /\
  dk w2 = dk w.
Proof.
  intros w2. do 4 (split; [done|]). split; [|split; [|done]]; intros i.
  - unfold w2, removed, shapeAt. cbn [store with_manager].
    fold (shapeAt (update modal detach w) i).
    by rewrite (shapeAt_update _ _ (set_attached false)).
  - unfold w2, removed, minimizedAt. cbn [store with_manager].
    fold (minimizedAt (update modal detach w) i).
    by rewrite minimizedAt_update.
Qed.

Lemma sync_closed (title : string) w :
  let w' := notify (Some closed) title w in
  manager w' = manager w /\ timers w' = timers w /\
  (forall i, shapeAt w' i = shapeAt w i) /\
  (forall i, minimizedAt w' i = minimizedAt w i) /\
  dk w' = dk w ∖ {[title]}.
Proof.
  intros w'. do 4 (split; [done|]). apply dk_removed.
Qed.

Lemma sync_closeModal_timeout modal w :
  wired w ->
  let w' := closeModal_timeout modal w in
  wired w' /\
  modals (manager w') = map_delete (getTitle modal w) (modals (manager w)) /\
  activeModal (manager w') =
    (if decide (activeModal (manager w) = Some modal)
     then last (map_values (map_delete (getTitle modal w) (modals (manager w))))
     else activeModal (manager w)) /\
  timers w' = timers w /\
  (forall i, shapeAt w' i =
     if decide (i = modal) then set_attached false <$> shapeAt w i
     else shapeAt w i) /\
  (forall i, minimizedAt w' i = minimizedAt w i) /\
  dk w' = dk w ∖ {[getTitle modal w]}.
Proof.
  intros Hw w'. pose proof Hw as (H1 & H2 & H3 & H4).
  unfold w'. rewrite closeModal_timeout_unfold. rewrite H4.
  destruct (sync_removed modal w) as (Hw2 & Hmod2 & Ha2 & Ht2 & Hs2 & Hm2 & Hd2).
  specialize (Hw2 Hw).
  set (w2 := removed modal w) in *. clearbody w2.
  rewrite <- Hmod2.
  destruct (decide (activeModal (manager w) = Some modal)) as [Ha|Ha].
  - destruct (last (map_values (modals (manager w2)))) as [r|] eqn:Hl.
    + assert (Hw2' : wired (with_manager (set_activeModal None) w2)) by done.
      destruct (sync_bringModalToFront r _ Hw2')
        as (Hw3 & Hmod3 & Ha3 & Ht3 & Hs3 & Hm3 & Hd3).
      set (w3 := bringModalToFront r _) in *. clearbody w3.
      destruct (sync_closed (getTitle modal w) w3) as (Hm4 & Ht4 & Hs4 & Hm4' & Hd4).
      split. { unfold wired. by rewrite Hm4. }
      rewrite Hm4, Ht4, Hd4, Hd3.
      split; [exact Hmod3|]. split; [exact Ha3|].
      split; [rewrite Ht3; exact Ht2|].
      split. { intros i. rewrite Hs4, Hs3. apply Hs2. }
      split. { intros i. rewrite Hm4', Hm3. apply Hm2. }
      change (dk (with_manager (set_activeModal None) w2)) with (dk w2).
      by rewrite Hd2.
    + destruct (sync_closed (getTitle modal w)
                  (with_manager (set_activeModal None) w2))
        as (Hm4 & Ht4 & Hs4 & Hm4' & Hd4).
      split. { unfold wired. by rewrite Hm4. }
      rewrite Hm4, Ht4, Hd4.
      split; [done|]. split; [done|]. split; [exact Ht2|].
      split. { intros i. rewrite Hs4. apply Hs2. }
      split. { intros i. rewrite Hm4'. apply Hm2. }
      change (dk (with_manager (set_activeModal None) w2)) with (dk w2).
      by rewrite Hd2.
  - destruct (sync_closed (getTitle modal w) w2) as (Hm4 & Ht4 & Hs4 & Hm4' & Hd4).
    split. { unfold wired. by rewrite Hm4. }
    rewrite Hm4, Ht4, Hd4.
    split; [done|]. split; [done|]. split; [done|].
    split. { intros i. rewrite Hs4. apply Hs2. }
    split. { intros i. rewrite Hm4'. apply Hm2. }
    by rewrite Hd2.
Qed.

(** [resetModalZIndexes] *)
Lemma reset_fold_blind {A : Type} (rd : ModalWindow.t -> A)
    (refs : list Ref) w (z0 : Z) :
  (forall z o, rd (ModalWindow.setZIndex z o) = rd o) ->
  let s := fold_left (fun s m => resetStep m s) refs (w, z0) in
  env (fst s) = env w /\
  forall i, rd <$> store (fst s) !! i = rd <$> store w !! i.
Proof.
  intros Hz. revert w z0.
  induction refs as [|m refs IH]; intros w z0; cbn [fold_left]; [done|].
  change (resetStep m (w, z0))
    with (update m (ModalWindow.setZIndex z0) w, (z0 + 1)%Z).
  destruct (IH (update m (ModalWindow.setZIndex z0) w) (z0 + 1)%Z) as [He Hs].
  cbv zeta in *. rewrite He. split; [done|].
  intros i. rewrite Hs, store_update. case_decide; [|done].
  destruct (store w !! i); cbn; [by rewrite Hz | done].
Qed.

Lemma sync_resetModalZIndexes w :
  wired w ->
  let w' := resetModalZIndexes w in
  wired w' /\ modals (manager w') = modals (manager w) /\
  activeModal (manager w') = activeModal (manager w) /\
  timers w' = timers w /\
  (forall i, shapeAt w' i = shapeAt w i) /\
  (forall i, minimizedAt w' i = minimizedAt w i) /\
  dk w' = dk w.
Proof.
  intros (H1 & H2 & H3 & H4) w'.
  destruct (resetModalZIndexes_spec w) as (Hm & Ht & _). fold w' in Hm, Ht.
  assert (Hb : forall {A} (rd : ModalWindow.t -> A),
             (forall z o, rd (ModalWindow.setZIndex z o) = rd o) ->
             env w' = env w /\
             forall i, rd <$> store w' !! i = rd <$> store w !! i).
  { intros A rd Hz. unfold w', resetModalZIndexes.
    rewrite forEach_fold by done.
    change (fun (s : World Collaborators * Z) (m : Ref) =>
              (update m (ModalWindow.setZIndex (snd s)) (fst s), (snd s + 1)%Z))
      with (fun (s : World Collaborators * Z) (m : Ref) => resetStep m s).
    cbn [fst].
    destruct (reset_fold_blind rd (map_values (liveModals w)) w 1000 Hz)
      as (He & Hs).
    destruct (fold_left _ _ _) as [w'' z']. by cbn [fst snd] in *. }
  split. { unfold wired. by rewrite Hm. }
  split. { by rewrite Hm. }
  split. { by rewrite Hm. }
  split; [done|].
  destruct (Hb _ shape_of) as [He Hs]; [done|].
  destruct (Hb _ ModalWindow.isModalMinimized) as [_ Hmi]; [done|].
  split; [exact Hs|]. split.
  - intros i. by apply minimizedAt_blind.
  - unfold dk. by rewrite He.
Qed.

(** [createModalFromDefinition] *)
Lemma sync_createModalFromDefinition h modalDef ui :
  wired (world ui) ->
  let w := world ui in
  let w' := world (createModalFromDefinition h modalDef ui) in
  let new := length (store w) in
  wired w' /\
  modals (manager w') =
    map_set (Launchpad.title modalDef) new (modals (manager w)) /\
  activeModal (manager w') = Some new /\
  timers w' = timers w /\
  (forall i, shapeAt w' i =
     if decide (i = new)
     then Some (mkShape (Launchpad.title modalDef)
                  (Some ModalWindow.ManagerOnMinimize)
                  (Some ModalWindow.ManagerOnRestore) true)
     else shapeAt w i) /\
  (forall i, minimizedAt w' i =
     if decide (i = new) then false else minimizedAt w i) /\
  dk w' = dk w.
Proof.
  intros Hw w w' new. pose proof Hw as (H1 & H2 & H3 & H4).
  unfold w', createModalFromDefinition. cbn [world with_world].
  set (pos := DOMUtils.calculateRandomModalPosition _ _ _).
  fold w.
  pose proof (createModal_manager (Launchpad.title modalDef)
                (Launchpad.width modalDef) (Launchpad.height modalDef)
                (DOMUtils.left pos) (DOMUtils.top pos)
                (Launchpad.titleBarColor modalDef) w) as Hm.
  pose proof (createModal_store (Launchpad.title modalDef)
                (Launchpad.width modalDef) (Launchpad.height modalDef)
                (DOMUtils.left pos) (DOMUtils.top pos)
                (Launchpad.titleBarColor modalDef) w) as Hst.
  cbv zeta in Hst.
  destruct (createModal_timers_env (Launchpad.title modalDef)
              (Launchpad.width modalDef) (Launchpad.height modalDef)
              (DOMUtils.left pos) (DOMUtils.top pos)
              (Launchpad.titleBarColor modalDef) w) as (Ht & He0).
  assert (He : dk (fst (createModal (Launchpad.title modalDef)
                (Launchpad.width modalDef) (Launchpad.height modalDef)
                (DOMUtils.left pos) (DOMUtils.top pos)
                (Launchpad.titleBarColor modalDef) w)) = dk w).
  { unfold dk. rewrite He0. unfold w. by rewrite H1. }
  clear He0.
  destruct (createModal _ _ _ _ _ _ w) as [w1 modal] eqn:Hc.
  assert (Hmodal : modal = new).
  { unfold createModal in Hc. by injection Hc as _ <-. }
  cbn [fst] in *. subst modal.
  split. { unfold wired. cbn. by rewrite Hm. }
  split. { cbn. by rewrite Hm. }
  split. { cbn. by rewrite Hm. }
  split; [done|]. split.
  { intros i.
    rewrite (shapeAt_update _ _ (set_attached true)) by done.
    unfold shapeAt. rewrite Hst. unfold focused, dimmed.
    repeat case_decide; try done; by destruct (store w !! i). }
  split.
  { intros i. rewrite minimizedAt_update by done.
    unfold minimizedAt. rewrite Hst. unfold focused, dimmed.
    repeat case_decide; try done; by destruct (store w !! i). }
  done.
Qed.


(** *** The invariant is kept *)

Lemma Wf_key w k m1 m2 :
  Wf w -> (k, m1) ∈ modals (manager w) -> (k, m2) ∈ modals (manager w) ->
  m1 = m2.
Proof.
  intros HW H1 H2.
  pose proof (map_get_NoDup _ _ _ (wf_keys w HW) H1) as E1.
  pose proof (map_get_NoDup _ _ _ (wf_keys w HW) H2) as E2.
  congruence.
Qed.

Lemma Wf_title w k m s :
  Wf w -> (k, m) ∈ modals (manager w) -> shapeAt w m = Some s -> s_title s = k.
Proof.
  intros HW H1 Hs. destruct (wf_entry w HW k m H1) as (s' & Hs' & Ht & _).
  congruence.
Qed.

Lemma getTitle_shapeAt w m s : shapeAt w m = Some s -> getTitle m w = s_title s.
Proof.
  unfold shapeAt, getTitle. unfold Ref in *.
  destruct (store w !! m); [|done]. by intros [= <-].
Qed.

Lemma shapeAt_fresh w : shapeAt w (length (store w)) = None.
Proof. unfold shapeAt. by rewrite lookup_ge_None_2. Qed.

Lemma minimizedAt_fresh w : minimizedAt w (length (store w)) = false.
Proof. unfold minimizedAt. by rewrite lookup_ge_None_2. Qed.

Lemma Wf_frame w w' :
  Wf w -> wired w' ->
  modals (manager w') = modals (manager w) ->
  (forall m, CloseTimeout m ∈ timers w' ->
     CloseTimeout m ∈ timers w \/
     exists s, shapeAt w m = Some s /\ s_attached s = true) ->
  (forall i, shapeAt w' i = shapeAt w i) ->
  (forall m, activeModal (manager w') = Some m ->
     activeModal (manager w) = Some m \/
     exists s, shapeAt w m = Some s /\ s_attached s = true) ->
  Wf w'.
Proof.
  intros [W1 W2 W3 W4 W5 W6] Hw Hm Ht Hs Ha. split.
  - done.
  - intros k m. rewrite Hm, Hs. apply W2.
  - by rewrite Hm.
  - intros i s. rewrite Hm, Hs. apply W4.
  - intros m [H|(s & H1 & H2)]%Ht; rewrite Hm, Hs; [by apply W5 | eauto].
  - intros m [H|H]%Ha; rewrite Hs; [by apply W6 | done].
Qed.

Lemma Wf_same_manager w w' :
  Wf w -> manager w' = manager w -> timers w' = timers w ->
  (forall i, shapeAt w' i = shapeAt w i) -> Wf w'.
Proof.
  intros HW Hm Ht Hs. apply (Wf_frame w); rewrite ?Hm, ?Ht; auto.
  unfold wired. rewrite Hm. apply (wf_wired w HW).
Qed.

Lemma Sync_frame w w' :
  Sync w -> wired w' ->
  modals (manager w') = modals (manager w) ->
  (forall m, CloseTimeout m ∈ timers w' ->
     CloseTimeout m ∈ timers w \/
     exists s, shapeAt w m = Some s /\ s_attached s = true) ->
  (forall i, shapeAt w' i = shapeAt w i) ->
  (forall m, activeModal (manager w') = Some m ->
     activeModal (manager w) = Some m \/
     exists s, shapeAt w m = Some s /\ s_attached s = true) ->
  (forall i, minimizedAt w' i = minimizedAt w i) ->
  dk w' = dk w ->
  Sync w'.
Proof.
  intros [HW HD] Hw Hm Ht Hs Ha Hmin Hd. split.
  - by apply (Wf_frame w).
  - intros k. rewrite Hd, Hm, HD. by setoid_rewrite Hmin.
Qed.

Lemma Sync_bringModalToFront modal w :
  Sync w -> (exists s, shapeAt w modal = Some s /\ s_attached s = true) ->
  Sync (bringModalToFront modal w).
Proof.
  intros HS Hat.
  destruct (sync_bringModalToFront modal w (wf_wired w (sync_wf w HS)))
    as (Hw & Hm & Ha & Ht & Hs & Hmin & Hd).
  apply (Sync_frame w); try done.
  - intros m. rewrite Ht. by left.
  - intros m. rewrite Ha. intros [= <-]. by right.
Qed.

Lemma Sync_minimize modal w :
  Sync w -> (exists s, shapeAt w modal = Some s /\ s_attached s = true) ->
  Sync (minimize modal w) /\
  modals (manager (minimize modal w)) = modals (manager w).
Proof.
  intros [HW HD] (s & Hs & Hatt).
  destruct (wf_attached w HW modal s Hs Hatt) as (Hin & Hmin & _).
  destruct (sync_minimize modal w s (wf_wired w HW) Hs Hmin)
    as (Hm & Ht & Hsh & Hmi & Hd).
  split; [|by rewrite Hm]. split.
  - by apply (Wf_same_manager w).
  - intros k. rewrite Hd, Hm, elem_of_union, elem_of_singleton, HD. split.
    + intros [->|(m' & Hk & Hm')].
      * exists modal. split; [done|]. by rewrite Hmi, decide_True.
      * exists m'. split; [done|]. rewrite Hmi. by case_decide.
    + intros (m' & Hk & Hm'). rewrite Hmi in Hm'.
      destruct (decide (m' = modal :> nat)) as [->|Heq]; [|by eauto].
      left. symmetry. by eapply Wf_title.
Qed.

Lemma Sync_restore modal w :
  Sync w -> (exists s, shapeAt w modal = Some s /\ s_attached s = true) ->
  Sync (restore modal w) /\
  modals (manager (restore modal w)) = modals (manager w) /\
  minimizedAt (restore modal w) modal = false.
Proof.
  intros [HW HD] (s & Hs & Hatt).
  destruct (wf_attached w HW modal s Hs Hatt) as (Hin & _ & Hres).
  destruct (sync_restore modal w s (wf_wired w HW) Hs Hres)
    as (Hm & Ht & Hsh & Hmi & Hd).
  split; [|split; [by rewrite Hm | by rewrite Hmi, decide_True]]. split.
  - by apply (Wf_same_manager w).
  - intros k. rewrite Hd, Hm. split.
    + intros Hk.
      assert (Hk' : k ∈ dk w /\ (minimizedAt w modal = true -> k <> s_title s)).
      { destruct (minimizedAt w modal); [|by split].
        apply elem_of_difference in Hk as [? ?%not_elem_of_singleton]. by split. }
      destruct Hk' as [Hk1 Hk2]. apply HD in Hk1 as (m' & Hin' & Hm').
      exists m'. split; [done|]. rewrite Hmi, decide_False; [done|].
      intros ->. apply Hk2; [done|]. symmetry. by eapply Wf_title.
    + intros (m' & Hin' & Hm'). rewrite Hmi in Hm'.
      destruct (decide (m' = modal :> nat)) as [->|Hne]; [done|].
      assert (k ∈ dk w) by (apply HD; eauto).
      destruct (minimizedAt w modal); [|done].
      apply elem_of_difference. split; [done|]. apply not_elem_of_singleton.
      intros ->. apply Hne. by eapply Wf_key.
Qed.

Lemma Sync_closeModal modal w :
  Sync w -> (exists s, shapeAt w modal = Some s /\ s_attached s = true) ->
  Sync (closeModal modal w) /\
  modals (manager (closeModal modal w)) = modals (manager w).
Proof.
  intros HS Hat.
  destruct (sync_closeModal modal w) as (Hm & Ht & Hs & Hmin & Hd).
  split; [|by rewrite Hm].
  apply (Sync_frame w); rewrite ?Hm; try done.
  - apply (wf_wired w (sync_wf w HS)).
  - intros m. rewrite Ht.
    intros [?|[= ->]%list_elem_of_singleton]%elem_of_app; [by left | by right].
  - by left.
Qed.

Lemma Sync_closeModal_timeout modal w :
  Sync w ->
  (exists s, shapeAt w modal = Some s /\
             (s_attached s = true \/ s_title s ∉ (modals (manager w)).*1)) ->
  Sync (closeModal_timeout modal w).
Proof.
  intros [HW HD] (s & Hs & Hcase).
  destruct (sync_closeModal_timeout modal w (wf_wired w HW))
    as (Hw & Hm & Ha & Ht & Hsh & Hmi & Hd).
  rewrite (getTitle_shapeAt _ _ _ Hs) in Hm, Ha, Hd.
  set (t := s_title s) in *.
  assert (Hentry : forall k m, (k, m) ∈ modals (manager (closeModal_timeout modal w)) ->
            (k, m) ∈ modals (manager w) /\ k <> t /\ m <> modal).
  { intros k m. rewrite Hm. intros [Hin Hne]%elem_of_map_delete. cbn in Hne.
    do 2 (split; [done|]). intros ->. apply Hne. symmetry. by eapply Wf_title. }
  assert (Hkeys : t ∉ (modals (manager (closeModal_timeout modal w))).*1).
  { intros [[k m] [Hk Hin]]%list_elem_of_fmap. cbn in Hk. subst k.
    by destruct (Hentry _ _ Hin) as (_ & ? & _). }
  split; [split|].
  - done.
  - intros k m Hin. destruct (Hentry _ _ Hin) as (Hin' & _ & Hne).
    rewrite Hsh, decide_False by done. by apply (wf_entry w HW).
  - rewrite Hm. eapply sublist_NoDup; [apply (wf_keys w HW)|].
    apply fmap_sublist. apply map_delete_sublist.
  - intros i s'. rewrite Hsh. destruct (decide (i = modal :> nat)) as [->|Hi].
    + rewrite Hs. cbn. by intros [= <-].
    + intros Hs' Hatt'.
      destruct (wf_attached w HW i s' Hs' Hatt') as (Hin & ? & ?).
      split; [|done]. rewrite Hm. apply elem_of_map_delete. split; [done|].
      cbn. intros Heq. destruct Hcase as [Hatt|Hnk].
      * destruct (wf_attached w HW modal s Hs Hatt) as (Hin2 & _).
        fold t in Hin2. rewrite Heq in Hin. apply Hi. by eapply Wf_key.
      * apply Hnk. fold t. rewrite <- Heq. apply list_elem_of_fmap.
        by exists (s_title s', i).
  - intros m. rewrite Ht. intros Hin.
    destruct (wf_timers w HW m Hin) as (s' & Hs' & Hc').
    rewrite Hsh. destruct (decide (m = modal :> nat)) as [->|Hi].
    + rewrite Hs. eexists. split; [done|]. right. done.
    + exists s'. split; [done|]. destruct Hc' as [?|Hnk]; [by left|]. right.
      intros [[k m'] [Hk Hin']]%list_elem_of_fmap. cbn in Hk. subst k.
      apply Hnk. destruct (Hentry _ _ Hin') as (? & _).
      apply list_elem_of_fmap. by exists (s_title s', m').
  - intros m. rewrite Ha.
    destruct (decide (activeModal (manager w) = Some modal)) as [Hact|Hact].
    + intros Hl%last_Some_elem_of.
      apply list_elem_of_fmap in Hl as [[k m'] [Hk Hin]]. cbn in Hk. subst m'.
      rewrite <- Hm in Hin. destruct (Hentry _ _ Hin) as (Hin' & _ & Hne).
      rewrite Hsh, decide_False by done.
      destruct (wf_entry w HW _ _ Hin') as (s' & ? & _ & ?). eauto.
    + intros Hm0. rewrite Hsh, decide_False by congruence.
      by apply (wf_active w HW).
  - intros k. rewrite Hd, elem_of_difference, not_elem_of_singleton, HD. split.
    + intros [(m & Hin & Hmin) Hne]. exists m. rewrite Hmi. split; [|done].
      rewrite Hm. by apply elem_of_map_delete.
    + intros (m & Hin & Hmin). destruct (Hentry _ _ Hin) as (Hin' & Hne & _).
      rewrite Hmi in Hmin. eauto.
Qed.

Lemma Sync_fireTimer n w : Sync w -> Sync (fireTimer n w).
Proof.
  intros HS. unfold fireTimer.
  destruct (timers w !! n) as [[modal]|] eqn:Hn; [|done]. cbn [runTimer].
  assert (HS0 : Sync (with_timers (delete n) w)).
  { apply (Sync_frame w); try done.
    - apply (wf_wired w (sync_wf w HS)).
    - intros m Hin. left. cbn in Hin.
      by eapply list_elem_of_delete_inv.
    - by left. }
  apply Sync_closeModal_timeout; [done|].
  apply (wf_timers w (sync_wf w HS)). by eapply list_elem_of_lookup_2.
Qed.

Lemma Sync_fold (h : Ref -> World Collaborators -> World Collaborators)
    (refs : list Ref) w :
  (forall m w0, Sync w0 ->
     (exists s, shapeAt w0 m = Some s /\ s_attached s = true) ->
     Sync (h m w0) /\ modals (manager (h m w0)) = modals (manager w0)) ->
  Sync w ->
  Forall (fun m => registered m w) refs ->
  Sync (fold_left (fun w m => h m w) refs w).
Proof.
  intros Hh. revert w. induction refs as [|m refs IH]; intros w HS Hr; [done|].
  cbn [fold_left]. apply Forall_cons in Hr as [Hm Hr].
  assert (Hat : exists s, shapeAt w m = Some s /\ s_attached s = true).
  { apply registered_entry in Hm as [k Hk].
    destruct (wf_entry w (sync_wf w HS) k m Hk) as (s & ? & _ & ?). eauto. }
  destruct (Hh m w HS Hat) as [HS' Hmod].
  apply IH; [done|].
  eapply Forall_impl; [exact Hr|]. intros m'. unfold registered. by rewrite Hmod.
Qed.

Lemma registered_all w :
  Forall (fun m => registered m w) (map_values (modals (manager w))).
Proof. by apply Forall_forall. Qed.

Lemma Sync_restoreModalByTitle (title : string) w :
  Sync w -> Sync (restoreModalByTitle title w).
Proof.
  intros HS. unfold restoreModalByTitle.
  destruct (map_get title (modals (manager w))) as [modal|] eqn:Hg; [|done].
  destruct (store w !! modal) as [o|] eqn:Ho; [|done].
  destruct (ModalWindow.isModalMinimized o); [|done].
  apply map_get_elem in Hg.
  destruct (wf_entry w (sync_wf w HS) _ _ Hg) as (s & Hs & Ht & Hatt).
  destruct (Sync_restore modal w HS) as (HS1 & Hm1 & Hmin1); [eauto|].
  destruct (sync_restore modal w s) as (_ & _ & Hs1 & _);
    [apply (wf_wired w (sync_wf w HS)) | done |
     by apply (wf_attached w (sync_wf w HS) modal s) |].
  set (w1 := restore modal w) in *. clearbody w1.
  assert (HS2 : Sync (bringModalToFront modal w1)).
  { apply Sync_bringModalToFront; [done|]. rewrite Hs1. eauto. }
  destruct (sync_bringModalToFront modal w1 (wf_wired w1 (sync_wf w1 HS1)))
    as (_ & Hm2 & _ & _ & _ & Hmin2 & _).
  set (w2 := bringModalToFront modal w1) in *. clearbody w2.
  destruct (wf_wired w2 (sync_wf w2 HS2)) as (_ & _ & -> & _).
  cbn [notify].
  assert (Hd : dk (with_env (restoredFromDock title) w2) = dk w2).
  { rewrite dk_removed.
    assert (Hnot : title ∉ dk w2).
    { intros (m' & Hin & Hmin)%(sync_dock w2 HS2).
      assert (m' = modal) as ->.
      { eapply (Wf_key w2); [apply (sync_wf w2 HS2) | done |].
        by rewrite Hm2, Hm1. }
      rewrite Hmin2, Hmin1 in Hmin. done. }
    apply set_eq. intros k.
    rewrite elem_of_difference, not_elem_of_singleton.
    split; [by intros [? _]|]. intros Hk. split; [done|]. by intros ->. }
  apply (Sync_frame w2); try done.
  - apply (wf_wired w2 (sync_wf w2 HS2)).
  - by left.
  - by left.
Qed.


Lemma Sync_createModalFromDefinition h modalDef ui :
  Sync (world ui) -> enabled (Launch h modalDef) ui ->
  Sync (world (createModalFromDefinition h modalDef ui)).
Proof.
  intros [HW HD] [Hfresh Htimers].
  destruct (sync_createModalFromDefinition h modalDef ui (wf_wired _ HW))
    as (Hw & Hm & Ha & Ht & Hs & Hmi & Hd).
  cbv zeta in *.
  set (w := world ui) in *.
  set (w' := world (createModalFromDefinition h modalDef ui)) in *.
  clearbody w'.
  set (t := Launchpad.title modalDef) in *.
  rewrite map_set_fresh in Hm by done.
  assert (Hold : forall k m, (k, m) ∈ modals (manager w) ->
                             m <> length (store w)).
  { intros k m Hin ->. destruct (wf_entry w HW _ _ Hin) as (s & Hs' & _).
    by rewrite shapeAt_fresh in Hs'. }
  split; [split|].
  - done.
  - intros k m. rewrite Hm, Hs.
    intros [Hin|[= -> ->]%list_elem_of_singleton]%elem_of_app.
    + rewrite decide_False by (by eapply Hold). by apply (wf_entry w HW).
    + rewrite decide_True by done. by eexists.
  - rewrite Hm, fmap_app. apply NoDup_app. split; [apply (wf_keys w HW)|].
    split; [|apply NoDup_singleton].
    intros k Hk ->%list_elem_of_singleton. done.
  - intros i s. rewrite Hm, Hs. destruct (decide (i = length (store w))) as [->|Hi].
    + intros [= <-] _. cbn. split; [|done]. apply elem_of_app. right.
      by apply list_elem_of_singleton.
    + intros Hs' Hatt. destruct (wf_attached w HW i s Hs' Hatt) as (? & ? & ?).
      split; [|done]. apply elem_of_app. by left.
  - intros m. rewrite Ht. intros Hin.
    destruct (wf_timers w HW m Hin) as (s & Hs' & Hc).
    assert (m <> length (store w)).
    { intros ->. by rewrite shapeAt_fresh in Hs'. }
    rewrite Hs, decide_False by done. exists s. split; [done|].
    destruct Hc as [?|Hnk]; [by left|]. right.
    rewrite Hm, fmap_app. intros [?|Heq%list_elem_of_singleton]%elem_of_app; [done|].
    cbn in Heq. apply (Htimers m Hin). by rewrite (getTitle_shapeAt _ _ _ Hs').
  - intros m. rewrite Ha. intros [= <-]. rewrite Hs, decide_True by done.
    by eexists.
  - intros k. rewrite Hd, Hm, HD. split.
    + intros (m & Hin & Hmin). exists m. split; [apply elem_of_app; by left|].
      rewrite Hmi, decide_False; [done | by eapply Hold].
    + intros (m & [Hin|[= -> ->]%list_elem_of_singleton]%elem_of_app & Hmin).
      * exists m. split; [done|]. rewrite Hmi, decide_False in Hmin; [done|].
        by eapply Hold.
      * by rewrite Hmi, decide_True in Hmin.
Qed.

Lemma Sync_update_blind modal (f : ModalWindow.t -> ModalWindow.t) w :
  (forall o, shape_of (f o) = shape_of o) ->
  (forall o, ModalWindow.isModalMinimized (f o) = ModalWindow.isModalMinimized o) ->
  Sync w -> Sync (update modal f w).
Proof.
  intros Hf Hg HS. apply (Sync_frame w); try done.
  - apply (wf_wired w (sync_wf w HS)).
  - by left.
  - intros i. rewrite (shapeAt_update _ _ id) by done.
    case_decide; [|done]. apply option_fmap_id.
  - by left.
  - intros i. by apply minimizedAt_update.
Qed.

Lemma runGesture_blind {A : Type} (rd : ModalWindow.t -> A) g o :
  (forall f o, rd (ModalWindow.with_element
                     (fun e => ModalWindow.set_geometry (fst (fst (fst (f e))))
                                 (snd (fst (fst (f e)))) (snd (fst (f e)))
                                 (snd (f e)) e) o) = rd o) ->
  rd (ModalWindow.runGesture o g) = rd o.
Proof.
  intros Hrd. unfold ModalWindow.runGesture.
  set (s := ModalWindow.startResize _ _ _ _). clearbody s. revert o.
  induction (ModalWindow.moves g) as [|p ps IH]; intros o; [done|].
  cbn [fold_left]. rewrite IH. unfold ModalWindow.onMouseMove.
  set (r := ModalWindow.resizeRect _ _ _).
  exact (Hrd (fun _ => (ModalWindow.Px (ModalWindow.rect_width r),
                        ModalWindow.Px (ModalWindow.rect_height r),
                        ModalWindow.Px (ModalWindow.rect_left r),
                        ModalWindow.Px (ModalWindow.rect_top r))) o).
Qed.

Lemma Sync_initialize : Sync (world initialize).
Proof.
  split; [split|]; try done.
  - intros k m. by intros ?%elem_of_nil.
  - apply NoDup_nil_2.
  - intros m. by intros ?%elem_of_nil.
  - intros k. split.
    + unfold dk, Dock.entries. cbn. by rewrite dom_empty_L.
    + intros (m & Hin & _). by apply elem_of_nil in Hin.
Qed.

Lemma Sync_handle ev ui :
  Sync (world ui) -> enabled ev ui -> Sync (world (handle ev ui)).
Proof.
  intros HS Hen. destruct ev; cbn [handle enabled] in *.
  - by apply Sync_createModalFromDefinition.
  - destruct Hen as (o & Ho & Hatt). apply Sync_bringModalToFront; [done|].
    exists (shape_of o). unfold shapeAt. unfold Ref in *. by rewrite Ho.
  - destruct Hen as (o & Ho & Hatt). apply Sync_minimize; [done|].
    exists (shape_of o). unfold shapeAt. unfold Ref in *. by rewrite Ho.
  - apply Sync_update_blind; [| |done]; intros o;
      unfold ModalWindow.toggleMaximize, ModalWindow.restoreSize,
        ModalWindow.maximize;
      destruct (ModalWindow.isMaximized _); cbn; try done;
      by destruct (ModalWindow.originalSize _).
  - destruct Hen as (o & Ho & Hatt).
    assert (Hat : exists s, shapeAt (world ui) modal = Some s /\ s_attached s = true).
    { exists (shape_of o). unfold shapeAt. unfold Ref in *. by rewrite Ho. }
    cbn [closeButtonClick world with_world].
    destruct (Sync_closeModal modal (world ui) HS Hat) as [HS1 _].
    destruct (sync_closeModal modal (world ui)) as (_ & _ & Hs1 & _).
    apply Sync_closeModal; [done|]. by rewrite Hs1.
  - apply Sync_update_blind; [| |done]; intros o;
      by apply runGesture_blind.
  - apply Sync_update_blind; [| |done]; intros o.
    + pose proof (run_moved evs d o) as Hmv. unfold Draggable.moved in Hmv.
      by rewrite Hmv.
    + pose proof (run_moved evs d o) as Hmv. unfold Draggable.moved in Hmv.
      by rewrite Hmv.
  - by apply Sync_fireTimer.
  - by apply Sync_restoreModalByTitle.
  - unfold handleMenuAction.
    destruct (String.eqb action "New Window"); [done|].
    destruct (String.eqb action "Close Window").
    { cbn. unfold closeActiveModal.
      destruct (activeModal (manager (world ui))) as [m|] eqn:Ha; [|done].
      apply Sync_closeModal; [done|]. by apply (wf_active _ (sync_wf _ HS)). }
    destruct (String.eqb action "Minimize All").
    { cbn. rewrite minimizeAllModals_fold.
      apply Sync_fold; [|done|apply registered_all].
      intros. by apply Sync_minimize. }
    destruct (String.eqb action "Restore All").
    { cbn. rewrite restoreAllModals_fold.
      apply Sync_fold; [|done|apply registered_all].
      intros m w0 H0 Hat. by destruct (Sync_restore m w0 H0 Hat) as (? & ? & _). }
    destruct (String.eqb action "Bring All to Front").
    { cbn.
      destruct (sync_resetModalZIndexes (world ui) (wf_wired _ (sync_wf _ HS)))
        as (Hw & Hm & Ha & Ht & Hs & Hmi & Hd).
      apply (Sync_frame (world ui)); try done.
      - intros m. rewrite Ht. by left.
      - intros m. rewrite Ha. by left. }
    destruct (String.eqb action "Close All"); [|done].
    cbn. unfold closeAllModals.
    apply Sync_fold; [|done|apply registered_all].
    intros. by apply Sync_closeModal.
  - cbn.
    set (w1 := with_env _ (world ui)).
    assert (HS1 : Sync w1).
    { apply (Sync_frame (world ui)); try done.
      - apply (wf_wired _ (sync_wf _ HS)).
      - by left.
      - by left. }
    destruct (sync_clearActiveModal w1 (wf_wired _ (sync_wf _ HS1)))
      as (Hw & Hm & Ha & Ht & Hs & Hmi & Hd).
    apply (Sync_frame w1); try done.
    + intros m. rewrite Ht. by left.
    + intros m. by rewrite Ha.
  - done.
  - done.
Qed.

Lemma reachable_Sync ui : UIEvents.reachable ui -> Sync (world ui).
Proof.
  induction 1 as [|ev ui Hr IH Hen]; [apply Sync_initialize|].
  by apply Sync_handle.
Qed.

Lemma elem_of_minimizedTitles ui k :
  k ∈ minimizedTitles ui <->
  exists m, (k, m) ∈ modals (manager (world ui)) /\
            minimizedAt (world ui) m = true.
Proof.
  unfold minimizedTitles. rewrite elem_of_list_to_set, list_elem_of_omap.
  unfold minimizedAt. split.
  - intros ([k' m] & Hin & Hf). cbn in Hf. exists m. unfold Ref in *.
    destruct (store (world ui) !! m) as [o|]; [|done]. cbn.
    destruct (ModalWindow.isModalMinimized o); [|done].
    injection Hf as ->. done.
  - intros (m & Hin & Hmin). exists (k, m). split; [done|]. cbn.
    unfold Ref in *.
    destruct (store (world ui) !! m) as [o|]; [|done]. cbn in Hmin.
    by rewrite Hmin.
Qed.

(** X17: From the initial state, under the events that go through the
    registry (launches of titles that are neither registered nor still
    closing, pointer events on windows of the content area, timers,
    dock clicks, menu actions, background clicks, the launchpad), the
    dock shows exactly the titles of the registered windows that are
    minimized. *)
Theorem dock_shows_minimized_windows ui :
  UIEvents.reachable ui -> dockEntries ui = minimizedTitles ui.
Proof.
  intros [_ HD]%reachable_Sync. apply set_eq. intros k.
  rewrite elem_of_minimizedTitles. apply HD.
Qed.

End SyncFacts.

Section SyncWitness.
Import ModalManager CustomUIManager UIEvents Scenarios Scenarios3.

Lemma uiMinimized_reachable : UIEvents.reachable uiMinimized.
Proof.
  apply reachable_handle; [apply reachable_handle; [constructor|]|].
  - split.
    + by intros ?%elem_of_nil.
    + intros m. by intros ?%elem_of_nil.
  - eexists. split; vm_compute; reflexivity.
Qed.

Lemma dock_shows_minimized_windows_witness :
  dockEntries uiMinimized = minimizedTitles uiMinimized.
Proof. exact (dock_shows_minimized_windows uiMinimized uiMinimized_reachable). Defined.

(** X18: Why a launch is restricted to titles that are not registered: if
    the window registered under the title is minimized, launching the
    title again leaves its entry in the dock although the window now
    registered under the title is not minimized. *)
Theorem launch_of_minimized_title_keeps_dock_entry h modalDef ui m :
  UIEvents.reachable ui ->
  map_get (Launchpad.title modalDef) (modals (manager (world ui))) = Some m ->
  minimizedAt (world ui) m = true ->
  let ui' := launchpadIconClick h modalDef ui in
  Launchpad.title modalDef ∈ dockEntries ui' /\
  Launchpad.title modalDef ∉ minimizedTitles ui'.
Proof.
  intros [HW HD]%reachable_Sync Hg Hmin ui'.
  destruct (sync_createModalFromDefinition h modalDef ui (wf_wired _ HW))
    as (Hw & Hm & Ha & Ht & Hs & Hmi & Hd).
  cbv zeta in *.
  change (world (createModalFromDefinition h modalDef ui)) with (world ui') in *.
  split.
  - change (dockEntries ui') with (dk (world ui')). rewrite Hd. apply HD.
    exists m. split; [by apply map_get_elem | done].
  - rewrite elem_of_minimizedTitles. intros (m' & Hin & Hmin').
    rewrite Hm in Hin.
    pose proof (map_set_NoDup (Launchpad.title modalDef)
                  (length (store (world ui))) _ (wf_keys _ HW)) as Hnd.
    pose proof (map_get_NoDup _ _ _ Hnd Hin) as Hg'.
    rewrite map_get_map_set in Hg'. injection Hg' as <-.
    by rewrite Hmi, decide_True in Hmin'.
Qed.

Lemma launch_of_minimized_title_keeps_dock_entry_witness :
  Launchpad.title helloDialog ∈
    dockEntries (launchpadIconClick host_1000_800 helloDialog uiMinimized) /\
  Launchpad.title helloDialog ∉
    minimizedTitles (launchpadIconClick host_1000_800 helloDialog uiMinimized).
Proof.
  exact (launch_of_minimized_title_keeps_dock_entry host_1000_800 helloDialog
           uiMinimized 0 uiMinimized_reachable eq_refl eq_refl).
Defined.

End SyncWitness.

(* ------------------------------------------------------------------ *)
(** ** Placement, launcher and icons *)
(* ------------------------------------------------------------------ *)

Section PlacementFacts2.
Import DOMUtils.
Local Open Scope Q_scope.


End PlacementFacts2.

Section PlacementWitness.
Import DOMUtils Scenarios.
Local Open Scope Q_scope.


End PlacementWitness.

Section LaunchpadFacts2.
Import JS Launchpad.

Lemma append_assoc (a b c : string) :
  ((a +:+ b) +:+ c)%string = (a +:+ (b +:+ c))%string.
Proof.
  induction a as [|x a IH]; [reflexivity|].
  change (String x ((a +:+ b) +:+ c) = String x (a +:+ (b +:+ c))).
  by rewrite IH.
Qed.

Lemma occurs_in_trans (a b c : string) :
  occurs_in a b -> occurs_in b c -> occurs_in a c.
Proof.
  intros (x & y & ->) (u & v & ->). exists (u +:+ x)%string, (y +:+ v)%string.
  by rewrite !append_assoc.
Qed.

Lemma List_filter_narrow {A : Type} (f g : A -> bool) (l : list A) :
  (forall x, f x = true -> g x = true) ->
  sublist (List.filter f l) (List.filter g l).
Proof.
  intros Hfg. induction l as [|x l IH]; cbn; [done|].
  destruct (f x) eqn:Hf.
  - rewrite (Hfg x Hf). by apply sublist_skip.
  - destruct (g x); [by apply sublist_cons | done].
Qed.

(** X20: Refining the query only removes results: if the trimmed,
    lower-cased text typed before occurs in the new one, the new view
    is a sublist of the previous view, in catalog order. *)
Theorem view_narrows (q q' : string) (lp : Launchpad.t) :
  occurs_in (trim (toLowerCase q)) (trim (toLowerCase q')) ->
  sublist (view q' lp) (view q lp).
Proof.
  intros Hocc. rewrite !view_filter. apply List_filter_narrow.
  intros d. unfold contains_cib. rewrite <- !toLowerCase_trim.
  rewrite !includes_spec. intros H. by eapply occurs_in_trans.
Qed.

Lemma view_narrows_witness :
  sublist (view "Win L" create) (view " win" create).
Proof.
  apply view_narrows. exists "", " l"%string. reflexivity.
Defined.

End LaunchpadFacts2.

Section IconFacts.
Import JS.

Lemma toLowerChar_idemp (c : ascii) : toLowerChar (toLowerChar c) = toLowerChar c.
Proof.
  destruct c as [[] [] [] [] [] [] [] []]; reflexivity.
Qed.

Lemma toLowerCase_idemp (s : string) : toLowerCase (toLowerCase s) = toLowerCase s.
Proof.
  induction s as [|c s IH]; cbn; [done|]. by rewrite toLowerChar_idemp, IH.
Qed.

(** X21: The table-driven [DOMUtils.getModalIcon] returns, for every title,
    the icon the chain of tests of the earlier [getModalIcon] returned,
    and the icon depends on the title only up to letter case. *)
Theorem getModalIcon_refactoring (title : string) :
  DOMQuery.getModalIcon title = CustomUIManagerInline.getModalIcon title /\
  DOMQuery.getModalIcon (toLowerCase title) = DOMQuery.getModalIcon title.
Proof.
  split.
  - unfold DOMQuery.getModalIcon, CustomUIManagerInline.getModalIcon,
      DOMQuery.MODAL_ICONS. cbn [List.find fst snd].
    repeat (destruct (includes (toLowerCase title) _); [reflexivity|]).
    reflexivity.
  - unfold DOMQuery.getModalIcon. by rewrite toLowerCase_idemp.
Qed.

End IconFacts.

(* ------------------------------------------------------------------ *)
(** ** The title bar acts on the elements, not on the registry *)
(* ------------------------------------------------------------------ *)

Section TitleBarFacts.
Import ModalManager CustomUIManager UIEvents TitleBarTabs.
Implicit Types (w : World Collaborators) (m modal : Ref) (i : nat).

Lemma minimizedTitles_ext ui ui' :
  modals (manager (world ui')) = modals (manager (world ui)) ->
  (forall i, ModalWindow.isModalMinimized <$> store (world ui') !! i =
             ModalWindow.isModalMinimized <$> store (world ui) !! i) ->
  minimizedTitles ui' = minimizedTitles ui.
Proof.
  intros Hm Hs. apply set_eq. intros k. rewrite !elem_of_minimizedTitles, Hm.
  split; intros (m & Hin & Hmin); exists m; (split; [done|]).
  - by rewrite <- (minimizedAt_blind _ _ _ (Hs m)).
  - by rewrite (minimizedAt_blind _ _ _ (Hs m)).
Qed.

Lemma fold_alter_blind {A B : Type} (rd : A -> B) (f : A -> A)
    (l : list nat) (st : list A) i :
  (forall o, rd (f o) = rd o) ->
  rd <$> fold_left (fun st j => alter f j st) l st !! i = rd <$> st !! i.
Proof.
  intros Hf. revert st. induction l as [|j l IH]; intros st; [done|].
  cbn [fold_left]. rewrite IH.
  destruct (decide (i = j)) as [->|Hne].
  - rewrite list_lookup_alter_eq. destruct (st !! j); cbn; [by rewrite Hf | done].
  - by rewrite list_lookup_alter_ne.
Qed.

Lemma fold_alter_pres {A : Type} (P : A -> Prop) (f : A -> A)
    (l : list nat) (st : list A) i :
  (forall o, P (f o)) ->
  (forall o, st !! i = Some o -> P o) ->
  forall o, fold_left (fun st j => alter f j st) l st !! i = Some o -> P o.
Proof.
  intros Hf. revert st. induction l as [|j l IH]; intros st Hst; [done|].
  cbn [fold_left]. apply IH. intros o.
  destruct (decide (i = j)) as [->|Hne].
  - rewrite list_lookup_alter_eq. destruct (st !! j); [|done].
    cbn. intros [= <-]. apply Hf.
  - rewrite list_lookup_alter_ne by done. apply Hst.
Qed.

Lemma fold_alter_all {A : Type} (P : A -> Prop) (f : A -> A)
    (l : list nat) (st : list A) i :
  (forall o, P (f o)) -> i ∈ l ->
  forall o, fold_left (fun st j => alter f j st) l st !! i = Some o -> P o.
Proof.
  intros Hf. revert st. induction l as [|j l IH]; intros st Hin.
  - by apply elem_of_nil in Hin.
  - cbn [fold_left]. destruct (decide (i = j)) as [->|Hne].
    + apply fold_alter_pres; [done|]. intros o.
      rewrite list_lookup_alter_eq. destruct (st !! j); [|done].
      cbn. intros [= <-]. apply Hf.
    + apply IH. apply elem_of_cons in Hin as [?|?]; done.
Qed.

(** X22: A click on the application icon, in any state in which the
    registry holds the callbacks of [setupEventHandlers]: when the
    animations end every window of the content area is hidden and no
    window is recorded as active, but the dock and the [isMinimized]
    flags are what they were. *)
Theorem appIconClick_hides_without_dock ui :
  wired (world ui) ->
  let targets := DOMQuery.getAllModals (store (world ui)) in
  let ui' := appIconClick_then targets (appIconClick ui) in
  (forall i o, i ∈ targets -> store (world ui') !! i = Some o ->
     ModalWindow.style_display (ModalWindow.element o) = ModalWindow.DisplayNone) /\
  getActiveModal (world ui') = None /\
  dockEntries ui' = dockEntries ui /\
  minimizedTitles ui' = minimizedTitles ui.
Proof.
  intros Hw targets ui'.
  set (w := world ui) in *.
  set (st := fold_left (fun st i => alter TitleBarManager.minimizeModalToDock i st)
               (DOMQuery.getAllModals (store w)) (store w)).
  set (w1 := with_env
               (with_titleBar
                  (fun _ => TitleBarManager.resetToDefaultBranding
                     {| TitleBarManager.activeModalTitle := "";
                        TitleBarManager.brandingElement_textContent :=
                          TitleBarManager.brandingElement_textContent
                            (titleBarManager (env w)) |}))
               (with_store (fun _ => st) w)).
  assert (Hui : world (appIconClick ui) = clearActiveModal w1) by done.
  assert (Hw1 : wired w1) by done.
  destruct (sync_clearActiveModal w1 Hw1) as (_ & Hm & Ha & _ & _ & _ & Hd).
  pose proof (fun i => clearActiveModal_blind ModalWindow.isModalMinimized w1 i
                         style_blind_isModalMinimized) as Hb.
  assert (Hw' : world ui' =
                with_store (TitleBarManager.minimizeAllModals_then targets)
                  (clearActiveModal w1)).
  { unfold ui', appIconClick_then. cbn [world with_world]. by rewrite Hui. }
  split.
  { intros i o Hin. rewrite Hw'. cbn [store with_store].
    unfold TitleBarManager.minimizeAllModals_then.
    by apply (fold_alter_all
                (fun o => ModalWindow.style_display (ModalWindow.element o)
                          = ModalWindow.DisplayNone)). }
  split. { rewrite Hw'. unfold getActiveModal. cbn. exact Ha. }
  split.
  { change (dockEntries ui') with (dk (world ui')). rewrite Hw'.
    change (dk (with_store _ (clearActiveModal w1))) with (dk (clearActiveModal w1)).
    by rewrite Hd. }
  apply minimizedTitles_ext.
  - rewrite Hw'. cbn [manager with_store]. by rewrite Hm.
  - intros i. rewrite Hw'. cbn [store with_store].
    unfold TitleBarManager.minimizeAllModals_then.
    rewrite fold_alter_blind by done. rewrite Hb. cbn [store w1 with_env with_store].
    unfold st. by rewrite fold_alter_blind.
Qed.

(** X23: A click on the tab of a hidden window, until its animation ends:
    the window is shown and flagged active, but nothing else changes;
    the registry, the [isMinimized] flags and the dock are as before,
    and a window that carried the active flag still carries it. *)
Theorem tabClick_bypasses_registry title m o ui :
  DOMQuery.getModalByTitle title (store (world ui)) = Some m ->
  store (world ui) !! m = Some o ->
  ModalWindow.style_display (ModalWindow.element o) = ModalWindow.DisplayNone ->
  let ui' := tabClick_then title m (tabClick title ui) in
  (exists o', store (world ui') !! m = Some o' /\
     ModalWindow.style_display (ModalWindow.element o') = ModalWindow.DisplayBlock /\
     ModalWindow.isModalMinimized o' = ModalWindow.isModalMinimized o) /\
  active m (world ui') /\
  (forall a, active a (world ui) -> active a (world ui')) /\
  (forall i, i <> m -> store (world ui') !! i = store (world ui) !! i) /\
  manager (world ui') = manager (world ui) /\
  dockEntries ui' = dockEntries ui /\
  minimizedTitles ui' = minimizedTitles ui.
Proof.
  intros Hg Ho Hd ui'.
  set (f1 := ModalWindow.with_element
     (fun e =>
        ModalWindow.set_opacity (Some 1%Q)
          (ModalWindow.set_transform "scale(1) translateY(0)"
             (ModalWindow.set_transition "all 300ms ease"
                (ModalWindow.set_opacity (Some 0%Q)
                   (ModalWindow.set_transform "scale(0.1) translateY(50vh)"
                      (ModalWindow.set_display ModalWindow.DisplayBlock e))))))).
  set (f2 := ModalWindow.with_element
     (fun e =>
        ModalWindow.set_data_active true
          (ModalWindow.set_opacity None
             (ModalWindow.set_transform ""
                (ModalWindow.set_transition "" e))))).
  assert (Hst : store (world ui') = alter f2 m (alter f1 m (store (world ui)))).
  { unfold ui', tabClick_then, tabClick. cbn [world with_world store with_env with_store].
    unfold restoreModalFromDock_then, restoreModalFromDock.
    unfold Ref in *. by rewrite Hg, Ho, Hd. }
  assert (Hm : forall i, store (world ui') !! i =
             if decide (i = m) then Some (f2 (f1 o)) else store (world ui) !! i).
  { intros i. rewrite Hst. destruct (decide (i = m)) as [->|Hne].
    - unfold Ref in *. by rewrite !list_lookup_alter_eq, Ho.
    - by rewrite !list_lookup_alter_ne. }
  assert (Hact : active m (world ui')).
  { exists (f2 (f1 o)). unfold Ref in *. by rewrite Hm, decide_True. }
  split.
  { exists (f2 (f1 o)). unfold Ref in *. by rewrite Hm, decide_True. }
  split; [done|]. split.
  { intros a (oa & Hoa & Haa). destruct (decide (a = m)) as [->|Hne]; [done|].
    exists oa. unfold Ref in *. by rewrite Hm, decide_False. }
  split. { intros i Hi. by rewrite Hm, decide_False. }
  split; [done|]. split; [done|].
  apply minimizedTitles_ext; [done|].
  intros i. rewrite Hm. case_decide as Hi; [|done]. subst i.
  unfold Ref in *. by rewrite Ho.
Qed.

End TitleBarFacts.

Section TitleBarWitness.
Import ModalManager CustomUIManager UIEvents TitleBarTabs Scenarios Scenarios3.

Lemma appIconClick_hides_without_dock_witness :
  dockEntries (appIconClick_then (DOMQuery.getAllModals (store (world uiOneWindow)))
                 (appIconClick uiOneWindow)) = dockEntries uiOneWindow /\
  minimizedTitles (appIconClick_then
                     (DOMQuery.getAllModals (store (world uiOneWindow)))
                     (appIconClick uiOneWindow)) = minimizedTitles uiOneWindow.
Proof.
  assert (Hw : wired (world uiOneWindow)) by (repeat split).
  pose proof (appIconClick_hides_without_dock uiOneWindow Hw) as (_ & _ & Hd & Hm).
  split; [exact Hd | exact Hm].
Defined.

Lemma tabClick_bypasses_registry_witness :
  active 0 (world (tabClick_then "HELLO Dialog" 0
                     (tabClick "HELLO Dialog" uiMinimized))) /\
  dockEntries (tabClick_then "HELLO Dialog" 0 (tabClick "HELLO Dialog" uiMinimized))
    = dockEntries uiMinimized.
Proof.
  destruct (store (world uiMinimized) !! 0) as [o|] eqn:Ho; [|discriminate Ho].
  assert (Hd : ModalWindow.style_display (ModalWindow.element o)
               = ModalWindow.DisplayNone).
  { vm_compute in Ho. injection Ho as <-. reflexivity. }
  pose proof (tabClick_bypasses_registry "HELLO Dialog" 0 o uiMinimized
                eq_refl Ho Hd) as (_ & Ha & _ & _ & _ & Hdk & _).
  split; [exact Ha | exact Hdk].
Defined.

End TitleBarWitness.

(* ------------------------------------------------------------------ *)
(** ** "Minimize All" and "Restore All" *)
(* ------------------------------------------------------------------ *)

Section BulkFacts.
Import ModalManager.
Context {E : Type}.
Implicit Types (w : World E) (m modal : Ref) (i : nat).

Lemma call_manager modal
    (method : ModalWindow.t -> ModalWindow.t * ModalWindow.Call) w :
  manager (call modal method w) = manager w.
Proof.
  unfold call. destruct (store w !! modal) as [o|]; [|done].
  destruct (method o) as [o' c]. unfold runCallback.
  destruct c as [[[] t]|]; [| |done]; by rewrite notify_manager.
Qed.

Lemma fold_call_store
    (method : ModalWindow.t -> ModalWindow.t * ModalWindow.Call)
    (refs : list Ref) w :
  (forall o, fst (method (fst (method o))) = fst (method o)) ->
  let w' := fold_left (fun w m => call m method w) refs w in
  manager w' = manager w /\
  forall i, store w' !! i =
    if decide (i ∈ refs) then (fun o => fst (method o)) <$> store w !! i
    else store w !! i.
Proof.
  intros Hidem. revert w.
  induction refs as [|r refs IH]; intros w; cbn [fold_left].
  - split; [done|]. intros i. rewrite decide_False; [done|].
    by intros ?%elem_of_nil.
  - destruct (IH (call r method w)) as [Hm Hs]. cbv zeta in *.
    rewrite Hm, call_manager. split; [done|].
    intros i. rewrite Hs, call_store.
    destruct (decide (i ∈ refs)) as [Hin|Hin];
      destruct (decide (i = r)) as [->|Hne].
    + rewrite decide_True by (apply elem_of_cons; by left).
      unfold Ref in *. destruct (store w !! r) as [o|]; [|done].
      cbn. f_equal. apply Hidem.
    + rewrite decide_True by (apply elem_of_cons; by right). done.
    + rewrite decide_True by (apply elem_of_cons; by left). done.
    + rewrite decide_False; [done|]. by intros [?|?]%elem_of_cons.
Qed.

(** What the two menu actions do to the windows: every registered
    window gets [minimize], respectively [restore], every other object
    is left alone, and the registry, with its recorded active window,
    does not change. *)
Lemma minimizeAllModals_store w :
  manager (minimizeAllModals w) = manager w /\
  forall i, store (minimizeAllModals w) !! i =
    if decide (registered i w)
    then (fun o => fst (ModalWindow.minimize o)) <$> store w !! i
    else store w !! i.
Proof.
  rewrite minimizeAllModals_fold.
  apply (fold_call_store ModalWindow.minimize). intros o.
  destruct o as [e t wd h l tp c s mc rc]. by destruct e, s.
Qed.

Lemma restoreAllModals_store w :
  manager (restoreAllModals w) = manager w /\
  forall i, store (restoreAllModals w) !! i =
    if decide (registered i w)
    then (fun o => fst (ModalWindow.restore o)) <$> store w !! i
    else store w !! i.
Proof.
  rewrite restoreAllModals_fold.
  apply (fold_call_store ModalWindow.restore). intros o.
  destruct o as [e t wd h l tp c s mc rc]. destruct e, s as [mi ma a z os].
  by destruct mi.
Qed.

Lemma restore_minimize_visible (o : ModalWindow.t) :
  ModalWindow.isMinimized (ModalWindow.state o) = false ->
  ModalWindow.style_display (ModalWindow.element o) = ModalWindow.DisplayFlex ->
  fst (ModalWindow.restore (fst (ModalWindow.minimize o))) = o.
Proof.
  intros Hmin Hdisp.
  destruct o as [e t wd h l tp c s mc rc]. destruct e, s. cbn in *.
  by subst.
Qed.

(** X24: "Minimize All" hides every registered window and sets its flag
    but leaves the recorded active window in place; if every registered
    window was visible and not minimized, "Restore All" then brings
    back exactly the windows there were. *)
Theorem minimizeAll_then_restoreAll w :
  (forall m o, registered m w -> store w !! m = Some o ->
     ModalWindow.isMinimized (ModalWindow.state o) = false /\
     ModalWindow.style_display (ModalWindow.element o) = ModalWindow.DisplayFlex) ->
  (forall m o, registered m w -> store (minimizeAllModals w) !! m = Some o ->
     ModalWindow.isModalMinimized o = true /\
     ModalWindow.style_display (ModalWindow.element o) = ModalWindow.DisplayNone) /\
  getActiveModal (minimizeAllModals w) = getActiveModal w /\
  store (restoreAllModals (minimizeAllModals w)) = store w /\
  manager (restoreAllModals (minimizeAllModals w)) = manager w.
Proof.
  intros Hvis.
  destruct (minimizeAllModals_store w) as [Hm1 Hs1].
  destruct (restoreAllModals_store (minimizeAllModals w)) as [Hm2 Hs2].
  split.
  { intros m o Hr. unfold Ref in *. rewrite Hs1, decide_True by done.
    destruct (store w !! m) as [o0|]; [|done]. cbn. by intros [= <-]. }
  split. { unfold getActiveModal. by rewrite Hm1. }
  split; [|by rewrite Hm2, Hm1].
  apply list_eq. intros i. rewrite Hs2.
  assert (Hr : registered i (minimizeAllModals w) <-> registered i w).
  { unfold registered. by rewrite Hm1. }
  rewrite Hs1.
  destruct (decide (registered i w)) as [Hi|Hi].
  - rewrite decide_True by (by apply Hr).
    destruct (store w !! i) as [o|] eqn:Ho; [|done]. cbn.
    destruct (Hvis i o Hi) as [H1 H2]; [by unfold Ref in * |].
    f_equal. by apply restore_minimize_visible.
  - rewrite decide_False; [done|]. by intros ?%Hr.
Qed.

End BulkFacts.

Section BulkWitness.
Import ModalManager Scenarios.

Lemma minimizeAll_then_restoreAll_witness :
  getActiveModal (minimizeAllModals scenarioA) = getActiveModal scenarioA /\
  store (restoreAllModals (minimizeAllModals scenarioA)) = store scenarioA.
Proof.
  assert (H : forall m o, registered m scenarioA -> store scenarioA !! m = Some o ->
     ModalWindow.isMinimized (ModalWindow.state o) = false /\
     ModalWindow.style_display (ModalWindow.element o) = ModalWindow.DisplayFlex).
  { intros m o Hr%list_elem_of_In Ho. vm_compute in Hr.
    destruct Hr as [<-|[<-|[]]]; vm_compute in Ho; injection Ho as <-;
      split; reflexivity. }
  pose proof (minimizeAll_then_restoreAll scenarioA H) as (_ & Ha & Hs & _).
  split; [exact Ha | exact Hs].
Defined.

End BulkWitness.

(* ------------------------------------------------------------------ *)
(** ** Debounce, throttle and the Meta key *)
(* ------------------------------------------------------------------ *)

Section WrapperFacts.
Import EventUtils.
Context {Args Env : Type} (func : Args -> Env -> Env).

Lemma debounced_calls (calls : list Args) (s : Debounced) (env : Env) :
  fold_left (debounced func) (map Call calls) (s, env) =
  (match last calls with Some a => Some a | None => s end, env).
Proof.
  revert s. induction calls as [|a calls IH]; intros s; [done|].
  cbn [map fold_left debounced snd]. rewrite IH.
  destruct calls as [|b calls]; [done|].
  change (last (a :: b :: calls)) with (last (b :: calls)).
  destruct (last (b :: calls)) eqn:Hl; [done|]. by apply last_None in Hl.
Qed.

(** X25: A burst of calls of a debounced function does not run the function;
    when the timer then fires, the function runs once, with the
    arguments of the last call, whatever timer was pending before the
    burst. *)
Theorem debounce_runs_last_call (calls : list Args) (a : Args)
    (s : Debounced) (env : Env) :
  last calls = Some a ->
  snd (fold_left (debounced func) (map Call calls) (s, env)) = env /\
  fold_left (debounced func) (map Call calls ++ [Timeout]) (s, env) =
    (None, func a env) /\
  fold_left (debounced func) (map Call calls ++ [Timeout; Timeout]) (s, env) =
    (None, func a env).
Proof.
  intros Hl. rewrite !fold_left_app, debounced_calls, Hl. done.
Qed.

Lemma throttled_resets (evs : list Event) (s : Throttled) (env : Env) :
  resets s = (if inThrottle s then 1 else 0) ->
  let s' := fst (fold_left (throttled func) evs (s, env)) in
  resets s' = (if inThrottle s' then 1 else 0).
Proof.
  revert s env. induction evs as [|ev evs IH]; intros s env Hs; [done|].
  cbn [fold_left].
  destruct (throttled func (s, env) ev) as [s1 env1] eqn:Hstep.
  apply IH. destruct ev as [args|]; cbn in Hstep.
  - destruct (inThrottle s) eqn:Hi; cbn in Hstep; injection Hstep as <- <-.
    + by rewrite Hi.
    + cbn. by rewrite Hs.
  - destruct (resets s) as [|n] eqn:Hr; injection Hstep as <- <-.
    + by rewrite Hr.
    + cbn. destruct (inThrottle s); [by injection Hs as ->|discriminate].
Qed.

Lemma throttled_dropped (calls : list Args) (s : Throttled) (env : Env) :
  inThrottle s = true ->
  fold_left (throttled func) (map Call calls) (s, env) = (s, env).
Proof.
  intros Hs. induction calls as [|a calls IH]; [done|].
  cbn [map fold_left throttled fst]. by rewrite Hs.
Qed.

(** X26: A throttled function, from the state [throttle] returns: at every
    moment at most one reset timer is pending, and exactly while
    [inThrottle] is set. Of a burst of calls outside the throttle
    window only the first runs; the others are dropped, not deferred;
    once the timer has fired the next call runs again. *)
Theorem throttle_first_call_wins (evs : list Event) (a b : Args)
    (calls : list Args) (env : Env) :
  let s := fold_left (throttled func) evs (throttle, env) in
  resets (fst s) = (if inThrottle (fst s) then 1 else 0) /\
  fold_left (throttled func) (Call a :: map Call calls) (throttle, env) =
    (mkThrottled true 1, func a env) /\
  fold_left (throttled func)
    (Call a :: map Call calls ++ [Timeout; Call b]) (throttle, env) =
    (mkThrottled true 1, func b (func a env)).
Proof.
  split; [by apply throttled_resets|].
  cbn [fold_left throttled throttle fst snd inThrottle negb resets].
  rewrite fold_left_app, throttled_dropped by done. done.
Qed.

End WrapperFacts.

Section MetaKeyFacts.
Import MetaKey.

Lemma step_pending (s : t) (ev : Event) :
  (metaKeyTimeout s = true -> metaKeyPressed s = true) ->
  metaKeyTimeout (step s ev) = true -> metaKeyPressed (step s ev) = true.
Proof.
  intros Hs. destruct ev as [key|key|]; cbn.
  - unfold keyDown. destruct (String.eqb key "F4"); [done|].
    destruct (isMeta key).
    + destruct (metaKeyPressed s) eqn:Hp; cbn; [|done]. by rewrite Hp.
    + destruct (metaKeyPressed s) eqn:Hp; cbn; [done|]. by rewrite Hp.
  - unfold keyUp. by destruct (isMeta key).
  - unfold dwellTimeout. destruct (metaKeyTimeout s) eqn:Ht.
    + by destruct (metaKeyPressed s && _).
    + rewrite Ht. discriminate.
Qed.

Lemma run_pending (evs : list Event) (s : t) :
  (metaKeyTimeout s = true -> metaKeyPressed s = true) ->
  metaKeyTimeout (run evs s) = true -> metaKeyPressed (run evs s) = true.
Proof.
  revert s. induction evs as [|ev evs IH]; intros s Hs; [done|].
  unfold run. cbn [fold_left]. apply IH. by apply step_pending.
Qed.

(** X27: The Meta key (on platforms other than Windows): in every state
    the events produce from the initial one, a pending dwell timer
    implies that the Meta key is recorded as pressed, so the test of
    [metaKeyPressed] in the timer body always succeeds; and pressing
    any other key than F4 while the timer is pending, or releasing the
    Meta key, cancels it: the timer then leaves the launchpad as that
    key event left it. *)
Theorem meta_key_dwell (evs : list Event) (lp : Launchpad.t) (key : string) :
  let s := run evs (create lp) in
  (metaKeyTimeout s = true -> metaKeyPressed s = true) /\
  (isMeta key = true ->
   run [KeyUp key; DwellTimeout] s = run [KeyUp key] s) /\
  (isMeta key = false -> String.eqb key "F4" = false ->
   run [KeyDown key; DwellTimeout] s = run [KeyDown key] s).
Proof.
  intros s.
  assert (Hinv : metaKeyTimeout s = true -> metaKeyPressed s = true).
  { by apply run_pending. }
  split; [done|]. split.
  - intros Hk. unfold run. cbn. unfold keyUp. by rewrite Hk.
  - intros Hk Hf. unfold run. cbn. unfold keyDown. rewrite Hf, Hk.
    destruct (metaKeyPressed s) eqn:Hp; cbn.
    + done.
    + unfold dwellTimeout. cbn.
      destruct (metaKeyTimeout s) eqn:Ht; [|done].
      specialize (Hinv eq_refl). congruence.
Qed.

End MetaKeyFacts.

Section WrapperWitness.
Import EventUtils.

Lemma debounce_runs_last_call_witness :
  fold_left (debounced (fun (a : nat) (log : list nat) => log ++ [a]))
    (map Call [1; 2; 3] ++ [Timeout]) (debounce, []) = (None, [3]).
Proof.
  exact (proj1 (proj2 (debounce_runs_last_call
                         (fun (a : nat) (log : list nat) => log ++ [a])
                         [1; 2; 3] 3 debounce [] eq_refl))).
Defined.

End WrapperWitness.
